(** * ThesisCheck: segmentation and streaming extraction

    A shallow embedding of the two algorithmic cores of the back end,
    [prompts/thesis_review.py] (the segmenter) and
    [services/llm_service.py] (the stream extractor and the review
    orchestrator), together with the properties proved about them.

    Python strings are sequences of Unicode code points: a string is a list
    of code points ([N]).  Integers are unbounded ([Z], and [nat] for list
    positions and lengths). *)

From stdpp Require Import base numbers option list strings gmap sorting.

Local Open Scope N_scope.

(** ** Python strings *)

Module PyStr.

(** A text is a list of code points. *)
Abbreviation char := N (only parsing).
Abbreviation pystr := (list N) (only parsing).

(** [str.isspace] for one code point, which is also the class [\s] of a
    [str] pattern of [re] (Unicode 14, CPython 3.11). *)
Definition isspace (c : char) : bool :=
  ((0x09 <=? c) && (c <=? 0x0d)) || ((0x1c <=? c) && (c <=? 0x20))
  || (c =? 0x85) || (c =? 0xa0) || (c =? 0x1680)
  || ((0x2000 <=? c) && (c <=? 0x200a))
  || (c =? 0x2028) || (c =? 0x2029) || (c =? 0x202f) || (c =? 0x205f)
  || (c =? 0x3000).

(** First code points of the runs of ten decimal digits (general category
    Nd); the mathematical digits 1D7CE-1D7FF are five such runs. *)
Definition decimal_runs : list N :=
  [ 0x30; 0x660; 0x6f0; 0x7c0; 0x966; 0x9e6; 0xa66; 0xae6; 0xb66; 0xbe6;
    0xc66; 0xce6; 0xd66; 0xde6; 0xe50; 0xed0; 0xf20; 0x1040; 0x1090;
    0x17e0; 0x1810; 0x1946; 0x19d0; 0x1a80; 0x1a90; 0x1b50; 0x1bb0;
    0x1c40; 0x1c50; 0xa620; 0xa8d0; 0xa900; 0xa9d0; 0xa9f0; 0xaa50;
    0xabf0; 0xff10; 0x104a0; 0x10d30; 0x11066; 0x110f0; 0x11136; 0x111d0;
    0x112f0; 0x11450; 0x114d0; 0x11650; 0x116c0; 0x11730; 0x118e0;
    0x11950; 0x11c50; 0x11d50; 0x11da0; 0x16a60; 0x16ac0; 0x16b50;
    0x1d7ce; 0x1d7d8; 0x1d7e2; 0x1d7ec; 0x1d7f6;
    0x1e140; 0x1e2f0; 0x1e950; 0x1fbf0 ].

(** [str.isdecimal] for one code point: the class [\d] of a [str] pattern. *)
Definition isdecimal (c : char) : bool :=
  existsb (fun lo => (lo <=? c) && (c <? lo + 10)) decimal_runs.

(** Control characters, the class [[\x00-\x1f]]. *)
Definition iscntrl (c : char) : bool := c <=? 0x1f.

Fixpoint lstrip (s : pystr) : pystr :=
  match s with
  | c :: s' => if isspace c then lstrip s' else s
  | [] => []
  end.

Definition rstrip (s : pystr) : pystr := rev (lstrip (rev s)).

(** [s.strip()] *)
Definition strip (s : pystr) : pystr := rstrip (lstrip s).

(** Truth value of a string or list: non-empty. *)
Definition truthy {A} (l : list A) : bool :=
  match l with [] => false | _ => true end.

Definition str_eqb (a b : pystr) : bool := bool_decide (a = b).

Fixpoint startswith (s p : pystr) : bool :=
  match p, s with
  | [], _ => true
  | x :: p', y :: s' => (x =? y) && startswith s' p'
  | _ :: _, [] => false
  end.

(** [needle in hay] *)
Fixpoint str_in (needle hay : pystr) : bool :=
  startswith hay needle ||
  match hay with
  | [] => false
  | _ :: hay' => str_in needle hay'
  end.

(** Code points of an ASCII literal. *)
Definition lit (s : string) : pystr :=
  map Ascii.N_of_ascii (String.list_ascii_of_string s).

Fixpoint uint_codes (d : Decimal.uint) : pystr :=
  match d with
  | Decimal.Nil => []
  | Decimal.D0 d => 0x30 :: uint_codes d
  | Decimal.D1 d => 0x31 :: uint_codes d
  | Decimal.D2 d => 0x32 :: uint_codes d
  | Decimal.D3 d => 0x33 :: uint_codes d
  | Decimal.D4 d => 0x34 :: uint_codes d
  | Decimal.D5 d => 0x35 :: uint_codes d
  | Decimal.D6 d => 0x36 :: uint_codes d
  | Decimal.D7 d => 0x37 :: uint_codes d
  | Decimal.D8 d => 0x38 :: uint_codes d
  | Decimal.D9 d => 0x39 :: uint_codes d
  end.

(** [str(n)] for a natural number. *)
Definition str_of_nat (n : nat) : pystr := uint_codes (Nat.to_uint n).

(** [l[a:b]] for positions [0 <= a], [0 <= b]. *)
Definition slice {A} (l : list A) (a b : nat) : list A := drop a (take b l).

End PyStr.

(** ** The fragment of [re] the patterns use *)

Module Re.
Import PyStr.

(** Character sets. *)
Inductive cset :=
| CChar (c : char)            (* a literal character *)
| CRange (lo hi : char)       (* [lo-hi] *)
| CDigit                      (* \d *)
| CSpace                      (* \s *)
| CNotSpace                   (* \S *)
| CDot                        (* . : anything but a newline *)
| CUnion (a b : cset).        (* [ab] *)

Fixpoint cset_mem (cs : cset) (c : char) : bool :=
  match cs with
  | CChar x => c =? x
  | CRange lo hi => (lo <=? c) && (c <=? hi)
  | CDigit => isdecimal c
  | CSpace => isspace c
  | CNotSpace => negb (isspace c)
  | CDot => negb (c =? 0x0a)
  | CUnion a b => cset_mem a c || cset_mem b c
  end.

(** Patterns.  Every quantifier of the source applies to one character set;
    groups do not change what matches and are left out. *)
Inductive regex :=
| REps
| RBol                                            (* ^ *)
| REol                                            (* $ *)
| RSet (cs : cset)
| RRep (cs : cset) (lo : nat) (hi : option nat)   (* greedy cs{lo,hi} *)
| RSeq (r1 r2 : regex)
| RAlt (r1 r2 : regex).

Section Matcher.
Context {A : Type}.

(** The continuation receives whether the position is still the start of
    the string and what is left of it. *)
Definition cont := bool -> pystr -> option A.

(** Greedy repetition: as many characters as possible first, then one
    fewer at a time. *)
Fixpoint rep_match (cs : cset) (lo : nat) (hi : option nat)
    (bos : bool) (s : pystr) (k : cont) : option A :=
  let stop := match lo with O => k bos s | S _ => None end in
  match s with
  | c :: s' =>
      if cset_mem cs c && match hi with Some O => false | _ => true end
      then match rep_match cs (pred lo) (pred <$> hi) false s' k with
           | Some a => Some a
           | None => stop
           end
      else stop
  | [] => stop
  end.

(** Backtracking matcher, alternatives tried left to right. *)
Fixpoint run (r : regex) (bos : bool) (s : pystr) (k : cont) : option A :=
  match r with
  | REps => k bos s
  | RBol => if bos then k bos s else None
  | REol =>
      (* end of string, or just before a final newline *)
      match s with
      | [] => k bos s
      | [c] => if c =? 0x0a then k bos s else None
      | _ => None
      end
  | RSet cs =>
      match s with
      | c :: s' => if cset_mem cs c then k false s' else None
      | [] => None
      end
  | RRep cs lo hi => rep_match cs lo hi bos s k
  | RSeq r1 r2 => run r1 bos s (fun b s' => run r2 b s' k)
  | RAlt r1 r2 =>
      match run r1 bos s k with
      | Some a => Some a
      | None => run r2 bos s k
      end
  end.
End Matcher.

(** What is left of [s] after the match the engine finds at its start. *)
Definition match_at (r : regex) (bos : bool) (s : pystr) : option pystr :=
  run r bos s (fun _ s' => Some s').

(** [re.match(r, s)] as a truth value. *)
Definition re_match (r : regex) (s : pystr) : bool :=
  bool_decide (is_Some (match_at r true s)).

Fixpoint search_from (r : regex) (bos : bool) (s : pystr) : bool :=
  bool_decide (is_Some (match_at r bos s)) ||
  match s with
  | [] => false
  | _ :: s' => search_from r false s'
  end.

(** [re.search(r, s)] as a truth value. *)
Definition re_search (r : regex) (s : pystr) : bool := search_from r true s.

(** [re.sub] with the empty replacement: the leftmost matches are cut
    out, left to right.
    No pattern given to it in this program matches the empty string; on an
    empty match the scan keeps one character and moves on. *)
Fixpoint sub_from (fuel : nat) (r : regex) (bos : bool) (s : pystr) : pystr :=
  match fuel with
  | O => s
  | S fuel' =>
      let keep := match s with
                  | [] => []
                  | c :: s' => c :: sub_from fuel' r false s'
                  end in
      match match_at r bos s with
      | Some s' =>
          if (length s' <? length s)%nat then sub_from fuel' r false s'
          else keep
      | None => keep
      end
  end.

Definition re_sub (r : regex) (s : pystr) : pystr :=
  sub_from (S (length s)) r true s.

(** Notation-free builders for the usual shapes. *)
Definition chr (c : char) : regex := RSet (CChar c).
Definition star (cs : cset) : regex := RRep cs 0 None.
Definition plus (cs : cset) : regex := RRep cs 1 None.
Fixpoint rseq (rs : list regex) : regex :=
  match rs with
  | [] => REps
  | [r] => r
  | r :: rs' => RSeq r (rseq rs')
  end.
Definition word (s : pystr) : regex := rseq (chr <$> s).

End Re.

(** ** [prompts/thesis_review.py]: the segmenter *)

Module ThesisReview.
Import PyStr Re.

(** A paragraph dict [{"index": ..., "text": ...}]. *)
Record paragraph := Paragraph { index : Z; text : pystr }.

(** The values [section_type] takes. *)
Inductive kind := cover | abstract | chapter | references | appendix | toc.

Global Instance kind_eq_dec : EqDecision kind.
Proof. solve_decision. Defined.
Global Instance paragraph_eq_dec : EqDecision paragraph.
Proof. solve_decision. Defined.

Record Section := mkSection {
  name : pystr;
  section_type : kind;
  start_para_idx : Z;   (* index into the original paragraph list *)
  end_para_idx : Z;     (* inclusive *)
  paragraphs : list paragraph
}.

(** [[一二三四五六七八九十]] *)
Definition cn_numeral : cset :=
  CUnion (CChar 0x4e00) (CUnion (CChar 0x4e8c) (CUnion (CChar 0x4e09)
  (CUnion (CChar 0x56db) (CUnion (CChar 0x4e94) (CUnion (CChar 0x516d)
  (CUnion (CChar 0x4e03) (CUnion (CChar 0x516b) (CUnion (CChar 0x4e5d)
  (CChar 0x5341))))))))).

(** [^(a\s*b)$] *)
Definition two_chars (a b : char) : regex :=
  rseq [RBol; chr a; star CSpace; chr b; REol].

(** Regex patterns for detecting section headers, in priority order. *)
Definition _SECTION_PATTERNS : list (regex * kind) :=
  [ (* ^(摘\s*要)$ *)
    (two_chars 0x6458 0x8981, abstract);
    (* ^(ABSTRACT|Abstract)$ *)
    (rseq [RBol; RAlt (word (lit "ABSTRACT")) (word (lit "Abstract")); REol],
     abstract);
    (* ^(第[一二三四五六七八九十\d]+章)(?:\s|$) *)
    (rseq [RBol; chr 0x7b2c; plus (CUnion cn_numeral CDigit); chr 0x7ae0;
          RAlt (RSet CSpace) REol], chapter);
    (* ^([一二三四五六七八九十]+)、 *)
    (rseq [RBol; plus cn_numeral; chr 0x3001], chapter);
    (* ^(\d+)\s+\S *)
    (rseq [RBol; plus CDigit; plus CSpace; RSet CNotSpace], chapter);
    (* ^(绪\s*论)$ *)
    (two_chars 0x7eea 0x8bba, chapter);
    (* ^(引\s*言)$ *)
    (two_chars 0x5f15 0x8a00, chapter);
    (* ^(导\s*论)$ *)
    (two_chars 0x5bfc 0x8bba, chapter);
    (* ^(结\s*论)$ *)
    (two_chars 0x7ed3 0x8bba, chapter);
    (* ^(总\s*结)$ *)
    (two_chars 0x603b 0x7ed3, chapter);
    (* ^(绪\s*论.{0,20})$ *)
    (rseq [RBol; chr 0x7eea; star CSpace; chr 0x8bba; RRep CDot 0 (Some 20%nat);
          REol], chapter);
    (* ^(参考文献)$ *)
    (rseq [RBol; word [0x53c2; 0x8003; 0x6587; 0x732e]; REol], references);
    (* ^(致\s*谢)$ *)
    (two_chars 0x81f4 0x8c22, appendix);
    (* ^(附\s*录) *)
    (rseq [RBol; chr 0x9644; star CSpace; chr 0x5f55], appendix);
    (* ^(目\s*录)$ *)
    (two_chars 0x76ee 0x5f55, toc) ].

(** [[\x00-\x1f]] *)
Definition control_chars : regex := RSet (CRange 0x00 0x1f).

(** [\s*\d+\s*$], the tail of the page-number patterns. *)
Definition page_number_tail : list regex :=
  [star CSpace; plus CDigit; star CSpace; REol].

Definition _is_toc_entry (text : pystr) : bool :=
  (* \t\s*\d+\s*$ *)
  if re_search (rseq (chr 0x09 :: page_number_tail)) text then true
  (* [.。]{3,}\s*\d+\s*$ *)
  else if re_search
            (rseq (RRep (CUnion (CChar 0x2e) (CChar 0x3002)) 3 None
                  :: page_number_tail)) text then true
  else if str_in (lit "PAGEREF") text || str_in (lit "HYPERLINK") text
       then true
  (* [\x13\x14\x15] *)
  else if re_search
            (RSet (CUnion (CChar 0x13) (CUnion (CChar 0x14) (CChar 0x15))))
            text then true
  (* \x05\s*\d+\s*$ *)
  else if re_search (rseq (chr 0x05 :: page_number_tail)) text then true
  else false.

Definition _is_heading_paragraph (text : pystr) : bool :=
  let clean := re_sub control_chars text in
  if str_in [0x3002] clean then false
  else (length clean <=? 60)%nat.

Definition _normalize_section_name (name : pystr) : pystr :=
  (* \t.*$ *)
  let n := re_sub (rseq [chr 0x09; star CDot; REol]) name in
  (* \s*\d+\s*$ *)
  let n := re_sub (rseq page_number_tail) n in
  let n := re_sub control_chars n in
  (* \s+ *)
  let n := re_sub (plus CSpace) n in
  strip n.

(** A boundary [(list_pos, name, type)]. *)
Definition boundary : Type := nat * pystr * kind.

(** The loop over [_SECTION_PATTERNS] for one paragraph: the kind of the
    boundary it appends, if any.  Both exits of the loop body are [break]s. *)
Fixpoint match_patterns (pats : list (regex * kind)) (clean_text : pystr)
    : option kind :=
  match pats with
  | [] => None
  | (pattern, section_type) :: rest =>
      if re_match pattern clean_text then
        if bool_decide (section_type = chapter)
           && negb (_is_heading_paragraph clean_text)
        then None
        else Some section_type
      else match_patterns rest clean_text
  end.

(** One iteration of the first pass, on the state [(in_toc, boundaries)]. *)
Definition scan_step (st : bool * list boundary) (pos : nat) (p : paragraph)
    : bool * list boundary :=
  let '(in_toc, boundaries) := st in
  let raw_text := strip (text p) in
  if negb (truthy raw_text) then st else
  let clean_text := strip (re_sub control_chars raw_text) in
  if negb (truthy clean_text) then st else
  if re_match (two_chars 0x76ee 0x5f55) clean_text
  then (true, boundaries ++ [(pos, clean_text, toc)])
  else if in_toc && _is_toc_entry raw_text then st
  else if _is_toc_entry raw_text then (false, boundaries)
  else match match_patterns _SECTION_PATTERNS clean_text with
       | Some section_type =>
           (false, boundaries ++ [(pos, clean_text, section_type)])
       | None => (false, boundaries)
       end.

(** [for pos, p in enumerate(paragraphs)], from position [pos] on. *)
Fixpoint scan (pos : nat) (ps : list paragraph) (st : bool * list boundary)
    : bool * list boundary :=
  match ps with
  | [] => st
  | p :: ps' => scan (S pos) ps' (scan_step st pos p)
  end.

Definition find_boundaries (paragraphs : list paragraph) : list boundary :=
  snd (scan 0 paragraphs (false, [])).

(** [Section(name, kind, paras[0]["index"], paras[-1]["index"], paras)]:
    indexing an empty list raises. *)
Definition section_of (name : pystr) (k : kind) (paras : list paragraph)
    : option Section :=
  first ← head paras;
  final ← last paras;
  Some (mkSection name k (index first) (index final) paras).

(** [range(start, stop, step)] for [0 < step], by the number of elements
    left. *)
Fixpoint range_from (n start step : nat) : list nat :=
  match n with
  | O => []
  | S n' => start :: range_from n' (start + step) step
  end.

Definition range (start stop step : nat) : list nat :=
  range_from ((stop - start + (step - 1)) / step) start step.

(** [第{batch_num}部分] *)
Definition chunk_name (batch_num : nat) : pystr :=
  [0x7b2c] ++ str_of_nat batch_num ++ [0x90e8; 0x5206].

Definition _fallback_chunking (paragraphs : list paragraph)
    (max_paras_per_batch : nat) : option (list Section) :=
  mapM (fun i =>
          let chunk := slice paragraphs i (i + max_paras_per_batch) in
          let batch_num := (i / max_paras_per_batch + 1)%nat in
          section_of (chunk_name batch_num) chapter chunk)
       (range 0 (length paragraphs) max_paras_per_batch).

(** [for i, (pos, name, sec_type) in enumerate(boundaries)]: a section from
    each boundary to the next one, the last to the end of the list. *)
Fixpoint build_sections (paragraphs : list paragraph) (bs : list boundary)
    : option (list Section) :=
  match bs with
  | [] => Some []
  | (pos, name, sec_type) :: rest =>
      let end_pos := match rest with
                     | (next_pos, _, _) :: _ => next_pos
                     | [] => length paragraphs
                     end in
      let section_paras := slice paragraphs pos end_pos in
      tl ← build_sections paragraphs rest;
      if truthy section_paras then
        sec ← section_of name sec_type section_paras;
        Some (sec :: tl)
      else Some tl
  end.

(** [封面与题目] *)
Definition cover_name : pystr := [0x5c01; 0x9762; 0x4e0e; 0x9898; 0x76ee].

Definition cover_section (paragraphs : list paragraph) (bs : list boundary)
    : option (list Section) :=
  match bs with
  | [] => Some []
  | (first_boundary_pos, _, _) :: _ =>
      if (0 <? first_boundary_pos)%nat then
        let cover_paras := slice paragraphs 0 first_boundary_pos in
        if truthy cover_paras then
          sec ← section_of cover_name cover cover_paras;
          Some [sec]
        else Some []
      else Some []
  end.

(** One iteration of the merge loop; [merged[-1]] is updated in place. *)
Definition merge_step (min_paragraphs : nat) (merged : list Section)
    (sec : Section) : list Section :=
  match last merged with
  | Some prev =>
      if (length (paragraphs sec) <? min_paragraphs)%nat
         && bool_decide (section_type sec = section_type prev)
      then removelast merged ++
           [ mkSection (name prev ++ lit " / " ++ name sec)
                       (section_type prev)
                       (start_para_idx prev)
                       (end_para_idx sec)
                       (paragraphs prev ++ paragraphs sec) ]
      else merged ++ [sec]
  | None => merged ++ [sec]
  end.

Definition _merge_small_sections (sections : list Section)
    (min_paragraphs : nat) : list Section :=
  if (length sections <=? 1)%nat then sections
  else foldl (merge_step min_paragraphs) [] sections.

(** [name_groups], filled by the loop over [enumerate(sections)] from
    position [idx] on. *)
Fixpoint group_names (idx : nat) (sections : list Section)
    (name_groups : gmap pystr (list nat)) : gmap pystr (list nat) :=
  match sections with
  | [] => name_groups
  | sec :: rest =>
      let norm := _normalize_section_name (name sec) in
      group_names (S idx) rest
        (if truthy norm
         then <[norm := default [] (name_groups !! norm) ++ [idx]]> name_groups
         else name_groups)
  end.

(** [len(sections[i].paragraphs)]; every [i] asked for is a position of
    [sections]. *)
Definition para_count (sections : list Section) (i : nat) : nat :=
  from_option (fun sec => length (paragraphs sec)) 0%nat (sections !! i).

(** [max(indices, key=...)] from a first candidate: a later element wins
    only with a strictly larger key. *)
Fixpoint max_by (key : nat -> nat) (best : nat) (l : list nat) : nat :=
  match l with
  | [] => best
  | i :: l' =>
      if (key best <? key i)%nat then max_by key i l' else max_by key best l'
  end.

(** The indices one group contributes to [remove_indices]. *)
Definition group_removals (sections : list Section) (indices : list nat)
    : gset nat :=
  match indices with
  | [] => ∅
  | i0 :: rest =>
      if (length indices <=? 1)%nat then ∅
      else
        let best_idx := max_by (para_count sections) i0 rest in
        list_to_set (filter (fun idx => idx ≠ best_idx) indices)
  end.

Definition remove_indices (sections : list Section)
    (name_groups : gmap pystr (list nat)) : gset nat :=
  ⋃ ((fun item => group_removals sections item.2)
       <$> map_to_list name_groups).

(** [[sec for idx, sec in enumerate(sections) if idx not in remove]] *)
Fixpoint keep_from (idx : nat) (remove : gset nat) (sections : list Section)
    : list Section :=
  match sections with
  | [] => []
  | sec :: rest =>
      if decide (idx ∈ remove) then keep_from (S idx) remove rest
      else sec :: keep_from (S idx) remove rest
  end.

Definition _deduplicate_sections (sections : list Section) : list Section :=
  if (length sections <=? 1)%nat then sections
  else
    let name_groups := group_names 0 sections ∅ in
    keep_from 0 (remove_indices sections name_groups) sections.

Definition detect_sections (paragraphs : list paragraph)
    : option (list Section) :=
  if negb (truthy paragraphs) then Some []
  else
    let boundaries := find_boundaries paragraphs in
    if negb (truthy boundaries) then _fallback_chunking paragraphs 30
    else
      front ← cover_section paragraphs boundaries;
      body ← build_sections paragraphs boundaries;
      let sections := front ++ body in
      let sections := _merge_small_sections sections 3 in
      let sections := _deduplicate_sections sections in
      Some sections.

End ThesisReview.

(** ** The standard library's JSON decoder, as far as the program sees it *)

Module Json.
Import PyStr.

(** Decoded values.  A float keeps its literal: nothing here computes with
    it.  An object keeps its members in document order; a key that repeats
    takes its last value. *)
#[local] Unset Elimination Schemes.
Inductive json :=
| JNull
| JBool (b : bool)
| JInt (n : Z)
| JFloat (literal : pystr)
| JStr (s : pystr)
| JArr (items : list json)
| JObj (members : list (pystr * json)).
#[local] Set Elimination Schemes.

(** [key in d] and [d.get(key, default)] for a decoded object. *)
Fixpoint dict_lookup (members : list (pystr * json)) (key : pystr)
    : option json :=
  match members with
  | [] => None
  | (k, v) :: rest =>
      match dict_lookup rest key with
      | Some v' => Some v'
      | None => if str_eqb k key then Some v else None
      end
  end.

Definition dict_has (members : list (pystr * json)) (key : pystr) : bool :=
  bool_decide (is_Some (dict_lookup members key)).

Definition dict_get (members : list (pystr * json)) (key : pystr)
    (default : json) : json :=
  from_option id default (dict_lookup members key).

(** The decoder's whitespace: space, tab, newline, carriage return. *)
Definition is_ws (c : char) : bool :=
  (c =? 0x20) || (c =? 0x09) || (c =? 0x0a) || (c =? 0x0d).

Fixpoint skip_ws (s : pystr) : pystr :=
  match s with
  | c :: s' => if is_ws c then skip_ws s' else s
  | [] => []
  end.

Definition is_digit (c : char) : bool := (0x30 <=? c) && (c <=? 0x39).

Definition hexval (c : char) : option N :=
  if is_digit c then Some (c - 0x30)
  else if (0x61 <=? c) && (c <=? 0x66) then Some (c - 0x61 + 10)
  else if (0x41 <=? c) && (c <=? 0x46) then Some (c - 0x41 + 10)
  else None.

Definition hex4 (a b c d : char) : option N :=
  x ← hexval a; y ← hexval b; z ← hexval c; w ← hexval d;
  Some (((x * 16 + y) * 16 + z) * 16 + w).

(** A [\uXXXX] escape at the head of [s]: its value and what follows. *)
Definition unicode_escape (s : pystr) : option (N * pystr) :=
  match s with
  | bs :: u :: a :: b :: c :: d :: rest =>
      if (bs =? 0x5c) && (u =? 0x75)
      then v ← hex4 a b c d; Some (v, rest)
      else None
  | _ => None
  end.

Definition simple_escape (c : char) : option char :=
  if c =? 0x22 then Some 0x22           (* quote *)
  else if c =? 0x5c then Some 0x5c      (* backslash *)
  else if c =? 0x2f then Some 0x2f      (* slash *)
  else if c =? 0x62 then Some 0x08      (* b: backspace *)
  else if c =? 0x66 then Some 0x0c      (* f: form feed *)
  else if c =? 0x6e then Some 0x0a      (* n: newline *)
  else if c =? 0x72 then Some 0x0d      (* r: carriage return *)
  else if c =? 0x74 then Some 0x09      (* t: tab *)
  else None.

(** The body of a string after its opening quote, up to and including the
    closing quote: the decoded text and the rest.  Strict mode: a raw
    control character ends the decoding with an error. *)
Fixpoint scanstring (s : pystr) : option (pystr * pystr) :=
  match s with
  | [] => None
  | c :: s1 =>
      if c =? 0x22 then Some ([], s1)
      else if c =? 0x5c then
        match s1 with
        | [] => None
        | e :: s2 =>
            if e =? 0x75 then
              match s2 with
              | a :: b :: c' :: d :: s3 =>
                  match hex4 a b c' d with
                  | None => None
                  | Some hi =>
                      (* a high surrogate followed by an escaped low one *)
                      match
                        (if (0xd800 <=? hi) && (hi <=? 0xdbff)
                         then match s3 with
                              | bs :: u :: a2 :: b2 :: c2 :: d2 :: s4 =>
                                  if (bs =? 0x5c) && (u =? 0x75) then
                                    match hex4 a2 b2 c2 d2 with
                                    | Some lo =>
                                        if (0xdc00 <=? lo) && (lo <=? 0xdfff)
                                        then
                                          match scanstring s4 with
                                          | Some (t, r) =>
                                              Some (Some
                                                (0x10000
                                                 + (hi - 0xd800) * 0x400
                                                 + (lo - 0xdc00) :: t, r))
                                          | None => Some None
                                          end
                                        else None
                                    | None => Some None
                                    end
                                  else None
                              | _ => None
                              end
                         else None)
                      with
                      | Some joined => joined
                      | None =>
                          match scanstring s3 with
                          | Some (t, r) => Some (hi :: t, r)
                          | None => None
                          end
                      end
                  end
              | _ => None
              end
            else
              match simple_escape e with
              | Some x =>
                  match scanstring s2 with
                  | Some (t, r) => Some (x :: t, r)
                  | None => None
                  end
              | None => None
              end
        end
      else if c <=? 0x1f then None
      else
        match scanstring s1 with
        | Some (t, r) => Some (c :: t, r)
        | None => None
        end
  end.

Fixpoint span_digits (s : pystr) : pystr * pystr :=
  match s with
  | c :: s' =>
      if is_digit c then let '(d, r) := span_digits s' in (c :: d, r)
      else ([], s)
  | [] => ([], [])
  end.

Definition digits_value (d : pystr) : Z :=
  foldl (fun acc c => (acc * 10 + Z.of_N (c - 0x30))%Z) 0%Z d.

(** A number at the head of [s], after an optional sign that the caller
    has split off: an integer part (a single 0, or digits that do not
    start with 0), an optional fraction (a dot and digits) and an optional
    exponent (e or E, an optional sign, digits). *)
Definition scan_number (neg : bool) (s : pystr) : option (json * pystr) :=
  let '(int_part, r) :=
    match s with
    | c :: s' =>
        if c =? 0x30 then ([c], s')
        else if is_digit c then span_digits s
        else ([], s)
    | [] => ([], [])
    end in
  if negb (truthy int_part) then None
  else
    let '(frac, r1) :=
      match r with
      | dot :: r' =>
          if dot =? 0x2e then
            let '(d, r'') := span_digits r' in
            if truthy d then (dot :: d, r'') else ([], r)
          else ([], r)
      | [] => ([], r)
      end in
    let '(expo, r2) :=
      match r1 with
      | e :: r' =>
          if (e =? 0x65) || (e =? 0x45) then
            let '(sign, r'') :=
              match r' with
              | sg :: r''' =>
                  if (sg =? 0x2d) || (sg =? 0x2b) then ([sg], r''')
                  else ([], r')
              | [] => ([], r')
              end in
            let '(d, r''') := span_digits r'' in
            if truthy d then (e :: sign ++ d, r''') else ([], r1)
          else ([], r1)
      | [] => ([], r1)
      end in
    let sign := if neg then [0x2d] else [] in
    if truthy frac || truthy expo
    then Some (JFloat (sign ++ int_part ++ frac ++ expo), r2)
    else Some (JInt (if neg then - digits_value int_part
                     else digits_value int_part)%Z, r2).

(** [s] after the literal [w], when [s] starts with it. *)
Fixpoint after (w s : pystr) : option pystr :=
  match w, s with
  | [], _ => Some s
  | x :: w', y :: s' => if x =? y then after w' s' else None
  | _ :: _, [] => None
  end.

(** Outcome of a decoding step that recursion bounds by [fuel]. *)
Inductive step (A : Type) :=
| Parsed (a : A) (rest : pystr)
| Malformed
| Exhausted.
Arguments Parsed {A} a rest.
Arguments Malformed {A}.
Arguments Exhausted {A}.

(** [scan_once]: one value at the head of [s]; [parse_items] and
    [parse_members] are the loops of an array and of an object after the
    opening bracket, blanks skipped, the container known not to be empty. *)
Fixpoint scan_once (fuel : nat) (s : pystr) : step json :=
  match fuel with
  | O => Exhausted
  | S fuel' =>
      match s with
      | [] => Malformed
      | c :: s' =>
          if c =? 0x22 then
            match scanstring s' with
            | Some (t, r) => Parsed (JStr t) r
            | None => Malformed
            end
          else if c =? 0x7b then                       (* { *)
            match skip_ws s' with
            | c' :: r =>
                if c' =? 0x7d then Parsed (JObj []) r
                else
                  match parse_members fuel' (c' :: r) with
                  | Parsed ms r' => Parsed (JObj ms) r'
                  | Malformed => Malformed
                  | Exhausted => Exhausted
                  end
            | [] => Malformed
            end
          else if c =? 0x5b then                       (* [ *)
            match skip_ws s' with
            | c' :: r =>
                if c' =? 0x5d then Parsed (JArr []) r
                else
                  match parse_items fuel' (c' :: r) with
                  | Parsed vs r' => Parsed (JArr vs) r'
                  | Malformed => Malformed
                  | Exhausted => Exhausted
                  end
            | [] => Malformed
            end
          else if c =? 0x6e then                       (* null *)
            match after (lit "null") s with
            | Some r => Parsed JNull r
            | None => Malformed
            end
          else if c =? 0x74 then
            match after (lit "true") s with
            | Some r => Parsed (JBool true) r
            | None => Malformed
            end
          else if c =? 0x66 then
            match after (lit "false") s with
            | Some r => Parsed (JBool false) r
            | None => Malformed
            end
          else if c =? 0x4e then
            match after (lit "NaN") s with
            | Some r => Parsed (JFloat (lit "NaN")) r
            | None => Malformed
            end
          else if c =? 0x49 then
            match after (lit "Infinity") s with
            | Some r => Parsed (JFloat (lit "Infinity")) r
            | None => Malformed
            end
          else if c =? 0x2d then                       (* - *)
            match after (lit "-Infinity") s with
            | Some r => Parsed (JFloat (lit "-Infinity")) r
            | None =>
                match scan_number true s' with
                | Some (v, r) => Parsed v r
                | None => Malformed
                end
            end
          else
            match scan_number false s with
            | Some (v, r) => Parsed v r
            | None => Malformed
            end
      end
  end
with parse_items (fuel : nat) (s : pystr) : step (list json) :=
  match fuel with
  | O => Exhausted
  | S fuel' =>
      match scan_once fuel' s with
      | Parsed v r =>
          match skip_ws r with
          | c :: r1 =>
              if c =? 0x5d then Parsed [v] r1
              else if c =? 0x2c then
                match parse_items fuel' (skip_ws r1) with
                | Parsed vs r2 => Parsed (v :: vs) r2
                | Malformed => Malformed
                | Exhausted => Exhausted
                end
              else Malformed
          | [] => Malformed
          end
      | Malformed => Malformed
      | Exhausted => Exhausted
      end
  end
with parse_members (fuel : nat) (s : pystr) : step (list (pystr * json)) :=
  match fuel with
  | O => Exhausted
  | S fuel' =>
      match s with
      | q :: s' =>
          if q =? 0x22 then
            match scanstring s' with
            | Some (key, r) =>
                match skip_ws r with
                | colon :: r1 =>
                    if colon =? 0x3a then
                      match scan_once fuel' (skip_ws r1) with
                      | Parsed v r2 =>
                          match skip_ws r2 with
                          | c :: r3 =>
                              if c =? 0x7d then Parsed [(key, v)] r3
                              else if c =? 0x2c then
                                match parse_members fuel' (skip_ws r3) with
                                | Parsed ms r4 => Parsed ((key, v) :: ms) r4
                                | Malformed => Malformed
                                | Exhausted => Exhausted
                                end
                              else Malformed
                          | [] => Malformed
                          end
                      | Malformed => Malformed
                      | Exhausted => Exhausted
                      end
                    else Malformed
                | [] => Malformed
                end
            | None => Malformed
            end
          else Malformed
      | [] => Malformed
      end
  end.

(** [json.loads(s)]: [None] stands for [JSONDecodeError].  One value,
    blanks around it, nothing after.  Two units of fuel for each character
    are enough for the recursion.  The interpreter's recursion limit and
    its limit on the digits of an integer are not part of the model: past
    them [json.loads] raises [RecursionError] or [ValueError], neither of
    them a [JSONDecodeError], where this function decodes or gives
    [None]. *)
Definition json_loads (s : pystr) : option json :=
  match scan_once (S (2 * length s)) (skip_ws s) with
  | Parsed v r => if truthy (skip_ws r) then None else Some v
  | _ => None
  end.

End Json.

(** ** [services/llm_service.py]: the stream extractor and the orchestrator *)

Module LlmService.
Import PyStr Json ThesisReview.

(** [models/schemas.py] *)
Record ReviewComment := mkReviewComment {
  paragraph_index : Z;
  target_text : pystr;
  comment : pystr;
  severity : pystr
}.

(** What a function or a generator ends with: a value, or an exception
    (kept as its message, which is all the program reads of it). *)
Inductive outcome (A : Type) :=
| Return (a : A)
| Raise (message : pystr).
Arguments Return {A} a.
Arguments Raise {A} message.

(** A run of a generator: what it yielded, and the exception that ended it,
    if one did. *)
Record run (A : Type) := mkRun { yielded : list A; raised : option pystr }.
Arguments mkRun {A} yielded raised.
Arguments yielded {A} r.
Arguments raised {A} r.

(** Events of [_stream_single_batch]: [("text", content)] and
    [("comment", comment)]. *)
Inductive stream_event :=
| Text (content : pystr)
| Comment (c : ReviewComment).

(** Events of [review_paragraphs_stream], by their [event] field. *)
Inductive sse :=
| progress (current_batch total_batches : nat) (message : pystr)
| text_sse (content : pystr)
| comment_sse (c : ReviewComment)
| error_sse (message : pystr)
| done.

(** One chunk of the provider's stream: the [delta.content] of each of its
    [choices] ([None] when the delta carries no content). *)
Definition chunk : Type := list (option pystr).

(** What the provider does with one request: [create] raises, or the
    stream delivers chunks and then ends, normally or by raising. *)
Record response := mkResponse {
  create_error : option pystr;
  chunks : list chunk;
  stream_error : option pystr
}.

(** State of the incremental scan. *)
Record scan_state := mkScan {
  in_comments_array : bool;
  brace_depth : Z;
  current_object_start : Z;
  emitted_count : nat
}.

Definition scan_init : scan_state := mkScan false 0 (-1) 0.

Definition type_name (v : json) : pystr :=
  match v with
  | JNull => lit "NoneType"
  | JBool _ => lit "bool"
  | JInt _ => lit "int"
  | JFloat _ => lit "float"
  | JStr _ => lit "str"
  | JArr _ => lit "list"
  | JObj _ => lit "dict"
  end.

(** The keys of a decoded object, each once, in order of first use. *)
Fixpoint dict_keys (members : list (pystr * json)) (seen : list pystr)
    : list pystr :=
  match members with
  | [] => []
  | (k, _) :: rest =>
      if bool_decide (k ∈ seen) then dict_keys rest seen
      else k :: dict_keys rest (k :: seen)
  end.

(** [iter(v)]: the items a [for] loop over [v] sees, when [v] is iterable. *)
Definition py_iter (v : json) : option (list json) :=
  match v with
  | JArr items => Some items
  | JObj members => Some (JStr <$> dict_keys members [])
  | JStr s => Some ((fun c => JStr [c]) <$> s)
  | _ => None
  end.

Section Service.
(** The model class validates its fields (pydantic, lax mode): a string
    field takes a string, an integer field an integer.  What the library
    makes of another value given for the integer field (a bool, a float,
    a numeric string) is left to this parameter. *)
Context (lax_int : json -> option Z).

Definition validate_int (v : json) : option Z :=
  match v with
  | JInt n => Some n
  | _ => lax_int v
  end.

Definition validate_str (v : json) : option pystr :=
  match v with
  | JStr s => Some s
  | _ => None
  end.

(** [ReviewComment(paragraph_index=.., target_text=.., comment=..,
    severity=..)]; [None] stands for the validation error. *)
Definition new_ReviewComment (pi tt cm sv : json) : option ReviewComment :=
  paragraph_index ← validate_int pi;
  target_text ← validate_str tt;
  comment ← validate_str cm;
  severity ← validate_str sv;
  Some (mkReviewComment paragraph_index target_text comment severity).

(** The body of the loop of [extract_comments_from_json] for one item;
    [c.get] on anything but a dict raises, which the loop swallows. *)
Definition comment_of_item (c : json) : option ReviewComment :=
  match c with
  | JObj m =>
      new_ReviewComment
        (dict_get m (lit "paragraph_index") (JInt 0))
        (dict_get m (lit "target_text") (JStr []))
        (dict_get m (lit "comment") (JStr []))
        (dict_get m (lit "severity") (JStr (lit "suggestion")))
  | _ => None
  end.

Definition extract_comments_from_json (json_str : pystr)
    : outcome (list ReviewComment) :=
  match json_loads json_str with
  | None => Return []
  | Some (JObj data) =>
      let raw_comments := dict_get data (lit "comments") (JArr []) in
      match py_iter raw_comments with
      | Some items => Return (omap comment_of_item items)
      | None =>
          Raise (lit "'" ++ type_name raw_comments
                 ++ lit "' object is not iterable")
      end
  | Some data =>
      Raise (lit "'" ++ type_name data
             ++ lit "' object has no attribute 'get'")
  end.

Definition try_extract_single_comment (json_str : pystr)
    : option ReviewComment :=
  match json_loads json_str with
  | Some (JObj c) =>
      if dict_has c (lit "target_text") && dict_has c (lit "comment")
      then new_ReviewComment
             (dict_get c (lit "paragraph_index") (JInt 0))
             (dict_get c (lit "target_text") (JStr []))
             (dict_get c (lit "comment") (JStr []))
             (dict_get c (lit "severity") (JStr (lit "suggestion")))
      else None
  | _ => None
  end.

(** The quoted field name the scan waits for. *)
Definition comments_key : pystr := [0x22] ++ lit "comments" ++ [0x22].

(** One iteration of the [while] loop, at position [i] of [buffer]. *)
Definition scan_char (buffer : pystr) (i : nat) (st : scan_state)
    : scan_state * list stream_event :=
  match buffer !! i with
  | None => (st, [])
  | Some char =>
      if negb (in_comments_array st) then
        if (char =? 0x5b) && str_in comments_key (take i buffer)
        then (mkScan true (brace_depth st) (current_object_start st)
                     (emitted_count st), [])
        else (st, [])
      else if char =? 0x7b then
        let start := if (brace_depth st =? 0)%Z then Z.of_nat i
                     else current_object_start st in
        (mkScan true (brace_depth st + 1) start (emitted_count st), [])
      else if char =? 0x7d then
        let depth := (brace_depth st - 1)%Z in
        if (depth =? 0)%Z && (0 <=? current_object_start st)%Z then
          let obj_str :=
            slice buffer (Z.to_nat (current_object_start st)) (i + 1) in
          match try_extract_single_comment obj_str with
          | Some c =>
              (mkScan true depth (-1) (emitted_count st + 1), [Comment c])
          | None => (mkScan true depth (-1) (emitted_count st), [])
          end
        else (mkScan true depth (current_object_start st)
                     (emitted_count st), [])
      else if char =? 0x5d then
        (mkScan false (brace_depth st) (current_object_start st)
                (emitted_count st), [])
      else (st, [])
  end.

(** [while i < len(buffer)], with [n] iterations to go. *)
Fixpoint scan_range (n : nat) (buffer : pystr) (i : nat) (st : scan_state)
    : scan_state * list stream_event :=
  match n with
  | O => (st, [])
  | S n' =>
      let '(st1, out1) := scan_char buffer i st in
      let '(st2, out2) := scan_range n' buffer (S i) st1 in
      (st2, out1 ++ out2)
  end.

(** The body of [async for chunk in response] for a content that is not
    empty. *)
Definition feed (buffer : pystr) (st : scan_state) (content : pystr)
    : pystr * scan_state * list stream_event :=
  let buffer := buffer ++ content in
  let i := (length buffer - length content)%nat in
  let '(st', out) := scan_range (length buffer - i) buffer i st in
  (buffer, st', Text content :: out).

(** The loop over the chunks: buffer and state at its end, the events on
    the way, and the exception that cut it short, if one did. *)
Fixpoint drain (cs : list chunk) (buffer : pystr) (st : scan_state)
    : pystr * scan_state * list stream_event * option pystr :=
  match cs with
  | [] => (buffer, st, [], None)
  | choices :: cs' =>
      match choices with
      | [] => (buffer, st, [], Some (lit "list index out of range"))
      | content :: _ =>
          let '(buffer1, st1, out1) :=
            match content with
            | Some (c :: w) => feed buffer st (c :: w)
            | _ => (buffer, st, [])
            end in
          let '(buffer2, st2, out2, exn) := drain cs' buffer1 st1 in
          (buffer2, st2, out1 ++ out2, exn)
      end
  end.

Definition _stream_single_batch (resp : response) : run stream_event :=
  match create_error resp with
  | Some e => mkRun [] (Some e)
  | None =>
      let '(buffer, st, out, exn) := drain (chunks resp) [] scan_init in
      match exn, stream_error resp with
      | Some e, _ => mkRun out (Some e)
      | None, Some e => mkRun out (Some e)
      | None, None =>
          if (emitted_count st =? 0)%nat then
            match extract_comments_from_json buffer with
            | Return comments => mkRun (out ++ (Comment <$> comments)) None
            | Raise e => mkRun out (Some e)
            end
          else mkRun out None
      end
  end.

(** [sep.join(parts)] *)
Fixpoint join (sep : pystr) (parts : list pystr) : pystr :=
  match parts with
  | [] => []
  | [p] => p
  | p :: rest => p ++ sep ++ join sep rest
  end.

(** [generate_outline] of [prompts/thesis_review.py]. *)
Definition generate_outline (sections : list Section) : pystr :=
  join [0x0a]
    (imap (fun i sec =>
             str_of_nat (i + 1) ++ lit ". " ++ name sec ++ lit " ("
             ++ str_of_nat (length (paragraphs sec)) ++ [0x6bb5; 0x29])
          sections).

(** The prompt assembler and the model provider are collaborators: the
    assembler is any function of its four arguments, the provider any
    answer to the request of each batch. *)
Context {messages : Type}.
Context (build_section_review_messages :
           Section -> pystr -> nat -> nat -> messages).
Context (provider : nat -> messages -> response).

(** What the orchestrator does that can be seen from outside: the events
    it yields and the calls it makes to its collaborators. *)
Inductive action :=
| Yield (e : sse)
| Assemble (section : Section)
| Request (m : messages).

Definition _SKIP_TYPES : list kind := [cover; toc].

(** [data.model_dump_json()] is the serializer of the model class; whether
    it raises on a comment, and with what message, is left to this
    parameter ([None]: it returns). *)
Context (dump_error : ReviewComment -> option pystr).

(** The loop over the events of one batch, inside the [try]: the events it
    forwards, and the exception that cut it short, if one did. *)
Fixpoint forward_all (evs : list stream_event) : list sse * option pystr :=
  match evs with
  | [] => ([], None)
  | Text data :: rest =>
      let '(out, e) := forward_all rest in (text_sse data :: out, e)
  | Comment data :: rest =>
      match dump_error data with
      | Some e => ([], Some e)
      | None =>
          let '(out, e) := forward_all rest in (comment_sse data :: out, e)
      end
  end.

(** What the [try] block of one batch yields, and the exception its
    [except] clause catches, if any: one of the loop body, or else the one
    that ended the stream. *)
Definition batch_events (r : run stream_event) : list sse * option pystr :=
  let '(out, e) := forward_all (yielded r) in
  (out, match e with
        | Some x => Some x
        | None => raised r
        end).

(** [评审 {section.name} 出错: {str(e)}] *)
Definition error_message (section : Section) (e : pystr) : pystr :=
  [0x8bc4; 0x5ba1; 0x20] ++ name section
  ++ [0x20; 0x51fa; 0x9519; 0x3a; 0x20] ++ e.

(** [正在评审第 {batch_idx}/{total_batches}: {section.name}] *)
Definition section_message (batch_idx total_batches : nat)
    (section : Section) : pystr :=
  [0x6b63; 0x5728; 0x8bc4; 0x5ba1; 0x7b2c; 0x20]
  ++ str_of_nat batch_idx ++ lit "/" ++ str_of_nat total_batches
  ++ lit ": " ++ name section.

(** [已检测到 {n} 个章节，跳过封面/目录，评审 {total_batches} 个部分...] *)
Definition start_message (n total_batches : nat) : pystr :=
  [0x5df2; 0x68c0; 0x6d4b; 0x5230; 0x20] ++ str_of_nat n
  ++ [0x20; 0x4e2a; 0x7ae0; 0x8282; 0xff0c; 0x8df3; 0x8fc7; 0x5c01;
      0x9762; 0x2f; 0x76ee; 0x5f55; 0xff0c; 0x8bc4; 0x5ba1; 0x20]
  ++ str_of_nat total_batches
  ++ [0x20; 0x4e2a; 0x90e8; 0x5206; 0x2e; 0x2e; 0x2e].

(** The body of the loop over the sections to review. *)
Definition review_section (outline : pystr) (total_batches : nat)
    (batch_idx : nat) (section : Section) : list action :=
  let messages :=
    build_section_review_messages section outline batch_idx total_batches in
  let r := _stream_single_batch (provider batch_idx messages) in
  let '(out, failure) := batch_events r in
  [ Yield (progress batch_idx total_batches
             (section_message batch_idx total_batches section));
    Assemble section;
    Request messages ]
  ++ (Yield <$> out)
  ++ match failure with
     | Some e => [Yield (error_sse (error_message section e))]
     | None => []
     end.

(** [for batch_idx, section in enumerate(sections, 1)], from [batch_idx]
    on. *)
Fixpoint review_sections (outline : pystr) (total_batches : nat)
    (batch_idx : nat) (sections : list Section) : list action :=
  match sections with
  | [] => []
  | section :: rest =>
      review_section outline total_batches batch_idx section
      ++ review_sections outline total_batches (S batch_idx) rest
  end.

Definition review_paragraphs_stream (paragraphs : list paragraph)
    : run action :=
  match detect_sections paragraphs with
  | None => mkRun [] (Some (lit "list index out of range"))
  | Some all_sections =>
      let outline := generate_outline all_sections in
      let sections :=
        filter (fun s => section_type s ∉ _SKIP_TYPES) all_sections in
      let total_batches := length sections in
      mkRun
        ([ Yield (progress 0 total_batches
                    (start_message (length all_sections) total_batches)) ]
         ++ review_sections outline total_batches 1 sections
         ++ [Yield done])
        None
  end.

(** The events of a run, in the order they were yielded. *)
Definition events (tr : list action) : list sse :=
  omap (fun a => match a with Yield e => Some e | _ => None end) tr.

End Service.

(** [全文评语生成出错: {str(e)}] *)
Definition comment_error_message (e : pystr) : pystr :=
  [0x5168; 0x6587; 0x8bc4; 0x8bed; 0x751f; 0x6210; 0x51fa; 0x9519;
   0x3a; 0x20] ++ e.

(** The loop over the chunks of [generate_overall_comment_stream]: the
    text events it yields, and the exception that cut it short, if one
    did. *)
Fixpoint echo (cs : list chunk) : list sse * option pystr :=
  match cs with
  | [] => ([], None)
  | choices :: cs' =>
      match choices with
      | [] => ([], Some (lit "list index out of range"))
      | content :: _ =>
          let '(out, exn) := echo cs' in
          (match content with
           | Some (c :: w) => text_sse (c :: w) :: out
           | _ => out
           end, exn)
      end
  end.

(** [generate_overall_comment_stream], from the provider's answer to its
    one request: the events of the [try] block, the error event of the
    [except] clause, and [done]. *)
Definition generate_overall_comment_stream (resp : response) : list sse :=
  let '(out, failure) :=
    match create_error resp with
    | Some e => ([], Some e)
    | None =>
        let '(out, exn) := echo (chunks resp) in
        (out, match exn with
              | Some e => Some e
              | None => stream_error resp
              end)
    end in
  out
  ++ match failure with
     | Some e => [error_sse (comment_error_message e)]
     | None => []
     end
  ++ [done].

End LlmService.

(** ** [prompts/thesis_review.py]: the paragraphs of a prompt *)

Module Prompts.
Import PyStr ThesisReview LlmService.

(** [str(n)] for an integer. *)
Definition str_of_Z (n : Z) : pystr :=
  match Z.to_int n with
  | Decimal.Pos d => uint_codes d
  | Decimal.Neg d => 0x2d :: uint_codes d
  end.

(** [[段落 {p['index']}] {p['text']}] *)
Definition paragraph_line (p : paragraph) : pystr :=
  [0x5b; 0x6bb5; 0x843d; 0x20] ++ str_of_Z (index p) ++ [0x5d; 0x20]
  ++ text p.

(** The paragraphs whose text is not blank, one entry each, with an empty
    line between two entries. *)
Definition format_paragraphs_for_prompt (paragraphs : list paragraph)
    : pystr :=
  join [0x0a; 0x0a]
    (paragraph_line
     <$> filter (fun p => truthy (strip (text p)) = true) paragraphs).

End Prompts.

(** * Vocabulary of the properties *)

Local Close Scope N_scope.

(** ** The segmenter *)

Module SegmenterSpec.
Import PyStr Re ThesisReview.

(** Boundaries at increasing positions, all in [[lo, hi)]. *)
Fixpoint increasing (lo hi : nat) (bs : list boundary) : Prop :=
  match bs with
  | [] => True
  | (pos, _, _) :: rest => lo ≤ pos ∧ pos < hi ∧ increasing (S pos) hi rest
  end.

(** A section as the constructor calls of the program build it: its bounds
    are the indices of its first and last paragraph. *)
Definition wf_section (s : Section) : Prop :=
  ∃ first final,
    head (paragraphs s) = Some first ∧ last (paragraphs s) = Some final
    ∧ start_para_idx s = index first ∧ end_para_idx s = index final.

(** [_normalize_section_name(sections[i].name)] *)
Definition norm_at (sections : list Section) (i : nat) : pystr :=
  from_option (fun s => _normalize_section_name (name s)) [] (sections !! i).

(** Positions, from [idx] on, of the sections whose normalized name is
    [k]. *)
Fixpoint positions_of (k : pystr) (idx : nat) (l : list Section) : list nat :=
  match l with
  | [] => []
  | s :: rest =>
      if bool_decide (_normalize_section_name (name s) = k)
      then idx :: positions_of k (S idx) rest
      else positions_of k (S idx) rest
  end.

(** [[sec for idx, sec in enumerate(sections) if keep(idx)]] *)
Fixpoint keep_where (keep : nat -> bool) (idx : nat) (l : list Section)
    : list Section :=
  match l with
  | [] => []
  | s :: rest =>
      if keep idx then s :: keep_where keep (S idx) rest
      else keep_where keep (S idx) rest
  end.

(** The index a group with several members keeps. *)
Definition best_of (sections : list Section) (v : list nat) : nat :=
  match v with
  | [] => 0
  | i0 :: rest => max_by (para_count sections) i0 rest
  end.

(** A section is kept when its normalized name is empty, or when no
    section of the same normalized name has more paragraphs and none
    before it has as many. *)
Definition survives (sections : list Section) (i : nat) : Prop :=
  norm_at sections i = []
  ∨ ∀ j, j < length sections → norm_at sections j = norm_at sections i →
      para_count sections j < para_count sections i
      ∨ (para_count sections j = para_count sections i ∧ i ≤ j).

(** The rule loop in the words of the specification: a chapter match that
    does not look like a heading is rejected and the scan goes on with the
    rules that remain. *)
Fixpoint match_patterns_continuing (pats : list (regex * kind))
    (clean_text : pystr) : option kind :=
  match pats with
  | [] => None
  | (pattern, section_type) :: rest =>
      if re_match pattern clean_text then
        if bool_decide (section_type = chapter)
           && negb (_is_heading_paragraph clean_text)
        then match_patterns_continuing rest clean_text
        else Some section_type
      else match_patterns_continuing rest clean_text
  end.



End SegmenterSpec.

(** ** Paragraph lists and sections the claims are tried on *)

Module SegmenterExamples.
Import PyStr ThesisReview.
Local Open Scope N_scope.

(** Eight paragraphs under two headings of the same name. *)
Definition two_abstracts : list paragraph :=
  [ Paragraph 0 [0x6458; 0x8981]; Paragraph 1 (lit "a"); Paragraph 2 (lit "b");
    Paragraph 3 [0x6458; 0x8981]; Paragraph 4 (lit "c"); Paragraph 5 (lit "d");
    Paragraph 6 (lit "e"); Paragraph 7 (lit "f") ].

(** Thirty-one paragraphs without a heading. *)
Definition plain_paragraphs : list paragraph :=
  (fun i => Paragraph (Z.of_nat i) (lit "text")) <$> seq 0%nat 31%nat.

(** Two sections whose names are page numbers only. *)
Definition numbered_a : Section :=
  mkSection (lit "1") chapter 0 0 [Paragraph 0 (lit "x")].

Definition numbered_b : Section :=
  mkSection (lit "2") chapter 1 2
    [Paragraph 1 (lit "y"); Paragraph 2 (lit "z")].



(** Two paragraphs whose indices go down. *)
Definition descending : list paragraph :=
  [Paragraph 5 (lit "x"); Paragraph 3 (lit "y")].

End SegmenterExamples.

(** ** The stream extractor and the orchestrator *)

Module ServiceSpec.
Import PyStr Json ThesisReview LlmService.
Local Open Scope N_scope.

(** The comments among the events of a stream, in order. *)
Definition comments_of (evs : list stream_event) : list ReviewComment :=
  omap (fun e => match e with Comment c => Some c | Text _ => None end) evs.

(** The raw text echoes among the events of a stream, in order. *)
Definition texts_of (evs : list stream_event) : list pystr :=
  omap (fun e => match e with Text t => Some t | Comment _ => None end) evs.

(** A stream that delivers the given fragments, one choice per chunk. *)
Definition stream_of (frags : list pystr) : list chunk :=
  (fun f => [Some f]) <$> frags.

(** The stream of a provider that delivers the given fragments and fails
    nowhere. *)
Definition deliver (frags : list pystr) : response :=
  mkResponse None (stream_of frags) None.

(** A quoted word of a JSON text. *)
Definition quoted (s : string) : pystr := [0x22] ++ lit s ++ [0x22].

(** The three fragments of the example: an object whose [comments] array
    holds one record. *)
Definition example_fragments : list pystr :=
  [ lit "{" ++ quoted "comments" ++ lit ": [";
    lit "{" ++ quoted "target_text" ++ lit ":" ++ quoted "a";
    lit "," ++ quoted "comment" ++ lit ":" ++ quoted "b" ++ lit ","
    ++ quoted "severity" ++ lit ":" ++ quoted "error" ++ lit "}]}" ].

(** The text the three fragments add up to. *)
Definition example_text : pystr := concat example_fragments.

(** A text whose second record holds a closing square bracket inside a
    string. *)
Definition bracket_text : pystr :=
  lit "{" ++ quoted "comments" ++ lit ": [{"
  ++ quoted "target_text" ++ lit ":" ++ quoted "a" ++ lit ","
  ++ quoted "comment" ++ lit ":" ++ quoted "b" ++ lit "},{"
  ++ quoted "target_text" ++ lit ":" ++ quoted "see [1]" ++ lit ","
  ++ quoted "comment" ++ lit ":" ++ quoted "c" ++ lit "}]}".

(** An object that has both required keys, one with a null value. *)
Definition null_target : pystr :=
  lit "{" ++ quoted "target_text" ++ lit ": null, "
  ++ quoted "comment" ++ lit ": " ++ quoted "b" ++ lit "}".

(** The terminal event. *)
Definition is_done (e : sse) : bool :=
  match e with done => true | _ => false end.

(** An error event. *)
Definition is_error (e : sse) : bool :=
  match e with error_sse _ => true | _ => false end.

(** The batch number of a progress event. *)
Definition progress_index (e : sse) : option nat :=
  match e with progress current _ _ => Some current | _ => None end.

(** Three chapters of four paragraphs each. *)
Definition three_chapters : list paragraph :=
  [ Paragraph 0 [0x7b2c; 0x4e00; 0x7ae0]; Paragraph 1 (lit "a");
    Paragraph 2 (lit "b"); Paragraph 3 (lit "c");
    Paragraph 4 [0x7b2c; 0x4e8c; 0x7ae0]; Paragraph 5 (lit "d");
    Paragraph 6 (lit "e"); Paragraph 7 (lit "f");
    Paragraph 8 [0x7b2c; 0x4e09; 0x7ae0]; Paragraph 9 (lit "g");
    Paragraph 10 (lit "h"); Paragraph 11 (lit "i") ].

(** A provider that fails on the second request and streams the example
    fragments on every other one. *)
Definition second_fails (batch_idx : nat) (m : nat) : response :=
  if (batch_idx =? 2)%nat then mkResponse (Some (lit "rate limit")) [] None
  else deliver example_fragments.

(** An event forwarded from a stream: raw text or a comment. *)
Definition forwarded (e : sse) : Prop :=
  match e with
  | text_sse _ | comment_sse _ => True
  | _ => False
  end.

Section Orchestrator.
Context (lax_int : json -> option Z).
Context {messages : Type}.
Context (build_section_review_messages :
           Section -> pystr -> nat -> nat -> messages).
Context (provider : nat -> messages -> response).
Context (dump_error : ReviewComment -> option pystr).

(** The run of the stream extractor for one batch. *)
Definition batch_run (outline : pystr) (total_batches batch_idx : nat)
    (section : Section) : run stream_event :=
  _stream_single_batch lax_int
    (provider batch_idx
       (build_section_review_messages section outline batch_idx
          total_batches)).

(** What the [try] block of one batch yields, and the failure its
    [except] clause catches. *)
Definition batch_outcome (outline : pystr) (total_batches batch_idx : nat)
    (section : Section) : list sse * option pystr :=
  batch_events dump_error (batch_run outline total_batches batch_idx section).

(** The events one section is expected to give: its progress event, the
    events forwarded from its stream, and one error event naming the
    section when the batch failed. *)
Definition section_events (outline : pystr) (total_batches batch_idx : nat)
    (section : Section) : list sse :=
  let r := batch_outcome outline total_batches batch_idx section in
  progress batch_idx total_batches
    (section_message batch_idx total_batches section)
  :: r.1
  ++ match r.2 with
     | Some e => [error_sse (error_message section e)]
     | None => []
     end.

(** The events of the sections from [batch_idx] on. *)
Fixpoint sections_events (outline : pystr) (total_batches batch_idx : nat)
    (sections : list Section) : list sse :=
  match sections with
  | [] => []
  | section :: rest =>
      section_events outline total_batches batch_idx section
      ++ sections_events outline total_batches (S batch_idx) rest
  end.

(** The sections the prompt assembler was called for, in order. *)
Definition assembled (tr : list (@action messages)) : list Section :=
  omap (fun a => match a with Assemble s => Some s | _ => None end) tr.

(** The messages the provider was asked with, in order. *)
Definition requested (tr : list (@action messages)) : list messages :=
  omap (fun a => match a with Request m => Some m | _ => None end) tr.

End Orchestrator.

End ServiceSpec.

(** ** Headings, merged runs and scanned records *)

Module BoundarySpec.
Import PyStr Re ThesisReview.
Local Open Scope N_scope.

(** [^(目\s*录)$] *)
Definition toc_heading : regex := two_chars 0x76ee 0x5f55.

(** The text the patterns are tried on: the stripped text without its
    control characters, stripped again. *)
Definition clean_text_of (p : paragraph) : pystr :=
  strip (re_sub control_chars (strip (text p))).

(** Paragraph [p] is a heading named [name] of kind [k]: its cleaned text
    is [name] and is not empty, and either it is the table-of-contents
    heading, or the paragraph is no table-of-contents entry and the rule
    loop gives [k]. *)
Definition heading (p : paragraph) (name : pystr) (k : kind) : Prop :=
  name = clean_text_of p ∧ name ≠ []
  ∧ (re_match toc_heading name = true ∧ k = toc
     ∨ re_match toc_heading name = false
       ∧ _is_toc_entry (strip (text p)) = false
       ∧ match_patterns _SECTION_PATTERNS name = Some k).

(** The characters one of which every table-of-contents entry holds, unless
    it holds a field-code word: tab, full stop, ideographic full stop, the
    field marks and the bookmark mark. *)
Definition toc_marks : list N := [0x09; 0x2e; 0x3002; 0x13; 0x14; 0x15; 0x05].

End BoundarySpec.

Module MergeSpec.
Import PyStr ThesisReview LlmService.

(** [r] is what the merge pass makes of the run [g] of consecutive
    sections: the first one, with the others, each shorter than [n] and of
    its kind, merged into it. *)
Definition merged_from (n : nat) (g : list Section) (r : Section) : Prop :=
  ∃ s0 rest,
    g = s0 :: rest
    ∧ Forall (fun s => length (paragraphs s) < n
                       ∧ section_type s = section_type s0) rest
    ∧ name r = join (lit " / ") (name <$> g)
    ∧ section_type r = section_type s0
    ∧ start_para_idx r = start_para_idx s0
    ∧ Some (end_para_idx r) = end_para_idx <$> last g
    ∧ paragraphs r = concat (paragraphs <$> g).

(** No section shorter than [n] comes right after one of its kind. *)
Definition settled (n : nat) (l : list Section) : Prop :=
  ∀ i a b, l !! i = Some a → l !! S i = Some b →
    section_type a = section_type b → n ≤ length (paragraphs b).

End MergeSpec.

Module StreamSpec.
Import PyStr Json ThesisReview LlmService ServiceSpec.
Local Open Scope N_scope.

(** The records the incremental scan emits on a whole text, read from its
    first character on in the initial state. *)
Definition scanned (lax_int : json -> option Z) (text : pystr)
    : list ReviewComment :=
  comments_of (scan_range lax_int (length text) text 0 scan_init).2.

(** The contents the loop over the chunks reads: the first choice of each
    chunk (no content counts as empty), up to a chunk without choices. *)
Fixpoint delivered (cs : list chunk) : list pystr :=
  match cs with
  | [] => []
  | [] :: _ => []
  | (content :: _) :: cs' => default [] content :: delivered cs'
  end.

(** [r] was read off a slice of [b] that starts with an opening brace,
    ends with a closing one and comes after the quoted field name. *)
Definition from_braces (lax_int : json -> option Z) (b : pystr)
    (r : ReviewComment) : Prop :=
  ∃ a e : nat,
    (a ≤ e < length b)%nat
    ∧ b !! a = Some 0x7b ∧ b !! e = Some 0x7d
    ∧ str_in comments_key (take a b) = true
    ∧ try_extract_single_comment lax_int (slice b a (S e)) = Some r.

(** What the scan knows at position [i]: inside the array the quoted
    field name has been seen, and a recorded start is an opening brace
    that came after it. *)
Definition scan_inv (b : pystr) (i : nat) (st : scan_state) : Prop :=
  (in_comments_array st = true → str_in comments_key (take i b) = true)
  ∧ ((0 ≤ current_object_start st)%Z →
     ∃ a : nat, current_object_start st = Z.of_nat a ∧ (a < i)%nat
                ∧ b !! a = Some 0x7b
                ∧ str_in comments_key (take a b) = true).

(** A call that ends with an exception. *)
Definition raises {A} (o : outcome A) : Prop :=
  match o with Raise _ => True | Return _ => False end.

(** Values a [for] loop cannot run over: null, booleans and numbers. *)
Definition not_iterable (v : json) : Prop :=
  match v with
  | JNull | JBool _ | JInt _ | JFloat _ => True
  | _ => False
  end.

(** A decoded value that is no object. *)
Definition not_object (v : json) : Prop :=
  match v with JObj _ => False | _ => True end.

End StreamSpec.

(** ** Texts the further properties are tried on *)

Module FurtherExamples.
Import PyStr Json ThesisReview LlmService ServiceSpec.
Local Open Scope N_scope.

(** A numbered heading: the numeral one, an enumeration comma and the word
    for introduction. *)
Definition numbered_heading : pystr := [0x4e00; 0x3001; 0x7eea; 0x8bba].

(** The same heading as a line of a table of contents: a tab and a page
    number follow. *)
Definition toc_line : pystr := numbered_heading ++ [0x09] ++ lit "3".

(** Three paragraphs, the second one blank. *)
Definition with_blank : list paragraph :=
  [Paragraph 4 (lit "first"); Paragraph 5 (lit "  "); Paragraph 7 (lit "last")].

(** An answer that spells the field name with an escape, so that the text
    does not hold the quoted name. *)
Definition escaped_key_text : pystr :=
  lit "{" ++ [0x22] ++ lit "\u0063omments" ++ [0x22] ++ lit ": [{"
  ++ quoted "target_text" ++ lit ":" ++ quoted "a" ++ lit ","
  ++ quoted "comment" ++ lit ":" ++ quoted "b" ++ lit "}]}".

End FurtherExamples.

(** ** Names the normalization cannot empty *)

Module NameShape.
Import PyStr Re ThesisReview.




End NameShape.

Module ReachSpec.
Import PyStr Re ThesisReview.


End ReachSpec.

(** * Lemmas *)

Module RegexProofs.
Import PyStr Re.

(** [re_sub] has the fuel it needs: with more than one unit for each
    character the result does not depend on the fuel. *)
Lemma sub_from_fuel r : ∀ f1 f2 bos s,
  length s < f1 → length s < f2 →
  sub_from f1 r bos s = sub_from f2 r bos s.
Proof.
  induction f1 as [|f1 IH]; intros [|f2] bos s H1 H2; try lia.
  cbn [sub_from].
  assert (match s with
          | [] => []
          | c :: s' => c :: sub_from f1 r false s'
          end
          = match s with
            | [] => []
            | c :: s' => c :: sub_from f2 r false s'
            end) as Hkeep.
  { destruct s as [|c s']; [done|]. f_equal. apply IH; simpl in *; lia. }
  destruct (match_at r bos s) as [s'|]; [|done].
  destruct (length s' <? length s) eqn:Hlt; [|done].
  apply Nat.ltb_lt in Hlt. apply IH; lia.
Qed.

End RegexProofs.

Module DecoderProofs.
Import PyStr Re Json.

Lemma skip_ws_length s : length (skip_ws s) ≤ length s.
Proof.
  induction s as [|c s IH]; simpl; [done|].
  destruct (is_ws c); simpl; lia.
Qed.

Lemma after_length w : ∀ s r,
  after w s = Some r → length s = length w + length r.
Proof.
  induction w as [|x w IH]; intros [|y s] r; simpl; try done.
  - by intros [= <-].
  - by intros [= <-].
  - destruct (x =? y)%N; [|done]. intros H%IH. lia.
Qed.

Lemma span_digits_length s :
  length s = length (span_digits s).1 + length (span_digits s).2.
Proof.
  induction s as [|c s IH]; simpl; [done|].
  destruct (is_digit c); simpl; [|done].
  destruct (span_digits s). simpl in *. lia.
Qed.

Lemma scan_number_length neg s v r :
  scan_number neg s = Some (v, r) → length r < length s.
Proof.
  unfold scan_number.
  set (ip := match s with
             | [] => ([], [])
             | c :: s' => if (c =? 48)%N then ([c], s')
                          else if is_digit c then span_digits s else ([], s)
             end).
  assert (length s = length ip.1 + length ip.2) as Hip.
  { subst ip. destruct s as [|c s']; [done|].
    destruct (c =? 48)%N; [done|].
    destruct (is_digit c); [|done]. apply span_digits_length. }
  destruct ip as [int_part r0]. simpl in Hip.
  destruct int_part as [|d ds]; [done|]. cbn [truthy negb].
  set (fr := match r0 with
             | [] => ([], r0)
             | dot :: r' =>
                 if (dot =? 46)%N
                 then let '(d0, r'') := span_digits r' in
                      if truthy d0 then (dot :: d0, r'') else ([], r0)
                 else ([], r0)
             end).
  assert (length fr.2 ≤ length r0) as Hfr.
  { subst fr. destruct r0 as [|dot r']; [done|].
    destruct (dot =? 46)%N; [|done].
    pose proof (span_digits_length r') as H.
    destruct (span_digits r') as [d0 r'']. simpl in H.
    destruct (truthy d0); simpl; lia. }
  destruct fr as [frac r1]. simpl in Hfr.
  set (ex := match r1 with
             | [] => ([], r1)
             | e :: r' =>
                 if (e =? 101)%N || (e =? 69)%N
                 then let '(sign, r'') :=
                        match r' with
                        | [] => ([], r')
                        | sg :: r''' =>
                            if (sg =? 45)%N || (sg =? 43)%N
                            then ([sg], r''') else ([], r')
                        end in
                      let '(d0, r''') := span_digits r'' in
                      if truthy d0 then (e :: sign ++ d0, r''') else ([], r1)
                 else ([], r1)
             end).
  assert (length ex.2 ≤ length r1) as Hex.
  { subst ex. destruct r1 as [|e r']; [done|].
    destruct (_ || _); [|done].
    set (sg := match r' with
               | [] => ([], r')
               | sg :: r''' =>
                   if (sg =? 45)%N || (sg =? 43)%N
                   then ([sg], r''') else ([], r')
               end).
    assert (length sg.2 ≤ length r') as Hsg.
    { subst sg. destruct r' as [|x r''']; [done|].
      destruct (_ || _); simpl; lia. }
    destruct sg as [sign r'']. simpl in Hsg.
    pose proof (span_digits_length r'') as H.
    destruct (span_digits r'') as [d0 r''']. simpl in H.
    destruct (truthy d0); simpl; lia. }
  destruct ex as [expo r2]. simpl in Hex.
  destruct (_ || _); intros [= _ <-]; simpl in *; lia.
Qed.

Lemma scanstring_length : ∀ s t r,
  scanstring s = Some (t, r) → length r < length s.
Proof.
  intros s. remember (length s) as n eqn:Hn. revert s Hn.
  induction n as [n IH] using lt_wf_ind. intros s -> t r.
  assert (∀ s' t' r', length s' < length s →
            scanstring s' = Some (t', r') → length r' < length s') as IH'.
  { intros s' t' r' Hlt. by eapply IH. }
  clear IH.
  destruct s as [|c s1]; simpl; [done|].
  destruct (c =? 34)%N; [intros [= _ <-]; lia|].
  destruct (c =? 92)%N.
  - destruct s1 as [|e s2]; [done|].
    destruct (e =? 117)%N.
    + destruct s2 as [|a [|b [|c' [|d s3]]]]; try done.
      destruct (hex4 a b c' d) as [hi|]; [|done].
      assert (∀ s4 t' r', length s4 ≤ length s3 →
                scanstring s4 = Some (t', r') → length r' < length s4) as H4
        by (intros; eapply IH'; [simpl; lia|done]).
      remember (scanstring s3) as fb eqn:Hfb.
      assert (∀ t' r', fb = Some (t', r') → length r' < length s3) as Hfbk
        by (subst fb; intros; by eapply H4).
      clear Hfb IH'.
      repeat (match goal with
              | |- context [if ?b then _ else _] => destruct b
              | |- context [match ?l with [] => _ | _ :: _ => _ end] =>
                  is_var l; destruct l
              | |- context [match hex4 ?x ?y ?z ?w with _ => _ end] =>
                  destruct (hex4 x y z w)
              | |- context [match scanstring ?x with _ => _ end] =>
                  let E := fresh "E" in
                  destruct (scanstring x) as [[? ?]|] eqn:E;
                  [apply H4 in E; [|simpl in *; lia]|]
              | |- context [match ?f with Some _ => _ | None => _ end] =>
                  is_var f; destruct f as [[? ?]|];
                  [specialize (Hfbk _ _ eq_refl)|]
              end; simpl in *);
        try done; try (intros [= _ <-]; simpl in *; lia).
    + destruct (simple_escape e); [|done].
      destruct (scanstring s2) as [[t' r']|] eqn:E; [|done].
      intros [= _ <-]. apply IH' in E; simpl in *; lia.
  - destruct (c <=? 31)%N; [done|].
    destruct (scanstring s1) as [[t' r']|] eqn:E; [|done].
    intros [= _ <-]. apply IH' in E; simpl in *; lia.
Qed.

(** One case split of a decoding step, with what is known of the lengths. *)
Ltac note_skip x :=
  lazymatch x with
  | skip_ws ?y => pose proof (skip_ws_length y)
  | _ => idtac
  end.

Ltac decode_case :=
  match goal with
  | |- context [if ?b then _ else _] => destruct b
  | |- context [match skip_ws ?x with _ => _ end] =>
      pose proof (skip_ws_length x); destruct (skip_ws x) eqn:?
  | |- context [match scanstring ?x with _ => _ end] =>
      let E := fresh "E" in
      destruct (scanstring x) as [[? ?]|] eqn:E;
      [apply scanstring_length in E|]
  | |- context [match after ?w ?x with _ => _ end] =>
      let E := fresh "E" in
      destruct (after w x) eqn:E; [apply after_length in E|]
  | |- context [match scan_number ?b ?x with _ => _ end] =>
      let E := fresh "E" in
      destruct (scan_number b x) as [[? ?]|] eqn:E;
      [apply scan_number_length in E|]
  end.

(** The same for the recursive calls, given that they shorten the text
    ([H1], [H2], [H3]) and, in [decode_enough], that they have the fuel. *)
Ltac decode_call H1 H2 H3 tac :=
  match goal with
  | |- context [match scan_once ?f ?x with _ => _ end] =>
      let E := fresh "E" in
      note_skip x; destruct (scan_once f x) eqn:E;
      [apply H1 in E| |tac E]
  | |- context [match parse_items ?f ?x with _ => _ end] =>
      let E := fresh "E" in
      note_skip x; destruct (parse_items f x) eqn:E;
      [apply H2 in E| |tac E]
  | |- context [match parse_members ?f ?x with _ => _ end] =>
      let E := fresh "E" in
      note_skip x; destruct (parse_members f x) eqn:E;
      [apply H3 in E| |tac E]
  end.

Ltac decode_done :=
  try done; try (intros [= _ <-]; simpl in *; lia).

Lemma decode_shorter : ∀ fuel,
  (∀ s v r, scan_once fuel s = Parsed v r → length r < length s)
  ∧ (∀ s v r, parse_items fuel s = Parsed v r → length r < length s)
  ∧ (∀ s v r, parse_members fuel s = Parsed v r → length r < length s).
Proof.
  induction fuel as [|fuel (IH1 & IH2 & IH3)]; [done|].
  split_and!; intros s v r; cbn [scan_once parse_items parse_members].
  - destruct s as [|c s']; [done|].
    repeat (first [decode_case
                  |decode_call IH1 IH2 IH3 ltac:(fun E => idtac)];
            decode_done).
  - repeat (first [decode_case
                  |decode_call IH1 IH2 IH3 ltac:(fun E => idtac)];
            decode_done).
  - destruct s as [|q s']; [done|].
    repeat (first [decode_case
                  |decode_call IH1 IH2 IH3 ltac:(fun E => idtac)];
            decode_done).
Qed.

(** Two units of fuel for each character are enough. *)
Lemma decode_fuel : ∀ fuel,
  (∀ s, 2 * length s < fuel → scan_once fuel s ≠ Exhausted)
  ∧ (∀ s, 2 * length s + 1 < fuel → parse_items fuel s ≠ Exhausted)
  ∧ (∀ s, 2 * length s + 1 < fuel → parse_members fuel s ≠ Exhausted).
Proof.
  induction fuel as [|fuel (IH1 & IH2 & IH3)];
    [split_and!; intros; lia|].
  destruct (decode_shorter fuel) as (Hs1 & Hs2 & Hs3).
  assert (∀ s, scan_once fuel s = Exhausted → 2 * length s < fuel → False)
    as K1 by (intros ? E ?; by eapply IH1).
  assert (∀ s, parse_items fuel s = Exhausted → 2 * length s + 1 < fuel
               → False) as K2 by (intros ? E ?; by eapply IH2).
  assert (∀ s, parse_members fuel s = Exhausted → 2 * length s + 1 < fuel
               → False) as K3 by (intros ? E ?; by eapply IH3).
  split_and!; intros s Hlen; cbn [scan_once parse_items parse_members].
  - destruct s as [|c s']; [done|].
    repeat (first [decode_case
                  |decode_call Hs1 Hs2 Hs3
                     ltac:(fun E => exfalso;
                             first [apply K1 in E|apply K2 in E|apply K3 in E];
                             [done|simpl in *; lia])];
            try done).
  - repeat (first [decode_case
                  |decode_call Hs1 Hs2 Hs3
                     ltac:(fun E => exfalso;
                             first [apply K1 in E|apply K2 in E|apply K3 in E];
                             [done|simpl in *; lia])];
            try done).
  - destruct s as [|q s']; [done|].
    repeat (first [decode_case
                  |decode_call Hs1 Hs2 Hs3
                     ltac:(fun E => exfalso;
                             first [apply K1 in E|apply K2 in E|apply K3 in E];
                             [done|simpl in *; lia])];
            try done).
Qed.

(** [json_loads] never stops for want of fuel: [None] is a text the
    decoder rejects. *)
Lemma json_loads_fuel s :
  scan_once (S (2 * length s)) (skip_ws s) ≠ Exhausted.
Proof.
  apply decode_fuel. pose proof (skip_ws_length s). lia.
Qed.

End DecoderProofs.

Module SegmenterProofs.
Import PyStr Re ThesisReview SegmenterSpec.

Lemma increasing_weaken lo hi hi' bs :
  increasing lo hi bs → hi ≤ hi' → increasing lo hi' bs.
Proof.
  revert lo. induction bs as [|[[pos n] k] bs IH]; simpl; [done|].
  intros lo (? & ? & ?) ?. split_and!; [done|lia|]. by apply IH.
Qed.

Lemma increasing_snoc lo pos bs n k :
  increasing lo pos bs → lo ≤ pos →
  increasing lo (S pos) (bs ++ [(pos, n, k)]).
Proof.
  revert lo. induction bs as [|[[p n'] k'] bs IH]; simpl.
  - intros lo _ ?. split_and!; [done|lia|done].
  - intros lo (? & ? & ?) ?. split_and!; [done|lia|]. apply IH; [done|lia].
Qed.

Lemma scan_step_cases in_toc bs pos p :
  (∃ t, scan_step (in_toc, bs) pos p = (t, bs))
  ∨ (∃ t n k, scan_step (in_toc, bs) pos p = (t, bs ++ [(pos, n, k)])).
Proof.
  unfold scan_step.
  repeat (match goal with
          | |- context [if ?b then _ else _] => destruct b
          | |- context [match ?o with Some _ => _ | None => _ end] =>
              destruct o
          end; eauto).
Qed.

Lemma scan_increasing ps : ∀ pos st,
  increasing 0 pos st.2 →
  increasing 0 (pos + length ps) (scan pos ps st).2.
Proof.
  induction ps as [|p ps IH]; intros pos [t bs] Hinc;
    cbn [scan length]; simpl in Hinc.
  - by rewrite Nat.add_0_r.
  - replace (pos + S (length ps)) with (S pos + length ps) by lia.
    apply IH.
    destruct (scan_step_cases t bs pos p) as [[t' ->]|(t' & n & k & ->)]; simpl.
    + eapply increasing_weaken; [done|lia].
    + apply increasing_snoc; [done|lia].
Qed.

Lemma find_boundaries_increasing ps :
  increasing 0 (length ps) (find_boundaries ps).
Proof. apply (scan_increasing ps 0 (false, [])). done. Qed.

Lemma wf_section_nonempty s : wf_section s → paragraphs s ≠ [].
Proof. intros (f & l & Hh & _). by destruct (paragraphs s). Qed.

Lemma section_of_Some n k paras :
  paras ≠ [] →
  ∃ s, section_of n k paras = Some s ∧ wf_section s
       ∧ name s = n ∧ section_type s = k ∧ paragraphs s = paras.
Proof.
  intros Hne. unfold section_of.
  destruct (head paras) as [f|] eqn:Hh; [|by destruct paras].
  destruct (last paras) as [l|] eqn:Hl;
    [|by apply last_None in Hl].
  simpl. eexists. split; [done|]. split; [|done].
  exists f, l. done.
Qed.

Lemma truthy_true {A} (l : list A) : l ≠ [] → truthy l = true.
Proof. by destruct l. Qed.

Lemma slice_app_drop {A} (l : list A) a b :
  a ≤ b → b ≤ length l → slice l a b ++ drop b l = drop a l.
Proof.
  intros ??. unfold slice.
  rewrite <-(take_drop b l) at 3.
  rewrite drop_app_le; [done|]. rewrite length_take. lia.
Qed.

Lemma slice_nonempty {A} (l : list A) a b :
  a < b → b ≤ length l → slice l a b ≠ [].
Proof.
  intros ?? Hnil. apply (f_equal length) in Hnil.
  unfold slice in Hnil. rewrite length_drop, length_take in Hnil.
  simpl in Hnil. lia.
Qed.

(** The sections built from the boundaries tile the list from the first
    boundary on. *)
Lemma build_sections_tiles ps : ∀ bs lo,
  increasing lo (length ps) bs →
  ∃ secs, build_sections ps bs = Some secs
    ∧ Forall wf_section secs
    ∧ concat (paragraphs <$> secs)
      = match bs with
        | [] => []
        | (pos, _, _) :: _ => drop pos ps
        end.
Proof.
  induction bs as [|[[pos n] k] bs IH]; intros lo Hinc.
  - exists []. done.
  - destruct Hinc as (Hlo & Hhi & Hrest).
    destruct (IH _ Hrest) as (tl & Htl & Hwf & Hcat).
    set (end_pos := match bs with
                    | (next_pos, _, _) :: _ => next_pos
                    | [] => length ps
                    end).
    assert (pos < end_pos ∧ end_pos ≤ length ps) as [Hlt Hle].
    { subst end_pos. destruct bs as [|[[p' ?] ?] ?]; simpl in *; lia. }
    destruct (section_of_Some n k (slice ps pos end_pos))
      as (s & Hs & Hwfs & _ & _ & Hps); [by apply slice_nonempty|].
    exists (s :: tl). split_and!.
    + simpl. fold end_pos. rewrite Htl. simpl.
      rewrite truthy_true by (by apply slice_nonempty).
      rewrite Hs. done.
    + by constructor.
    + rewrite fmap_cons. cbn [concat]. rewrite Hps, Hcat.
      subst end_pos. destruct bs as [|[[p' ?] ?] ?].
      * rewrite app_nil_r. unfold slice. by rewrite firstn_all.
      * apply slice_app_drop; [lia|done].
Qed.

Lemma cover_section_tiles ps bs :
  increasing 0 (length ps) bs →
  ∃ secs, cover_section ps bs = Some secs
    ∧ Forall wf_section secs
    ∧ concat (paragraphs <$> secs)
      = match bs with
        | [] => []
        | (pos, _, _) :: _ => take pos ps
        end.
Proof.
  destruct bs as [|[[pos n] k] bs]; intros Hinc; simpl.
  - exists []. done.
  - destruct Hinc as (_ & Hhi & _).
    destruct pos as [|pos]; simpl.
    + exists []. done.
    + destruct (section_of_Some cover_name cover (slice ps 0 (S pos)))
        as (s & Hs & Hwfs & _ & _ & Hps); [apply slice_nonempty; lia|].
      exists [s]. split_and!.
      * rewrite truthy_true by (apply slice_nonempty; lia).
        fold (slice ps 0 (S pos)). rewrite Hs. done.
      * by constructor.
      * simpl. rewrite Hps, app_nil_r. done.
Qed.

Lemma merge_step_concat n merged sec :
  concat (paragraphs <$> merge_step n merged sec)
  = concat (paragraphs <$> merged) ++ paragraphs sec.
Proof.
  unfold merge_step. destruct (last merged) as [prev|] eqn:Hl.
  - apply last_Some in Hl as [l' ->].
    destruct (_ && _).
    + rewrite removelast_last. rewrite !fmap_app, !concat_app. simpl.
      rewrite !app_nil_r. by rewrite app_assoc.
    + rewrite fmap_app, concat_app. simpl. by rewrite app_nil_r.
  - rewrite fmap_app, concat_app. simpl. by rewrite app_nil_r.
Qed.

Lemma merge_step_wf n merged sec :
  Forall wf_section merged → wf_section sec →
  Forall wf_section (merge_step n merged sec).
Proof.
  intros Hm Hs. unfold merge_step.
  destruct (last merged) as [prev|] eqn:Hl.
  - apply last_Some in Hl as [l' ->].
    apply Forall_app in Hm as [Hl' Hprev].
    rewrite Forall_singleton in Hprev.
    destruct (_ && _).
    + rewrite removelast_last. apply Forall_app. split; [done|].
      apply Forall_singleton.
      destruct Hprev as (f1 & l1 & Hh1 & Hl1 & Hs1 & He1).
      destruct Hs as (f2 & l2 & Hh2 & Hl2 & Hs2 & He2).
      exists f1, l2. simpl. split_and!; [| |done|done].
      * destruct (paragraphs prev); [done|]. done.
      * apply last_Some in Hl2 as [q ->]. rewrite app_assoc.
        by rewrite last_snoc.
    + apply Forall_app. split; [|by apply Forall_singleton].
      apply Forall_app. split; [done|by apply Forall_singleton].
  - apply Forall_app. split; [done|by apply Forall_singleton].
Qed.

Lemma foldl_merge_step n l : ∀ acc,
  Forall wf_section acc → Forall wf_section l →
  Forall wf_section (foldl (merge_step n) acc l)
  ∧ concat (paragraphs <$> foldl (merge_step n) acc l)
    = concat (paragraphs <$> acc) ++ concat (paragraphs <$> l).
Proof.
  induction l as [|s l IH]; intros acc Hacc Hl; simpl.
  - by rewrite app_nil_r.
  - apply Forall_cons in Hl as [Hs Hl].
    destruct (IH (merge_step n acc s)) as [Hwf Hcat];
      [by apply merge_step_wf|done|].
    split; [done|]. rewrite Hcat, merge_step_concat. by rewrite app_assoc.
Qed.

Lemma merge_small_sections_spec l n :
  Forall wf_section l →
  Forall wf_section (_merge_small_sections l n)
  ∧ concat (paragraphs <$> _merge_small_sections l n)
    = concat (paragraphs <$> l).
Proof.
  intros Hl. unfold _merge_small_sections.
  destruct (_ <=? _)%nat; [done|].
  by apply (foldl_merge_step n l []).
Qed.

(** *** Fallback chunking *)

Lemma slice_app {A} (l : list A) a b c :
  a ≤ b → b ≤ c → slice l a b ++ slice l b c = slice l a c.
Proof.
  intros ??. unfold slice.
  destruct (decide (a ≤ length (take b l))) as [Hle|Hgt].
  - rewrite <-(take_drop b (take c l)) at 2.
    rewrite take_take, Nat.min_l by done.
    by rewrite drop_app_le.
  - rewrite length_take in Hgt.
    rewrite !drop_ge; [done|rewrite length_take; lia..].
Qed.

Lemma slice_take_drop {A} (l : list A) a m :
  slice l a (a + m) = take m (drop a l).
Proof. unfold slice. by rewrite take_drop_commute. Qed.

Lemma fallback_from ps m (Hm : 0 < m) : ∀ n i,
  (∀ k, k < n → i + m * k < length ps) →
  ∃ chunks,
    mapM (fun i => section_of (chunk_name (i / m + 1)) chapter
                     (slice ps i (i + m)))
         (range_from n i m) = Some chunks
    ∧ length chunks = n
    ∧ Forall wf_section chunks
    ∧ concat (paragraphs <$> chunks) = slice ps i (i + m * n)
    ∧ ∀ k s, chunks !! k = Some s →
        name s = chunk_name ((i + m * k) / m + 1)
        ∧ section_type s = chapter
        ∧ paragraphs s = slice ps (i + m * k) (i + m * k + m).
Proof.
  induction n as [|n IH]; intros i Hin.
  - exists []. split_and!; try done.
    simpl. rewrite Nat.mul_0_r, Nat.add_0_r. unfold slice.
    rewrite drop_ge; [done|]. rewrite length_take. lia.
  - destruct (IH (i + m)) as (tl & Htl & Hlen & Hwf & Hcat & Hk).
    { intros k Hlt. specialize (Hin (S k)). lia. }
    destruct (section_of_Some (chunk_name (i / m + 1)) chapter
                (slice ps i (i + m)))
      as (s & Hs & Hwfs & Hname & Hkind & Hps).
    { rewrite slice_take_drop. intros Hnil.
      apply (f_equal length) in Hnil.
      rewrite length_take, length_drop in Hnil. simpl in Hnil.
      specialize (Hin 0). lia. }
    exists (s :: tl). split_and!.
    + cbn [range_from mapM]. rewrite Hs. simpl. rewrite Htl. done.
    + simpl. by rewrite Hlen.
    + by constructor.
    + rewrite fmap_cons. cbn [concat]. rewrite Hps, Hcat.
      replace (i + m * S n) with (i + m + m * n) by lia.
      apply slice_app; lia.
    + intros [|k] t Ht; simpl in Ht.
      * injection Ht as <-. rewrite Nat.mul_0_r, Nat.add_0_r. done.
      * replace (i + m * S k) with (i + m + m * k) by lia. by apply Hk.
Qed.

Lemma range_count len m :
  0 < m → 0 < len →
  let n := (len - 0 + (m - 1)) / m in
  (∀ k, k < n → m * k < len) ∧ len ≤ m * n.
Proof.
  intros Hm Hlen n.
  pose proof (Nat.div_mod_eq (len - 0 + (m - 1)) m) as Hdm.
  pose proof (Nat.mod_upper_bound (len - 0 + (m - 1)) m) as Hub.
  fold n in Hdm. split; [intros k Hk|]; nia.
Qed.

Lemma fallback_chunking_spec ps m :
  0 < m → ps ≠ [] →
  ∃ chunks, _fallback_chunking ps m = Some chunks
    ∧ Forall wf_section chunks
    ∧ concat (paragraphs <$> chunks) = ps
    ∧ ∀ k s, chunks !! k = Some s →
        name s = chunk_name (k + 1)
        ∧ section_type s = chapter
        ∧ paragraphs s = take m (drop (m * k) ps)
        ∧ (S k < length chunks → length (paragraphs s) = m).
Proof.
  intros Hm Hne.
  assert (0 < length ps) as Hlen by (destruct ps; [done|simpl; lia]).
  destruct (range_count (length ps) m Hm Hlen) as [Hlt Hge].
  destruct (fallback_from ps m Hm _ 0 Hlt)
    as (chunks & Hsome & Hn & Hwf & Hcat & Hk).
  exists chunks. split_and!; [done|done| |].
  - rewrite Hcat. unfold slice. simpl.
    rewrite take_ge; [done|]. lia.
  - intros k s Hks. destruct (Hk k s Hks) as (Hname & Hkind & Hps).
    simpl in Hname, Hps.
    rewrite Nat.mul_comm, Nat.div_mul in Hname by lia.
    rewrite slice_take_drop in Hps.
    split_and!; [done|done|done|].
    intros Hnext. rewrite Hps, length_take, length_drop.
    rewrite Hn in Hnext. specialize (Hlt (S k) Hnext). lia.
Qed.

(** *** Deduplication *)

Lemma keep_from_sublist remove l : ∀ idx, sublist (keep_from idx remove l) l.
Proof.
  induction l as [|s l IH]; intros idx; simpl; [constructor|].
  destruct (decide _); by constructor.
Qed.

Lemma deduplicate_sublist l : sublist (_deduplicate_sections l) l.
Proof.
  unfold _deduplicate_sections. destruct (_ <=? _)%nat; [done|].
  apply keep_from_sublist.
Qed.

(** *** The shape of every result *)

Lemma detect_sections_shape ps :
  ∃ res pre,
    detect_sections ps = Some res
    ∧ Forall wf_section pre
    ∧ concat (paragraphs <$> pre) = ps
    ∧ (res = pre ∨ res = _deduplicate_sections pre).
Proof.
  unfold detect_sections. destruct ps as [|p ps].
  { exists [], []. simpl. auto. }
  set (ps' := p :: ps). cbn [truthy negb].
  destruct (find_boundaries ps') as [|b bs] eqn:Hb; cbn [truthy negb].
  - destruct (fallback_chunking_spec ps' 30) as (chunks & -> & Hwf & Hcat & _);
      [lia|done|].
    exists chunks, chunks. auto.
  - pose proof (find_boundaries_increasing ps') as Hinc. rewrite Hb in Hinc.
    destruct (cover_section_tiles ps' _ Hinc) as (front & -> & Hwf1 & Hc1).
    destruct (build_sections_tiles ps' _ _ Hinc) as (body & -> & Hwf2 & Hc2).
    cbn [mbind option_bind].
    destruct (merge_small_sections_spec (front ++ body) 3) as [Hwf Hcat].
    { apply Forall_app. done. }
    eexists _, _. split; [done|]. split; [exact Hwf|]. split; [|by right].
    rewrite Hcat, fmap_app, concat_app, Hc1, Hc2.
    destruct b as [[pos ?] ?]. apply take_drop.
Qed.

(** *** What the deduplication pass keeps *)

Lemma elem_of_positions_of k l : ∀ idx i,
  i ∈ positions_of k idx l
  ↔ idx ≤ i ∧ ∃ s, l !! (i - idx) = Some s
                   ∧ _normalize_section_name (name s) = k.
Proof.
  induction l as [|s l IH]; intros idx i; simpl.
  - split; [by intros ?%elem_of_nil|]. by intros (_ & ? & ? & _).
  - case_bool_decide as Hk.
    + rewrite elem_of_cons, IH. split.
      * intros [->|(Hle & t & Ht & Hn)].
        -- split; [done|]. exists s. by rewrite Nat.sub_diag.
        -- split; [lia|]. exists t. split; [|done].
           replace (i - idx) with (S (i - S idx)) by lia. done.
      * intros (Hle & t & Ht & Hn).
        destruct (decide (i = idx)) as [|Hne]; [by left|right].
        split; [lia|]. exists t. split; [|done].
        replace (i - idx) with (S (i - S idx)) in Ht by lia. done.
    + rewrite IH. split.
      * intros (Hle & t & Ht & Hn). split; [lia|]. exists t. split; [|done].
        replace (i - idx) with (S (i - S idx)) by lia. done.
      * intros (Hle & t & Ht & Hn).
        destruct (decide (i = idx)) as [->|Hne].
        { rewrite Nat.sub_diag in Ht. simpl in Ht. congruence. }
        split; [lia|]. exists t. split; [|done].
        replace (i - idx) with (S (i - S idx)) in Ht by lia. done.
Qed.

Lemma positions_of_sorted k l : ∀ idx,
  StronglySorted lt (positions_of k idx l).
Proof.
  induction l as [|s l IH]; intros idx; simpl; [constructor|].
  case_bool_decide; [|done]. constructor; [done|].
  apply Forall_forall. intros j Hj%elem_of_positions_of. lia.
Qed.

Lemma group_names_lookup k (Hk : k ≠ []) l : ∀ idx g,
  group_names idx l g !! k
  = match positions_of k idx l with
    | [] => g !! k
    | new => Some (default [] (g !! k) ++ new)
    end.
Proof.
  induction l as [|s l IH]; intros idx g; simpl; [done|].
  rewrite IH. clear IH.
  destruct (_normalize_section_name (name s)) as [|c w] eqn:Hn;
    cbn [truthy].
  - rewrite bool_decide_eq_false_2 by done. done.
  - case_bool_decide as Heq.
    + subst k. rewrite lookup_insert_eq. simpl.
      destruct (positions_of _ _ _); [done|].
      by rewrite <-app_assoc.
    + rewrite lookup_insert_ne by done. done.
Qed.

Lemma group_names_lookup_nil l : ∀ idx g,
  group_names idx l g !! [] = g !! ([] : pystr).
Proof.
  induction l as [|s l IH]; intros idx g; simpl; [done|].
  rewrite IH. destruct (_normalize_section_name (name s)) eqn:Hn;
    cbn [truthy]; [done|].
  by rewrite lookup_insert_ne.
Qed.

Lemma group_names_groups l k v :
  group_names 0 l ∅ !! k = Some v → k ≠ [] ∧ v = positions_of k 0 l ∧ v ≠ [].
Proof.
  destruct (decide (k = [])) as [->|Hk].
  - rewrite group_names_lookup_nil, lookup_empty. done.
  - rewrite group_names_lookup by done. rewrite lookup_empty. simpl.
    destruct (positions_of k 0 l); [done|]. intros [= <-]. done.
Qed.

Lemma max_by_spec key : ∀ l b0,
  StronglySorted lt (b0 :: l) →
  (max_by key b0 l = b0 ∨ max_by key b0 l ∈ l)
  ∧ key b0 ≤ key (max_by key b0 l)
  ∧ (key b0 = key (max_by key b0 l) → max_by key b0 l = b0)
  ∧ ∀ j, j ∈ l →
      key j < key (max_by key b0 l)
      ∨ (key j = key (max_by key b0 l) ∧ max_by key b0 l ≤ j).
Proof.
  induction l as [|i l IH]; intros b0 Hs; simpl.
  - split_and!; [by left|done|done|]. by intros j ?%elem_of_nil.
  - apply StronglySorted_inv in Hs as [Hs Hb0].
    apply Forall_cons in Hb0 as [Hi Hb0].
    destruct (key b0 <? key i) eqn:Hlt.
    + apply Nat.ltb_lt in Hlt.
      destruct (IH i Hs) as (Hin & Hle & Heq & Hall).
      split_and!.
      * right. rewrite elem_of_cons. destruct Hin; auto.
      * lia.
      * lia.
      * intros j [->|Hj]%elem_of_cons; [|by apply Hall].
        destruct (decide (key i = key (max_by key i l))) as [E|E].
        -- right. rewrite (Heq E). done.
        -- left. lia.
    + apply Nat.ltb_ge in Hlt.
      apply StronglySorted_inv in Hs as [Hs Hil].
      destruct (IH b0) as (Hin & Hle & Heq & Hall).
      { constructor; done. }
      split_and!.
      * rewrite elem_of_cons. destruct Hin; auto.
      * done.
      * done.
      * intros j [->|Hj]%elem_of_cons; [|by apply Hall].
        destruct (decide (key i = key (max_by key b0 l))) as [E|E].
        -- right. split; [done|]. rewrite Heq by lia. lia.
        -- left. lia.
Qed.

Lemma best_of_spec sections v :
  v ≠ [] → StronglySorted lt v →
  best_of sections v ∈ v
  ∧ ∀ j, j ∈ v →
      para_count sections j < para_count sections (best_of sections v)
      ∨ (para_count sections j = para_count sections (best_of sections v)
         ∧ best_of sections v ≤ j).
Proof.
  destruct v as [|i0 rest]; [done|]. intros _ Hs. simpl.
  destruct (max_by_spec (para_count sections) rest i0 Hs)
    as (Hin & Hle & Heq & Hall).
  split.
  - rewrite elem_of_cons. destruct Hin; auto.
  - intros j [->|Hj]%elem_of_cons; [|by apply Hall].
    destruct (decide (para_count sections i0
                      = para_count sections (max_by (para_count sections) i0 rest)))
      as [E|E].
    + right. rewrite (Heq E). done.
    + left. lia.
Qed.

Lemma elem_of_group_removals sections v i :
  i ∈ group_removals sections v
  ↔ 1 < length v ∧ i ∈ v ∧ i ≠ best_of sections v.
Proof.
  unfold group_removals. destruct v as [|i0 rest].
  { split; [by intros ?%elem_of_empty|]. simpl. lia. }
  destruct (length (i0 :: rest) <=? 1) eqn:Hlen.
  - apply Nat.leb_le in Hlen.
    split; [by intros ?%elem_of_empty|]. lia.
  - apply Nat.leb_gt in Hlen.
    rewrite elem_of_list_to_set, list_elem_of_filter. simpl.
    split; [intros [? ?]|intros (? & ? & ?)]; split_and!; done || lia.
Qed.

Lemma elem_of_remove_indices (sections : list Section)
    (g : gmap pystr (list nat)) (i : nat) :
  i ∈ remove_indices sections g
  ↔ ∃ k v, g !! k = Some v ∧ i ∈ group_removals sections v.
Proof.
  unfold remove_indices. rewrite elem_of_union_list. split.
  - intros (X & HX & Hi). apply list_elem_of_fmap in HX as ([k v] & -> & Hkv).
    apply elem_of_map_to_list in Hkv. by exists k, v.
  - intros (k & v & Hkv & Hi). exists (group_removals sections v).
    split; [|done]. apply list_elem_of_fmap. exists (k, v).
    split; [done|]. by apply elem_of_map_to_list.
Qed.

Lemma norm_at_positions sections k j :
  k ≠ [] →
  j ∈ positions_of k 0 sections ↔ j < length sections ∧ norm_at sections j = k.
Proof.
  intros Hk. rewrite elem_of_positions_of, Nat.sub_0_r. unfold norm_at. split.
  - intros (_ & s & Hs & Hn). split; [by eapply lookup_lt_Some|].
    by rewrite Hs.
  - intros [Hlt Hn]. split; [lia|].
    destruct (lookup_lt_is_Some_2 sections j Hlt) as [s Hs].
    exists s. rewrite Hs in Hn. done.
Qed.

Lemma removed_iff_not_survives sections i :
  i < length sections →
  i ∈ remove_indices sections (group_names 0 sections ∅)
  ↔ ¬ survives sections i.
Proof.
  intros Hi. rewrite elem_of_remove_indices. split.
  - intros (k & v & Hkv & Hrem) Hsurv.
    apply group_names_groups in Hkv as (Hk & -> & Hne).
    apply elem_of_group_removals in Hrem as (Hlen & Hin & Hbest).
    pose proof (positions_of_sorted k sections 0) as Hsorted.
    destruct (best_of_spec sections _ Hne Hsorted) as [Hbin Hball].
    apply norm_at_positions in Hin as [_ Hni]; [|done].
    apply norm_at_positions in Hbin as Hb; [|done]. destruct Hb as [Hblt Hnb].
    destruct Hsurv as [Hnil|Hall]; [congruence|].
    specialize (Hall _ Hblt). rewrite Hnb, Hni in Hall.
    specialize (Hall eq_refl).
    assert (i ∈ positions_of k 0 sections) as Hin'
      by (by apply norm_at_positions).
    specialize (Hball _ Hin'). lia.
  - intros Hns.
    destruct (decide (norm_at sections i = [])) as [Hnil|Hk].
    { exfalso. apply Hns. by left. }
    set (k := norm_at sections i) in *.
    assert (i ∈ positions_of k 0 sections) as Hin
      by (by apply norm_at_positions).
    pose proof (positions_of_sorted k sections 0) as Hsorted.
    assert (positions_of k 0 sections ≠ []) as Hne
      by (intros E; rewrite E in Hin; by apply elem_of_nil in Hin).
    destruct (best_of_spec sections _ Hne Hsorted) as [Hbin Hball].
    exists k, (positions_of k 0 sections). split.
    { rewrite group_names_lookup by done. rewrite lookup_empty. simpl.
      by destruct (positions_of k 0 sections). }
    apply elem_of_group_removals.
    destruct (decide (i = best_of sections (positions_of k 0 sections)))
      as [Hib|Hib].
    + exfalso. apply Hns. right. intros j Hj Hnj.
      assert (j ∈ positions_of k 0 sections) as Hjin
        by (by apply norm_at_positions).
      specialize (Hball _ Hjin). rewrite <-Hib in Hball. done.
    + split_and!; [|done|done].
      destruct (positions_of k 0 sections) as [|a [|b r]] eqn:E;
        [done| |simpl; lia].
      simpl in Hib. apply list_elem_of_singleton in Hin. congruence.
Qed.

Lemma keep_from_keep_where remove keep l : ∀ idx,
  (∀ i, idx ≤ i → i < idx + length l → i ∈ remove ↔ keep i = false) →
  keep_from idx remove l = keep_where keep idx l.
Proof.
  induction l as [|s l IH]; intros idx H; simpl; [done|].
  rewrite IH by (intros i ??; apply H; simpl; lia).
  specialize (H idx). simpl in H.
  destruct (decide (idx ∈ remove)) as [Hin|Hout], (keep idx) eqn:Hk;
    try done.
  - apply H in Hin; [congruence|lia..].
  - exfalso. apply Hout, H; [lia..|done].
Qed.

Lemma deduplicate_keeps l :
  ∃ keep, _deduplicate_sections l = keep_where keep 0 l
    ∧ ∀ i, i < length l → keep i = true ↔ survives l i.
Proof.
  unfold _deduplicate_sections. destruct (length l <=? 1) eqn:Hlen.
  - apply Nat.leb_le in Hlen. exists (fun _ => true). split.
    + clear Hlen. generalize 0. induction l as [|s l IH]; intros n; simpl;
        [done|by rewrite <-IH].
    + intros i Hi. split; [intros _|done]. right. intros j Hj _.
      right. replace j with i by lia. done.
  - exists (fun i =>
      bool_decide (i ∉ remove_indices l (group_names 0 l ∅))).
    split.
    + apply keep_from_keep_where. intros i _ Hi.
      rewrite bool_decide_eq_false. split; [tauto|].
      intros H.
      by destruct (decide (i ∈ remove_indices l (group_names 0 l ∅))).
    + intros i Hi. rewrite bool_decide_eq_true.
      rewrite removed_iff_not_survives by done. split; [|tauto].
      intros Hnn.
      destruct (decide (i ∈ remove_indices l (group_names 0 l ∅)))
        as [Hin|Hout].
      * apply removed_iff_not_survives in Hin; [|done]. tauto.
      * destruct (decide (norm_at l i = [])) as [?|Hk]; [by left|].
        right. intros j Hj Hnj.
        destruct (decide (para_count l j < para_count l i)) as [?|Hge];
          [by left|].
        destruct (decide (para_count l j = para_count l i ∧ i ≤ j))
          as [?|Hno]; [by right|].
        exfalso. apply Hout. apply removed_iff_not_survives; [done|].
        intros [?|Hall]; [done|]. specialize (Hall j Hj Hnj). tauto.
Qed.

Lemma sublist_concat_fmap {A B} (f : A → list B) l1 l2 :
  sublist l1 l2 → sublist (concat (f <$> l1)) (concat (f <$> l2)).
Proof.
  induction 1 as [|x l1 l2 _ IH|x l1 l2 _ IH]; simpl.
  - constructor.
  - by apply sublist_app.
  - by apply sublist_inserts_l.
Qed.

Lemma sublist_of_member {A B} (f : A → list B) l x :
  x ∈ l → sublist (f x) (concat (f <$> l)).
Proof.
  induction 1 as [x l|x y l _ IH]; simpl.
  - by apply sublist_inserts_r.
  - by apply sublist_inserts_l.
Qed.

Lemma sublist_member {A} (l1 l2 : list A) x :
  sublist l1 l2 → x ∈ l1 → x ∈ l2.
Proof.
  induction 1 as [|y l1 l2 _ IH|y l1 l2 _ IH]; [done| |].
  - intros [->|?]%elem_of_cons; [left|right; auto].
  - intros ?. right. auto.
Qed.

Lemma sublist_Forall_2 {A} (P : A → Prop) (l1 l2 : list A) :
  sublist l1 l2 → Forall P l2 → Forall P l1.
Proof.
  intros Hsub. rewrite !Forall_forall. intros H x Hx.
  apply H. by eapply sublist_member.
Qed.

Lemma sublist_StronglySorted {A} (R : relation A) (l1 l2 : list A) :
  sublist l1 l2 → StronglySorted R l2 → StronglySorted R l1.
Proof.
  induction 1 as [|x l1 l2 Hsub IH|x l1 l2 Hsub IH]; [done| |].
  - rewrite !StronglySorted_cons. intros [Hall Hs]. split; [|auto].
    by eapply sublist_Forall_2.
  - rewrite StronglySorted_cons. intros [_ Hs]. auto.
Qed.

(** In a section built by the program, the bounds are in order as soon as
    the indices of its paragraphs are. *)
Lemma wf_section_bounds s :
  wf_section s → StronglySorted Z.le (index <$> paragraphs s) →
  (start_para_idx s ≤ end_para_idx s)%Z.
Proof.
  intros (f & l & Hh & Hl & -> & ->) Hs.
  destruct (paragraphs s) as [|p ps]; [done|].
  injection Hh as ->. rewrite fmap_cons in Hs.
  apply StronglySorted_cons in Hs as [Hall _].
  apply last_Some_elem_of in Hl. apply elem_of_cons in Hl as [->|Hin]; [done|].
  rewrite Forall_forall in Hall. apply Hall.
  apply list_elem_of_fmap. by exists l.
Qed.

End SegmenterProofs.

Module HeadingProofs.
Import PyStr Re ThesisReview SegmenterSpec.
Local Open Scope N_scope.




Lemma agree_after_prefix pre post t :
  Forall (fun pk => pk.2 ≠ chapter) pre →
  match_patterns post t = match_patterns_continuing post t →
  match_patterns (pre ++ post) t = match_patterns_continuing (pre ++ post) t.
Proof.
  intros Hpre Hpost. induction Hpre as [|[p k] pre Hk _ IH]; simpl; [done|].
  destruct (re_match p t); [|done].
  by rewrite bool_decide_eq_false_2.
Qed.



End HeadingProofs.

Module ExtractorProofs.
Import PyStr Json ThesisReview LlmService ServiceSpec.
Local Open Scope N_scope.

Section Scan.
Context (lax_int : json -> option Z).

Lemma scan_char_app b more i st :
  (i < length b)%nat →
  scan_char lax_int (b ++ more) i st = scan_char lax_int b i st.
Proof.
  intros Hi. unfold scan_char, slice.
  rewrite lookup_app_l by done.
  rewrite !(take_app_le b more) by lia. done.
Qed.

Lemma scan_range_app b more : ∀ n i st,
  (i + n ≤ length b)%nat →
  scan_range lax_int n (b ++ more) i st = scan_range lax_int n b i st.
Proof.
  induction n as [|n IH]; intros i st Hi; simpl; [done|].
  rewrite scan_char_app by lia.
  destruct (scan_char lax_int b i st) as [st1 out1].
  rewrite IH by lia. done.
Qed.

Lemma scan_range_split b : ∀ n m i st,
  scan_range lax_int (n + m) b i st
  = let '(st1, out1) := scan_range lax_int n b i st in
    let '(st2, out2) := scan_range lax_int m b (i + n) st1 in
    (st2, out1 ++ out2).
Proof.
  induction n as [|n IH]; intros m i st; simpl.
  - rewrite Nat.add_0_r. by destruct (scan_range lax_int m b i st).
  - destruct (scan_char lax_int b i st) as [st1 out1].
    rewrite IH. replace (i + S n)%nat with (S i + n)%nat by lia.
    destruct (scan_range lax_int n b (S i) st1) as [st2 out2].
    destruct (scan_range lax_int m b (S i + n) st2) as [st3 out3].
    by rewrite app_assoc.
Qed.

Lemma scan_char_texts b i st : texts_of (scan_char lax_int b i st).2 = [].
Proof.
  unfold scan_char.
  repeat (match goal with
          | |- context [match ?o with Some _ => _ | None => _ end] =>
              destruct o
          | |- context [if ?c then _ else _] => destruct c
          end; try done).
Qed.

Lemma texts_of_app a b : texts_of (a ++ b) = texts_of a ++ texts_of b.
Proof. apply omap_app. Qed.

Lemma comments_of_app a b :
  comments_of (a ++ b) = comments_of a ++ comments_of b.
Proof. apply omap_app. Qed.

Lemma scan_range_texts b : ∀ n i st,
  texts_of (scan_range lax_int n b i st).2 = [].
Proof.
  induction n as [|n IH]; intros i st; simpl; [done|].
  pose proof (scan_char_texts b i st) as H1.
  destruct (scan_char lax_int b i st) as [st1 out1].
  pose proof (IH (S i) st1) as H2.
  destruct (scan_range lax_int n b (S i) st1) as [st2 out2].
  simpl in *. by rewrite texts_of_app, H1, H2.
Qed.

(** Draining a stream of fragments scans the text they add up to, one
    character after the other, whatever the fragments are. *)
Lemma drain_fragments : ∀ frags buffer st,
  ∃ out,
    drain lax_int (stream_of frags) buffer st
    = (buffer ++ concat frags,
       (scan_range lax_int (length (concat frags)) (buffer ++ concat frags)
          (length buffer) st).1,
       out, None)
    ∧ comments_of out
      = comments_of
          (scan_range lax_int (length (concat frags)) (buffer ++ concat frags)
             (length buffer) st).2
    ∧ texts_of out = filter (fun f => f ≠ []) frags.
Proof.
  induction frags as [|f frags IH]; intros buffer st.
  - exists []. simpl. rewrite app_nil_r. done.
  - cbn [stream_of fmap list_fmap drain concat].
    destruct f as [|c w].
    + destruct (IH buffer st) as (out & Hd & Hc & Ht).
      fold (stream_of frags). rewrite Hd. exists out.
      rewrite filter_cons_False by (intros H; by apply H). done.
    + set (f := c :: w). unfold feed.
      replace (length (buffer ++ f) - length f)%nat with (length buffer)
        by (rewrite length_app; lia).
      replace (length (buffer ++ f) - length buffer)%nat with (length f)
        by (rewrite length_app; lia).
      destruct (scan_range lax_int (length f) (buffer ++ f) (length buffer) st)
        as [st1 out1] eqn:H1.
      destruct (IH (buffer ++ f) st1) as (out & Hd & Hc & Ht).
      fold (stream_of frags). rewrite Hd.
      exists (Text f :: out1 ++ out).
      rewrite (length_app buffer f) in Hc.
      rewrite (length_app f (concat frags)), scan_range_split.
      rewrite (app_assoc buffer f (concat frags)) in *.
      rewrite (scan_range_app (buffer ++ f) (concat frags) (length f)
                 (length buffer) st) by (rewrite length_app; lia).
      rewrite H1, (length_app buffer f).
      destruct (scan_range lax_int (length (concat frags))
                  ((buffer ++ f) ++ concat frags)
                  (length buffer + length f) st1) as [st2 out2] eqn:H2.
      simpl in Hc. cbn [fst snd].
      split_and!.
      * done.
      * unfold comments_of in *. cbn [omap list_omap].
        rewrite !omap_app. by rewrite Hc.
      * pose proof (scan_range_texts (buffer ++ f) (length f)
                      (length buffer) st) as Ht1. rewrite H1 in Ht1. simpl in Ht1.
        rewrite filter_cons_True by done.
        unfold texts_of in *. cbn [omap list_omap].
        rewrite omap_app, Ht1, Ht. done.
Qed.

(** When the scan of the whole text emits a record, so does the stream of
    any fragments that add up to the text, and the same ones. *)
Lemma stream_refragmented frags text :
  concat frags = text →
  emitted_count (scan_range lax_int (length text) text 0 scan_init).1
  ≠ 0%nat →
  ∃ out,
    _stream_single_batch lax_int (deliver frags) = mkRun out None
    ∧ comments_of out
      = comments_of (scan_range lax_int (length text) text 0 scan_init).2
    ∧ texts_of out = filter (fun f => f ≠ []) frags.
Proof.
  intros Hcat Hemit. unfold _stream_single_batch, deliver. simpl.
  destruct (drain_fragments frags [] scan_init) as (out & Hd & Hc & Ht).
  simpl in Hd, Hc. rewrite Hcat in Hd, Hc. rewrite Hd.
  apply Nat.eqb_neq in Hemit. rewrite Hemit. by exists out.
Qed.

End Scan.

Lemma validate_str_Some v s : validate_str v = Some s ↔ v = JStr s.
Proof. destruct v; cbn; split; intros; simplify_eq; done. Qed.

Lemma new_ReviewComment_Some lax_int a b c d r :
  new_ReviewComment lax_int a b c d = Some r
  ↔ validate_int lax_int a = Some (paragraph_index r)
    ∧ b = JStr (target_text r) ∧ c = JStr (comment r)
    ∧ d = JStr (severity r).
Proof.
  unfold new_ReviewComment. rewrite <-!validate_str_Some.
  destruct r as [pi tt cm sv]; cbn.
  destruct (validate_int lax_int a), (validate_str b), (validate_str c),
    (validate_str d); cbn; split; intros; destruct_and?; simplify_eq; done.
Qed.

End ExtractorProofs.

Module OrchestratorProofs.
Import PyStr Json ThesisReview LlmService SegmenterSpec ServiceSpec.

Section Orchestrator.
Context (lax_int : json -> option Z).
Context {messages : Type}.
Context (build_section_review_messages :
           Section -> pystr -> nat -> nat -> messages).
Context (provider : nat -> messages -> response).
Context (dump_error : ReviewComment -> option pystr).

Lemma events_app (a b : list (@action messages)) :
  events (a ++ b) = events a ++ events b.
Proof. apply omap_app. Qed.

Lemma events_yield (out : list sse) :
  events ((Yield <$> out) : list (@action messages)) = out.
Proof.
  induction out as [|e out IH]; [done|]. rewrite fmap_cons.
  change (events (Yield ?x :: ?tr)) with (x :: events tr). by rewrite IH.
Qed.

Lemma forward_all_forwarded evs :
  Forall forwarded (forward_all dump_error evs).1.
Proof.
  induction evs as [|[data|data] evs IH]; cbn; [constructor| |].
  - destruct (forward_all dump_error evs). by constructor.
  - destruct (dump_error data); [constructor|].
    destruct (forward_all dump_error evs). by constructor.
Qed.

Lemma batch_events_forwarded r :
  Forall forwarded (batch_events dump_error r).1.
Proof.
  unfold batch_events. pose proof (forward_all_forwarded (yielded r)) as H.
  by destruct (forward_all dump_error (yielded r)).
Qed.

(** A batch whose stream ended by raising fails. *)
Lemma batch_events_raised r e :
  raised r = Some e → is_Some (batch_events dump_error r).2.
Proof.
  unfold batch_events. intros ->.
  destruct (forward_all dump_error (yielded r)) as [out [x|]]; by eexists.
Qed.

Lemma forwarded_not_done out : Forall forwarded out → filter is_done out = [].
Proof.
  induction 1 as [|e out He _ IH]; [done|].
  rewrite filter_cons_False by (destruct e; cbn in He |- *; tauto). done.
Qed.

Lemma forwarded_not_error out :
  Forall forwarded out → filter is_error out = [].
Proof.
  induction 1 as [|e out He _ IH]; [done|].
  rewrite filter_cons_False by (destruct e; cbn in He |- *; tauto). done.
Qed.

Lemma events_review_section outline total idx section :
  events (review_section lax_int build_section_review_messages provider
            dump_error outline total idx section)
  = section_events lax_int build_section_review_messages provider
      dump_error outline total idx section.
Proof.
  unfold review_section, section_events, batch_outcome, batch_run.
  destruct (batch_events dump_error _) as [out failure]. cbn [app fst snd].
  change (events (Yield ?e :: Assemble ?s :: Request ?m :: ?tr))
    with (e :: events tr).
  rewrite events_app, events_yield. f_equal. f_equal.
  by destruct failure.
Qed.

Lemma events_review_sections outline total : ∀ sections idx,
  events (review_sections lax_int build_section_review_messages provider
            dump_error outline total idx sections)
  = sections_events lax_int build_section_review_messages provider
      dump_error outline total idx sections.
Proof.
  induction sections as [|s l IH]; intros idx; [done|].
  cbn [review_sections sections_events].
  by rewrite events_app, events_review_section, IH.
Qed.

Lemma section_events_no_done outline total idx section :
  filter is_done
    (section_events lax_int build_section_review_messages provider
       dump_error outline total idx section) = [].
Proof.
  unfold section_events, batch_outcome.
  rewrite filter_cons_False by (intros []).
  rewrite filter_app, forwarded_not_done by apply batch_events_forwarded.
  by destruct (batch_events dump_error _).2.
Qed.

Lemma sections_events_no_done outline total : ∀ sections idx,
  filter is_done
    (sections_events lax_int build_section_review_messages provider
       dump_error outline total idx sections) = [].
Proof.
  induction sections as [|s l IH]; intros idx; [done|].
  cbn [sections_events]. by rewrite filter_app, section_events_no_done, IH.
Qed.

Lemma section_events_errors outline total idx section :
  filter is_error
    (section_events lax_int build_section_review_messages provider
       dump_error outline total idx section)
  = match (batch_outcome lax_int build_section_review_messages provider
             dump_error outline total idx section).2 with
    | Some e => [error_sse (error_message section e)]
    | None => []
    end.
Proof.
  unfold section_events, batch_outcome.
  rewrite filter_cons_False by (intros []).
  rewrite filter_app, forwarded_not_error by apply batch_events_forwarded.
  by destruct (batch_events dump_error _).2.
Qed.

Lemma assembled_yield (out : list sse) :
  assembled (messages:=messages) (Yield <$> out) = [].
Proof. induction out as [|e out IH]; [done|]. cbn. done. Qed.

Lemma requested_yield (out : list sse) :
  requested (messages:=messages) (Yield <$> out) = [].
Proof. induction out as [|e out IH]; [done|]. cbn. done. Qed.

Lemma assembled_review_section outline total idx section :
  assembled (review_section lax_int build_section_review_messages provider
               dump_error outline total idx section)
  = [section].
Proof.
  unfold review_section.
  destruct (batch_events dump_error _) as [out failure].
  unfold assembled. cbn [app omap list_omap]. rewrite omap_app.
  fold (assembled (messages:=messages) (Yield <$> out)).
  rewrite assembled_yield. by destruct failure.
Qed.

Lemma requested_review_section outline total idx section :
  requested (review_section lax_int build_section_review_messages provider
               dump_error outline total idx section)
  = [build_section_review_messages section outline idx total].
Proof.
  unfold review_section.
  destruct (batch_events dump_error _) as [out failure].
  unfold requested. cbn [app omap list_omap]. rewrite omap_app.
  fold (requested (messages:=messages) (Yield <$> out)).
  rewrite requested_yield. by destruct failure.
Qed.

Lemma assembled_review_sections outline total : ∀ sections idx,
  assembled (review_sections lax_int build_section_review_messages provider
               dump_error outline total idx sections)
  = sections.
Proof.
  induction sections as [|s l IH]; intros idx; [done|].
  cbn [review_sections]. unfold assembled. rewrite omap_app.
  fold (assembled (review_section lax_int build_section_review_messages
                     provider dump_error outline total idx s)).
  fold (assembled (review_sections lax_int build_section_review_messages
                     provider dump_error outline total (S idx) l)).
  by rewrite assembled_review_section, IH.
Qed.

Lemma requested_review_sections outline total : ∀ sections idx,
  requested (review_sections lax_int build_section_review_messages provider
               dump_error outline total idx sections)
  = imap (fun i s =>
            build_section_review_messages s outline (idx + i) total)
         sections.
Proof.
  induction sections as [|s l IH]; intros idx; [done|].
  cbn [review_sections imap]. unfold requested. rewrite omap_app.
  fold (requested (review_section lax_int build_section_review_messages
                     provider dump_error outline total idx s)).
  fold (requested (review_sections lax_int build_section_review_messages
                     provider dump_error outline total (S idx) l)).
  rewrite requested_review_section, IH, Nat.add_0_r. cbn [app]. f_equal.
  apply imap_ext. intros i x _. cbn. f_equal. lia.
Qed.

End Orchestrator.
End OrchestratorProofs.

Module RegexFacts.
Import PyStr Re.

(** The continuation is only ever called on what is left of the text. *)
Lemma rep_match_suffix {A} cs (k : @cont A) : ∀ s lo hi bos a,
  rep_match cs lo hi bos s k = Some a →
  ∃ b s', s' `suffix_of` s ∧ k b s' = Some a.
Proof.
  induction s as [|c s IH]; intros lo hi bos a H; cbn [rep_match] in H.
  - destruct lo; [|done]. by exists bos, [].
  - destruct (cset_mem cs c && match hi with Some 0 => false | _ => true end).
    + destruct (rep_match cs (pred lo) (pred <$> hi) false s k) as [a'|] eqn:E.
      * injection H as ->. apply IH in E as (b & s' & Hs & Hk).
        exists b, s'. split; [by apply suffix_cons_r|done].
      * destruct lo; [|done]. by exists bos, (c :: s).
    + destruct lo; [|done]. by exists bos, (c :: s).
Qed.

Lemma run_suffix {A} : ∀ r bos s (k : @cont A) a,
  run r bos s k = Some a → ∃ b s', s' `suffix_of` s ∧ k b s' = Some a.
Proof.
  induction r as [| | |cs|cs lo hi|r1 IH1 r2 IH2|r1 IH1 r2 IH2];
    intros bos s k a H; cbn [run] in H.
  - by exists bos, s.
  - destruct bos; [|done]. by exists true, s.
  - destruct s as [|c [|]]; try done; [by exists bos, []|].
    destruct (c =? 10)%N; [|done]. by exists bos, [c].
  - destruct s as [|c s]; [done|]. destruct (cset_mem cs c); [|done].
    exists false, s. split; [by apply suffix_cons_r|done].
  - by eapply rep_match_suffix.
  - apply IH1 in H as (b & s1 & Hs1 & H). apply IH2 in H as (b' & s2 & Hs2 & H).
    exists b', s2. split; [by etrans|done].
  - destruct (run r1 bos s k) as [a'|] eqn:E.
    + injection H as ->. by eapply IH1.
    + by eapply IH2.
Qed.

Lemma suffix_is_sublist {A} (l1 l2 : list A) :
  l1 `suffix_of` l2 → l1 `sublist_of` l2.
Proof. intros [k ->]. by apply sublist_inserts_l. Qed.

Lemma match_at_suffix r bos s s' :
  match_at r bos s = Some s' → s' `suffix_of` s.
Proof.
  intros H. apply run_suffix in H as (b & s'' & Hs & [= ->]). done.
Qed.

(** [re.sub] with the empty replacement only deletes. *)
Lemma sub_from_sublist r : ∀ fuel bos s, sub_from fuel r bos s `sublist_of` s.
Proof.
  induction fuel as [|fuel IH]; intros bos s; [done|]. cbn [sub_from].
  assert (match s with
          | [] => []
          | c :: s' => c :: sub_from fuel r false s'
          end `sublist_of` s) as Hkeep.
  { destruct s as [|c s']; [done|]. by apply sublist_skip. }
  destruct (match_at r bos s) as [s'|] eqn:E; [|done].
  destruct (length s' <? length s); [|done].
  apply match_at_suffix in E. etrans; [apply IH|]. by apply suffix_is_sublist.
Qed.

Lemma re_sub_sublist r s : re_sub r s `sublist_of` s.
Proof. apply sub_from_sublist. Qed.

(** Deleting the matches of one character set deletes its characters. *)
Lemma sub_from_RSet cs : ∀ fuel bos s,
  length s < fuel →
  sub_from fuel (RSet cs) bos s = filter (fun c => cset_mem cs c = false) s.
Proof.
  induction fuel as [|fuel IH]; intros bos s Hlen; [lia|].
  destruct s as [|c s]; [done|]. cbn [sub_from match_at run].
  simpl in Hlen. destruct (cset_mem cs c) eqn:Hc.
  - replace (length s <? length (c :: s)) with true
      by (symmetry; apply Nat.ltb_lt; simpl; lia).
    rewrite filter_cons_False by congruence. apply IH. lia.
  - rewrite filter_cons_True by done. f_equal. apply IH. lia.
Qed.

Lemma re_sub_RSet cs s :
  re_sub (RSet cs) s = filter (fun c => cset_mem cs c = false) s.
Proof. apply sub_from_RSet. lia. Qed.

(** A greedy run that nothing follows never fails once its minimum is met;
    it stops somewhere in the text and has eaten characters of the set
    only. *)
Lemma rep_match_rest cs : ∀ s bos,
  ∃ s', rep_match cs 0 None bos s (fun _ r => Some r) = Some s'
        ∧ length s' ≤ length s
        ∧ filter (fun c => cset_mem cs c = false) s'
          = filter (fun c => cset_mem cs c = false) s.
Proof.
  induction s as [|c s IH]; intros bos; cbn [rep_match].
  - by exists [].
  - destruct (cset_mem cs c) eqn:Hc; cbn [andb fmap option_fmap option_map pred].
    + destruct (IH false) as (s' & -> & Hl & Hf). exists s'.
      split; [done|]. split; [simpl; lia|].
      by rewrite Hf, filter_cons_False by congruence.
    + by exists (c :: s).
Qed.

Lemma sub_from_plus cs : ∀ fuel bos s,
  length s < fuel →
  sub_from fuel (plus cs) bos s = filter (fun c => cset_mem cs c = false) s.
Proof.
  induction fuel as [|fuel IH]; intros bos s Hlen; [lia|].
  destruct s as [|c s]; [done|]. simpl in Hlen.
  cbn [sub_from match_at run plus rep_match].
  destruct (cset_mem cs c) eqn:Hc; cbn [andb fmap option_fmap option_map pred].
  - destruct (rep_match_rest cs s false) as (s' & -> & Hl & Hf).
    replace (length s' <? length (c :: s)) with true
      by (symmetry; apply Nat.ltb_lt; simpl; lia).
    rewrite filter_cons_False by congruence. rewrite <-Hf. apply IH. lia.
  - rewrite filter_cons_True by done. f_equal. apply IH. lia.
Qed.

Lemma re_sub_plus cs s :
  re_sub (plus cs) s = filter (fun c => cset_mem cs c = false) s.
Proof. apply sub_from_plus. lia. Qed.

(** Stripping a text that has no blank leaves it as it is. *)
Lemma lstrip_id s : Forall (fun c => isspace c = false) s → lstrip s = s.
Proof. destruct 1 as [|c s Hc Hs]; [done|]. simpl. by rewrite Hc. Qed.

Lemma strip_id s : Forall (fun c => isspace c = false) s → strip s = s.
Proof.
  intros H. unfold strip, rstrip. rewrite (lstrip_id s H).
  rewrite lstrip_id by (by apply Forall_rev). apply rev_involutive.
Qed.




End RegexFacts.

Module StrFacts.
Import PyStr.

Lemma startswith_nil s : startswith s [] = true.
Proof. by destruct s. Qed.

Lemma startswith_app : ∀ k a c,
  startswith a k = true → startswith (a ++ c) k = true.
Proof.
  induction k as [|x k IH]; intros a c H; [apply startswith_nil|].
  destruct a as [|y a]; [done|]. cbn in *.
  apply andb_true_iff in H as [-> H]. by apply IH.
Qed.

Lemma startswith_self : ∀ k c, startswith (k ++ c) k = true.
Proof.
  induction k as [|x k IH]; intros c; [apply startswith_nil|].
  cbn. by rewrite N.eqb_refl, IH.
Qed.

Lemma str_in_app_l k : ∀ a c, str_in k a = true → str_in k (a ++ c) = true.
Proof.
  induction a as [|y a IH]; intros c H.
  - cbn in H. rewrite orb_false_r in H. destruct k; [|done].
    destruct c; done.
  - cbn [str_in app] in *. apply orb_true_iff in H as [H|H].
    + apply (startswith_app k (y :: a) c) in H. cbn [app] in H. by rewrite H.
    + rewrite (IH c H). apply orb_true_r.
Qed.

Lemma str_in_app_r k : ∀ a c, str_in k c = true → str_in k (a ++ c) = true.
Proof.
  induction a as [|y a IH]; intros c H; [done|].
  cbn [str_in app]. rewrite (IH c H). apply orb_true_r.
Qed.

Lemma str_in_here k c : str_in k (k ++ c) = true.
Proof.
  destruct (k ++ c) eqn:E; cbn [str_in]; rewrite <-E, startswith_self; done.
Qed.

Lemma str_in_middle k a c : str_in k (a ++ k ++ c) = true.
Proof. apply str_in_app_r, str_in_here. Qed.

Lemma str_in_take k (b : list N) i j :
  i ≤ j → str_in k (take i b) = true → str_in k (take j b) = true.
Proof.
  intros Hij H. rewrite <-(take_drop i (take j b)).
  apply str_in_app_l. rewrite take_take. by replace (i `min` j) with i by lia.
Qed.

Lemma str_in_of_take k (b : list N) i :
  str_in k (take i b) = true → str_in k b = true.
Proof.
  intros H. rewrite <-(take_drop i b). by apply str_in_app_l.
Qed.

Lemma startswith_iff : ∀ k s, startswith s k = true ↔ ∃ c, s = k ++ c.
Proof.
  induction k as [|x k IH]; intros s.
  - rewrite startswith_nil. split; [by exists s|done].
  - destruct s as [|y s]; cbn [startswith].
    + split; [done|]. by intros [c ?].
    + rewrite andb_true_iff, N.eqb_eq, IH. split.
      * intros [-> [c ->]]. by exists c.
      * intros [c [= -> ->]]. split; [done|by exists c].
Qed.

Lemma str_in_iff k : ∀ s, str_in k s = true ↔ ∃ a c, s = a ++ k ++ c.
Proof.
  induction s as [|y s IH]; cbn [str_in].
  - rewrite orb_false_r, startswith_iff. split.
    + intros [c Hc]. by exists [], c.
    + intros (a & c & H). destruct a; [by exists c|done].
  - rewrite orb_true_iff, startswith_iff, IH. split.
    + intros [[c Hc]|(a & c & ->)]; [by exists [], c|by exists (y :: a), c].
    + intros ([|z a] & c & H); [left; by exists c|].
      injection H as -> ->. right. by exists a, c.
Qed.

Lemma str_in_trans a b c :
  str_in a b = true → str_in b c = true → str_in a c = true.
Proof.
  rewrite !str_in_iff. intros (a1 & a2 & ->) (b1 & b2 & ->).
  exists (b1 ++ a1), (a2 ++ b2). by rewrite <-!(assoc_L (++)).
Qed.

End StrFacts.

Module BoundaryProofs.
Import PyStr Re ThesisReview SegmenterSpec BoundarySpec RegexFacts.

Lemma truthy_false {A} (l : list A) : truthy l = false ↔ l = [].
Proof. by destruct l. Qed.

Lemma clean_text_nil p : strip (text p) = [] → clean_text_of p = [].
Proof. unfold clean_text_of. by intros ->. Qed.

Lemma scan_step_elem in_toc bs pos p b :
  b ∈ (scan_step (in_toc, bs) pos p).2
  ↔ b ∈ bs ∨ (b.1.1 = pos ∧ heading p b.1.2 b.2).
Proof.
  unfold scan_step, heading. fold (clean_text_of p). fold toc_heading.
  destruct (truthy (strip (text p))) eqn:Hraw; cbn [negb].
  2:{ apply truthy_false, clean_text_nil in Hraw. cbn [snd].
      split; [by left|]. intros [?|(_ & -> & Hne & _)]; [done|].
      by rewrite Hraw in Hne. }
  destruct (truthy (clean_text_of p)) eqn:Hclean; cbn [negb].
  2:{ apply truthy_false in Hclean. cbn [snd].
      split; [by left|]. intros [?|(_ & -> & Hne & _)]; [done|].
      by rewrite Hclean in Hne. }
  assert (clean_text_of p ≠ []) as Hne by (by destruct (clean_text_of p)).
  destruct (re_match toc_heading (clean_text_of p)) eqn:Htoc.
  { cbn [snd]. rewrite elem_of_app, list_elem_of_singleton. split.
    - intros [?| ->]; [by left|]. right. cbn. split_and!; [done..|]. by left.
    - intros [?|(Hpos & Hname & _ & [[_ Hk]|[Hno _]])]; [by left| |].
      + right. destruct b as [[? ?] ?]. cbn in *. by subst.
      + rewrite Hname in Hno. congruence. }
  assert (∀ t : bool, b ∈ (t, bs).2 ↔ b ∈ bs ∨ b.1.1 = pos ∧ b.1.2 = clean_text_of p
            ∧ b.1.2 ≠ [] ∧ (re_match toc_heading b.1.2 = true ∧ b.2 = toc
               ∨ re_match toc_heading b.1.2 = false
                 ∧ true = false
                 ∧ match_patterns _SECTION_PATTERNS b.1.2 = Some b.2)) as Hskip.
  { intros t. cbn [snd]. split; [by left|].
    intros [?|(_ & Hname & _ & [[Hyes _]|(_ & ? & _)])]; [done| |done].
    rewrite Hname in Hyes. congruence. }
  destruct (_is_toc_entry (strip (text p))) eqn:Hentry.
  { destruct in_toc; cbn [andb]; apply Hskip. }
  rewrite andb_false_r.
  destruct (match_patterns _SECTION_PATTERNS (clean_text_of p)) as [k|] eqn:Hk.
  - cbn [snd]. rewrite elem_of_app, list_elem_of_singleton. split.
    + intros [?| ->]; [by left|]. right. cbn. split_and!; [done..|].
      right. done.
    + intros [?|(Hpos & Hname & _ & [[Hyes _]|(_ & _ & Hm)])]; [by left| |].
      * rewrite Hname in Hyes. congruence.
      * right. destruct b as [[? ?] ?]. cbn in *. subst. congruence.
  - cbn [snd]. split; [by left|].
    intros [?|(Hpos & Hname & _ & [[Hyes _]|(_ & _ & Hm)])]; [done| |].
    + rewrite Hname in Hyes. congruence.
    + rewrite Hname in Hm. congruence.
Qed.

Lemma scan_elem ps : ∀ pos st b,
  b ∈ (scan pos ps st).2
  ↔ b ∈ st.2 ∨ ∃ i p, ps !! i = Some p ∧ b.1.1 = pos + i
                      ∧ heading p b.1.2 b.2.
Proof.
  induction ps as [|p ps IH]; intros pos st b; cbn [scan].
  - split; [by left|]. intros [?|(i & p & Hi & _)]; [done|].
    by rewrite lookup_nil in Hi.
  - rewrite IH. destruct st as [in_toc bs]. rewrite scan_step_elem. cbn [snd].
    split.
    + intros [[?|[Hpos Hh]]|(i & q & Hi & Hpos & Hh)].
      * by left.
      * right. exists 0, p. split_and!; [done|lia|done].
      * right. exists (S i), q. split_and!; [done|lia|done].
    + intros [?|(i & q & Hi & Hpos & Hh)]; [by left; left|].
      destruct i as [|i]; cbn in Hi.
      * injection Hi as <-. left; right. split; [lia|done].
      * right. exists i, q. split_and!; [done|lia|done].
Qed.

Lemma find_boundaries_elem ps pos name k :
  (pos, name, k) ∈ find_boundaries ps
  ↔ ∃ p, ps !! pos = Some p ∧ heading p name k.
Proof.
  unfold find_boundaries. rewrite scan_elem. cbn [fst snd]. split.
  - intros [Hin|(i & p & Hi & -> & Hh)]; [by apply elem_of_nil in Hin|].
    by exists p.
  - intros (p & Hp & Hh). right. by exists pos, p.
Qed.

Lemma increasing_sorted lo hi bs :
  increasing lo hi bs →
  StronglySorted lt ((fun b : boundary => b.1.1) <$> bs)
  ∧ Forall (fun b : boundary => lo ≤ b.1.1 < hi) bs.
Proof.
  revert lo. induction bs as [|[[pos n] k] bs IH]; intros lo H; cbn in *.
  - split; constructor.
  - destruct H as (Hlo & Hhi & H). destruct (IH _ H) as [Hs Hf]. split.
    + constructor; [done|]. apply Forall_fmap.
      eapply Forall_impl; [exact Hf|]. cbn. intros; lia.
    + constructor; [cbn; lia|]. eapply Forall_impl; [exact Hf|]. cbn.
      intros; lia.
Qed.

End BoundaryProofs.

Module MergeProofs.
Import PyStr ThesisReview LlmService MergeSpec.

Lemma join_snoc (sep : list N) l x :
  l ≠ [] → join sep (l ++ [x]) = join sep l ++ sep ++ x.
Proof.
  induction l as [|a l IH]; [done|]. intros _. destruct l as [|b l]; [done|].
  change (join sep ((a :: b :: l) ++ [x]))
    with (a ++ sep ++ join sep ((b :: l) ++ [x])).
  rewrite IH by done. change (join sep (a :: b :: l))
    with (a ++ sep ++ join sep (b :: l)).
  by rewrite <-!(assoc_L (++)).
Qed.

Lemma merged_from_single n s : merged_from n [s] s.
Proof.
  exists s, []. split_and!; try done. cbn. by rewrite app_nil_r.
Qed.

Lemma merged_from_snoc n g prev sec :
  merged_from n g prev →
  length (paragraphs sec) < n → section_type sec = section_type prev →
  merged_from n (g ++ [sec])
    (mkSection (name prev ++ lit " / " ++ name sec) (section_type prev)
       (start_para_idx prev) (end_para_idx sec)
       (paragraphs prev ++ paragraphs sec)).
Proof.
  intros (s0 & rest & -> & Hrest & Hname & Hkind & Hstart & Hend & Hps) Hlt Hk.
  exists s0, (rest ++ [sec]). cbn [name section_type start_para_idx
    end_para_idx paragraphs]. split_and!; try done.
  - apply Forall_app. split; [done|]. apply Forall_singleton.
    split; [done|congruence].
  - rewrite fmap_app. cbn [fmap list_fmap].
    rewrite join_snoc by done. by rewrite Hname.
  - by rewrite last_snoc.
  - rewrite fmap_app, concat_app. cbn. by rewrite app_nil_r, Hps.
Qed.

(** The loop of the merge pass, group by group. *)
Lemma merge_step_groups n groups acc sec :
  Forall2 (merged_from n) groups acc →
  ∃ groups', concat groups' = concat groups ++ [sec]
    ∧ Forall2 (merged_from n) groups' (merge_step n acc sec).
Proof.
  intros H. unfold merge_step.
  destruct acc as [|a0 acc0] using rev_ind.
  - apply Forall2_nil_inv_r in H as ->. exists [[sec]]. split; [done|].
    cbn. constructor; [apply merged_from_single|constructor].
  - clear IHacc0. rewrite last_snoc.
    apply Forall2_app_inv_r in H as (gs & gl & Hgs & Hgl & ->).
    apply Forall2_cons_inv_r in Hgl as (g & gl' & Hg & Hnil & ->).
    apply Forall2_nil_inv_r in Hnil as ->.
    destruct (length (paragraphs sec) <? n) eqn:Hlt; cbn [andb].
    + case_bool_decide as Hk.
      * exists (gs ++ [g ++ [sec]]). split.
        { rewrite !concat_app. cbn. by rewrite !app_nil_r, (assoc_L (++)). }
        rewrite removelast_last. apply Forall2_app; [done|].
        constructor; [|constructor]. apply Nat.ltb_lt in Hlt.
        by apply merged_from_snoc.
      * exists ((gs ++ [g]) ++ [[sec]]). split.
        { rewrite (concat_app (gs ++ [g])). done. }
        apply Forall2_app; [apply Forall2_app; [done|]|];
          (constructor; [|constructor]); [done|apply merged_from_single].
    + exists ((gs ++ [g]) ++ [[sec]]). split.
      { rewrite (concat_app (gs ++ [g])). done. }
      apply Forall2_app; [apply Forall2_app; [done|]|];
        (constructor; [|constructor]); [done|apply merged_from_single].
Qed.

Lemma foldl_merge_groups n l : ∀ groups acc,
  Forall2 (merged_from n) groups acc →
  ∃ groups', concat groups' = concat groups ++ l
    ∧ Forall2 (merged_from n) groups' (foldl (merge_step n) acc l).
Proof.
  induction l as [|sec l IH]; intros groups acc H; cbn [foldl].
  - exists groups. by rewrite app_nil_r.
  - destruct (merge_step_groups n groups acc sec H) as (g1 & Hc1 & H1).
    destruct (IH g1 _ H1) as (g2 & Hc2 & H2). exists g2. split; [|done].
    by rewrite Hc2, Hc1, <-(assoc_L (++)).
Qed.

Lemma merge_small_sections_groups l n :
  ∃ groups, concat groups = l
    ∧ Forall2 (merged_from n) groups (_merge_small_sections l n).
Proof.
  unfold _merge_small_sections. destruct (length l <=? 1) eqn:Hlen.
  - apply Nat.leb_le in Hlen. destruct l as [|s [|]]; simpl in Hlen; try lia.
    + exists []. split; [done|constructor].
    + exists [[s]]. split; [done|].
      constructor; [apply merged_from_single|constructor].
  - destruct (foldl_merge_groups n l [] []) as (g & Hc & H); [constructor|].
    by exists g.
Qed.

(** *** What is left to merge afterwards: nothing *)

Lemma settled_snoc n l prev x :
  settled n (l ++ [prev]) →
  (section_type prev = section_type x → n ≤ length (paragraphs x)) →
  settled n ((l ++ [prev]) ++ [x]).
Proof.
  intros Hl Hx i a b Ha Hb Hk.
  destruct (decide (S i < length (l ++ [prev]))) as [Hi|Hi].
  - rewrite lookup_app_l in Ha by lia. rewrite lookup_app_l in Hb by lia.
    exact (Hl i a b Ha Hb Hk).
  - assert (S i = length (l ++ [prev])) as Hi'.
    { apply lookup_lt_Some in Hb. rewrite length_app in Hb. simpl in Hb. lia. }
    rewrite lookup_app_r in Hb by lia.
    rewrite Hi', Nat.sub_diag in Hb. injection Hb as <-.
    rewrite lookup_app_l in Ha by lia. rewrite length_app in Hi'.
    simpl in Hi'. rewrite lookup_app_r in Ha by lia.
    replace (i - length l) with 0 in Ha by lia. injection Ha as <-. auto.
Qed.

Lemma settled_grow n l prev m :
  settled n (l ++ [prev]) →
  section_type m = section_type prev →
  length (paragraphs prev) ≤ length (paragraphs m) →
  settled n (l ++ [m]).
Proof.
  intros Hl Hk Hlen i a b Ha Hb Hab.
  destruct (decide (S i < length l)) as [Hi|Hi].
  - rewrite lookup_app_l in Ha by lia. rewrite lookup_app_l in Hb by lia.
    apply (Hl i a b); [by rewrite lookup_app_l by lia..|done].
  - assert (S i = length l) as Hi'.
    { apply lookup_lt_Some in Hb. rewrite length_app in Hb. simpl in Hb. lia. }
    rewrite lookup_app_r in Hb by lia.
    rewrite Hi', Nat.sub_diag in Hb. injection Hb as <-.
    rewrite lookup_app_l in Ha by lia.
    etrans; [|exact Hlen].
    apply (Hl i a prev); [by rewrite lookup_app_l by lia| |congruence].
    rewrite lookup_app_r by lia. by rewrite Hi', Nat.sub_diag.
Qed.

Lemma settled_single n s : settled n [s].
Proof. intros i a b Ha Hb. destruct i; discriminate. Qed.

Lemma settled_nil n : settled n [].
Proof. intros i a b Ha. by rewrite lookup_nil in Ha. Qed.

Lemma merge_step_settled n acc sec :
  settled n acc → settled n (merge_step n acc sec).
Proof.
  intros H. unfold merge_step. destruct acc as [|prev acc] using rev_ind.
  - apply settled_single.
  - clear IHacc. rewrite last_snoc.
    destruct (length (paragraphs sec) <? n) eqn:Hlt; cbn [andb].
    + case_bool_decide as Hk.
      * rewrite removelast_last. eapply settled_grow; [exact H|done|].
        cbn. rewrite length_app. lia.
      * apply settled_snoc; [done|]. intros; congruence.
    + apply settled_snoc; [done|]. apply Nat.ltb_ge in Hlt. intros; lia.
Qed.

Lemma foldl_merge_settled n l : ∀ acc,
  settled n acc → settled n (foldl (merge_step n) acc l).
Proof.
  induction l as [|sec l IH]; intros acc H; cbn [foldl]; [done|].
  by apply IH, merge_step_settled.
Qed.

Lemma settled_app_l n l1 l2 : settled n (l1 ++ l2) → settled n l1.
Proof.
  intros H i a b Ha Hb. apply (H i a b); by apply lookup_app_l_Some.
Qed.

Lemma foldl_merge_id n l : ∀ acc,
  settled n (acc ++ l) → foldl (merge_step n) acc l = acc ++ l.
Proof.
  induction l as [|sec l IH]; intros acc H; cbn [foldl].
  - by rewrite app_nil_r.
  - assert (merge_step n acc sec = acc ++ [sec]) as ->.
    { unfold merge_step. destruct acc as [|prev acc] using rev_ind; [done|].
      clear IHacc. rewrite last_snoc.
      destruct (length (paragraphs sec) <? n) eqn:Hlt; cbn [andb]; [|done].
      case_bool_decide as Hk; [|done]. apply Nat.ltb_lt in Hlt.
      assert (n ≤ length (paragraphs sec)); [|lia].
      apply (H (length acc) prev sec); [| |done].
      - rewrite <-(assoc_L (++)). by apply list_lookup_middle.
      - apply list_lookup_middle. rewrite length_app. simpl. lia. }
    rewrite IH; by rewrite <-(assoc_L (++)).
Qed.

Lemma merge_small_sections_settled l n :
  settled n (_merge_small_sections l n).
Proof.
  unfold _merge_small_sections. destruct (length l <=? 1) eqn:Hlen.
  - apply Nat.leb_le in Hlen. destruct l as [|s [|]]; simpl in Hlen; try lia.
    + apply settled_nil.
    + apply settled_single.
  - apply foldl_merge_settled, settled_nil.
Qed.

Lemma merge_small_sections_fixed l n :
  settled n l → _merge_small_sections l n = l.
Proof.
  intros H. unfold _merge_small_sections.
  destruct (length l <=? 1); [done|]. by apply (foldl_merge_id n l []).
Qed.

End MergeProofs.

Module DedupProofs.
Import PyStr Re ThesisReview SegmenterSpec SegmenterProofs.

Lemma keep_where_elem keep l : ∀ idx s,
  s ∈ keep_where keep idx l
  ↔ ∃ i, l !! i = Some s ∧ keep (idx + i) = true.
Proof.
  induction l as [|x l IH]; intros idx s; cbn [keep_where].
  - split; [by intros ?%elem_of_nil|]. intros (i & Hi & _).
    by rewrite lookup_nil in Hi.
  - assert ((∃ i, (x :: l) !! i = Some s ∧ keep (idx + i) = true)
            ↔ (x = s ∧ keep idx = true)
              ∨ ∃ i, l !! i = Some s ∧ keep (S idx + i) = true) as ->.
    { split.
      - intros ([|i] & Hi & Hk); cbn in Hi.
        + left. rewrite Nat.add_0_r in Hk. by injection Hi as ->.
        + right. exists i. by rewrite Nat.add_succ_r in Hk.
      - intros [[-> Hk]|(i & Hi & Hk)].
        + exists 0. by rewrite Nat.add_0_r.
        + exists (S i). by rewrite Nat.add_succ_r. }
    destruct (keep idx) eqn:Hk.
    + rewrite elem_of_cons, IH. split.
      * intros [->|?]; [by left|by right].
      * intros [[-> _]|?]; [by left|by right].
    + rewrite IH. split; [by right|]. by intros [[_ ?]|?].
Qed.

(** Positions of the result come from positions of the list, in order. *)
Lemma keep_where_lookup keep l : ∀ idx a s,
  keep_where keep idx l !! a = Some s →
  ∃ i, l !! i = Some s ∧ keep (idx + i) = true.
Proof.
  intros idx a s H. apply keep_where_elem. by eapply list_elem_of_lookup_2.
Qed.

Lemma keep_where_lookup_lt keep l : ∀ idx a b sa sb,
  a < b →
  keep_where keep idx l !! a = Some sa →
  keep_where keep idx l !! b = Some sb →
  ∃ i j, i < j ∧ l !! i = Some sa ∧ l !! j = Some sb
         ∧ keep (idx + i) = true ∧ keep (idx + j) = true.
Proof.
  induction l as [|x l IH]; intros idx a b sa sb Hab Ha Hb;
    cbn [keep_where] in *.
  { by rewrite lookup_nil in Ha. }
  destruct (keep idx) eqn:Hk.
  - destruct a as [|a]; cbn in Ha.
    + injection Ha as ->. destruct b as [|b]; [lia|]. cbn in Hb.
      apply keep_where_lookup in Hb as (j & Hj & Hkj).
      exists 0, (S j). rewrite Nat.add_0_r, Nat.add_succ_r.
      split_and!; [lia|done..].
    + destruct b as [|b]; [lia|]. cbn in Hb.
      destruct (IH (S idx) a b sa sb) as (i & j & ? & ? & ? & ? & ?);
        [lia|done..|].
      exists (S i), (S j). rewrite !Nat.add_succ_r.
      split_and!; [lia|done..].
  - destruct (IH (S idx) a b sa sb) as (i & j & ? & ? & ? & ? & ?);
      [lia|done..|].
    exists (S i), (S j). rewrite !Nat.add_succ_r. split_and!; [lia|done..].
Qed.

Lemma keep_where_all keep l : ∀ idx,
  (∀ i, i < length l → keep (idx + i) = true) → keep_where keep idx l = l.
Proof.
  induction l as [|x l IH]; intros idx H; cbn [keep_where]; [done|].
  rewrite <-(Nat.add_0_r idx) at 1. rewrite H by (simpl; lia).
  f_equal. apply IH. intros i Hi. rewrite Nat.add_succ_comm.
  apply H. simpl. lia.
Qed.

Lemma norm_at_lookup l i s :
  l !! i = Some s → norm_at l i = _normalize_section_name (name s).
Proof. unfold norm_at. by intros ->. Qed.

Lemma para_count_lookup l i s :
  l !! i = Some s → para_count l i = length (paragraphs s).
Proof. unfold para_count. by intros ->. Qed.

(** Two sections that survive and share a normalized name that is not
    empty are the same one. *)
Lemma survives_unique l i j :
  i < length l → j < length l →
  survives l i → survives l j →
  norm_at l i = norm_at l j → norm_at l i ≠ [] → i = j.
Proof.
  intros Hi Hj [?|Hsi] [?|Hsj] Hn Hne; try congruence.
  specialize (Hsi j Hj (eq_sym Hn)). specialize (Hsj i Hi Hn). lia.
Qed.

Lemma deduplicate_distinct l a b sa sb :
  _deduplicate_sections l !! a = Some sa →
  _deduplicate_sections l !! b = Some sb →
  _normalize_section_name (name sa) = _normalize_section_name (name sb) →
  _normalize_section_name (name sa) ≠ [] →
  a = b.
Proof.
  destruct (deduplicate_keeps l) as (keep & -> & Hkeep).
  assert (∀ a b sa sb, a < b →
    keep_where keep 0 l !! a = Some sa →
    keep_where keep 0 l !! b = Some sb →
    _normalize_section_name (name sa) = _normalize_section_name (name sb) →
    _normalize_section_name (name sa) ≠ [] → False) as Hlt.
  { clear a b sa sb. intros a b sa sb Hab Ha Hb Hn Hne.
    destruct (keep_where_lookup_lt keep l 0 a b sa sb Hab Ha Hb)
      as (i & j & Hij & Hi & Hj & Hki & Hkj). cbn in Hki, Hkj.
    assert (i < length l) as Hil by (by eapply lookup_lt_Some).
    assert (j < length l) as Hjl by (by eapply lookup_lt_Some).
    apply Hkeep in Hki; [|done]. apply Hkeep in Hkj; [|done].
    assert (i = j); [|lia].
    apply (survives_unique l); try done.
    - by rewrite (norm_at_lookup l i sa), (norm_at_lookup l j sb).
    - by rewrite (norm_at_lookup l i sa). }
  intros Ha Hb Hn Hne.
  destruct (Nat.lt_trichotomy a b) as [Hab|[?|Hab]]; [exfalso|done|exfalso].
  - by eapply (Hlt a b).
  - eapply (Hlt b a); [done..|by rewrite <-Hn].
Qed.

(** Of every name a section with the most paragraphs stays. *)
Lemma deduplicate_represents l s :
  s ∈ l →
  ∃ s', s' ∈ _deduplicate_sections l
        ∧ _normalize_section_name (name s')
          = _normalize_section_name (name s)
        ∧ length (paragraphs s) ≤ length (paragraphs s').
Proof.
  intros Hs. destruct (deduplicate_keeps l) as (keep & -> & Hkeep).
  apply list_elem_of_lookup in Hs as [i Hi].
  assert (i < length l) as Hil by (by eapply lookup_lt_Some).
  destruct (decide (norm_at l i = [])) as [Hnil|Hk].
  { exists s. split; [|done]. apply keep_where_elem. exists i.
    split; [done|]. cbn. apply Hkeep; [done|]. by left. }
  set (k := norm_at l i) in *. set (v := positions_of k 0 l).
  assert (i ∈ v) as Hin by (by apply norm_at_positions).
  assert (v ≠ []) as Hne
    by (intros E; rewrite E in Hin; by apply elem_of_nil in Hin).
  destruct (best_of_spec l v Hne (positions_of_sorted k l 0)) as [Hbin Hball].
  apply norm_at_positions in Hbin as Hb; [|done]. destruct Hb as [Hblt Hnb].
  destruct (lookup_lt_is_Some_2 l _ Hblt) as [s' Hs'].
  exists s'. split_and!.
  - apply keep_where_elem. exists (best_of l v). split; [done|]. cbn.
    apply Hkeep; [done|]. right. intros j Hj Hnj.
    apply Hball. apply norm_at_positions; [done|]. split; [done|congruence].
  - rewrite <-(norm_at_lookup l _ s' Hs'), <-(norm_at_lookup l _ s Hi). done.
  - rewrite <-(para_count_lookup l _ s' Hs'), <-(para_count_lookup l _ s Hi).
    specialize (Hball i Hin). lia.
Qed.

Lemma deduplicate_fixed l :
  (∀ a b sa sb, l !! a = Some sa → l !! b = Some sb →
     _normalize_section_name (name sa) = _normalize_section_name (name sb) →
     _normalize_section_name (name sa) ≠ [] → a = b) →
  _deduplicate_sections l = l.
Proof.
  intros Hd. destruct (deduplicate_keeps l) as (keep & -> & Hkeep).
  apply keep_where_all. intros i Hi. cbn. apply Hkeep; [done|].
  destruct (lookup_lt_is_Some_2 l i Hi) as [si Hsi].
  destruct (decide (norm_at l i = [])) as [?|Hne]; [by left|].
  right. intros j Hj Hn. right.
  destruct (lookup_lt_is_Some_2 l j Hj) as [sj Hsj].
  rewrite (norm_at_lookup l i si), (norm_at_lookup l j sj) in Hn by done.
  rewrite (norm_at_lookup l i si) in Hne by done.
  assert (i = j) as <- by (by eapply (Hd i j si sj)). done.
Qed.

Lemma deduplicate_idempotent l :
  _deduplicate_sections (_deduplicate_sections l) = _deduplicate_sections l.
Proof. apply deduplicate_fixed. apply deduplicate_distinct. Qed.

Lemma deduplicate_nonempty l : l ≠ [] → _deduplicate_sections l ≠ [].
Proof.
  destruct l as [|s l]; [done|]. intros _ E.
  destruct (deduplicate_represents (s :: l) s) as (s' & Hin & _); [by left|].
  rewrite E in Hin. by apply elem_of_nil in Hin.
Qed.

End DedupProofs.

Module NameProofs.
Import PyStr Re ThesisReview SegmenterSpec SegmenterProofs RegexFacts StrFacts.
Local Open Scope N_scope.

Lemma control_chars_mem c : cset_mem (CRange 0x00 0x1f) c = iscntrl c.
Proof. unfold iscntrl. cbn. by destruct c. Qed.

Lemma re_sub_control s :
  re_sub control_chars s = filter (fun c => iscntrl c = false) s.
Proof.
  unfold control_chars. rewrite re_sub_RSet. apply list_filter_iff.
  intros c. by rewrite control_chars_mem.
Qed.

Lemma re_sub_spaces s :
  re_sub (plus CSpace) s = filter (fun c => isspace c = false) s.
Proof. apply re_sub_plus. Qed.

Lemma str_in_singleton x s : str_in [x] s = true ↔ x ∈ s.
Proof.
  induction s as [|y s IH]; cbn [str_in startswith].
  - split; [done|by intros ?%elem_of_nil].
  - rewrite startswith_nil, orb_true_iff, IH, andb_true_r, N.eqb_eq,
      elem_of_cons. done.
Qed.

(** The pattern [\t.*$] finds nothing in a text without a tab. *)
Lemma sub_from_no_tab : ∀ fuel bos s,
  0x09 ∉ s →
  sub_from fuel (rseq [chr 0x09; star CDot; REol]) bos s = s.
Proof.
  induction fuel as [|fuel IH]; intros bos s Hs; [done|].
  destruct s as [|c s]; [done|]. cbn [sub_from].
  apply not_elem_of_cons in Hs as [Hc Hs].
  assert (match_at (rseq [chr 9; star CDot; REol]) bos (c :: s) = None) as ->.
  { unfold match_at. cbn. destruct (c =? 9) eqn:E; [|done].
    apply N.eqb_eq in E. congruence. }
  f_equal. by apply IH.
Qed.

(** A greedy [.*] before [$] takes a whole line. *)
Lemma dot_star_eol : ∀ s bos,
  0x0a ∉ s →
  rep_match CDot 0 None bos s
    (fun b s' => run REol b s' (fun _ r => Some r)) = Some [].
Proof.
  induction s as [|c s IH]; intros bos Hs; [done|].
  apply not_elem_of_cons in Hs as [Hc Hs]. cbn [rep_match cset_mem].
  destruct (c =? 10) eqn:E; [apply N.eqb_eq in E; congruence|].
  cbn [negb andb fmap option_fmap option_map pred]. by rewrite IH.
Qed.

(** From the first tab on, a line is cut. *)
Lemma sub_from_tab_tail : ∀ fuel bos s rest,
  0x09 ∉ s → 0x0a ∉ rest →
  (length s < fuel)%nat →
  sub_from fuel (rseq [chr 0x09; star CDot; REol]) bos (s ++ 0x09 :: rest) = s.
Proof.
  induction fuel as [|fuel IH]; intros bos s rest Hs Hrest Hlen; [lia|].
  destruct s as [|c s]; cbn [sub_from app].
  - assert (match_at (rseq [chr 9; star CDot; REol]) bos (9 :: rest)
            = Some []) as ->.
    { unfold match_at. cbn [rseq chr star run cset_mem].
      rewrite N.eqb_refl. by apply dot_star_eol. }
    cbn. by destruct fuel.
  - apply not_elem_of_cons in Hs as [Hc Hs].
    assert (match_at (rseq [chr 9; star CDot; REol]) bos
              (c :: s ++ 9 :: rest) = None) as ->.
    { unfold match_at. cbn. destruct (c =? 9) eqn:E; [|done].
      apply N.eqb_eq in E. congruence. }
    f_equal. apply IH; [done..|]. simpl in Hlen. lia.
Qed.

Lemma normalize_clean name :
  Forall (fun c => isspace c = false ∧ iscntrl c = false)
    (_normalize_section_name name)
  ∧ _normalize_section_name name `sublist_of` name.
Proof.
  unfold _normalize_section_name.
  rewrite re_sub_spaces, re_sub_control.
  rewrite strip_id.
  2:{ apply Forall_forall. by intros c [? _]%list_elem_of_filter. }
  split.
  - apply Forall_forall. intros c [? [? _]%list_elem_of_filter]%list_elem_of_filter.
    done.
  - etrans; [apply sublist_filter|]. etrans; [apply sublist_filter|].
    etrans; apply re_sub_sublist.
Qed.

Lemma normalize_tab_tail name rest :
  0x09 ∉ name → 0x0a ∉ rest →
  _normalize_section_name (name ++ 0x09 :: rest)
  = _normalize_section_name name.
Proof.
  intros Hn Hr. unfold _normalize_section_name.
  assert (re_sub (rseq [chr 9; star CDot; REol]) (name ++ 9 :: rest)
          = re_sub (rseq [chr 9; star CDot; REol]) name) as ->; [|done].
  unfold re_sub. rewrite (sub_from_no_tab _ _ name) by done.
  apply sub_from_tab_tail; [done..|]. rewrite length_app. simpl. lia.
Qed.

Lemma is_heading_paragraph_spec text :
  _is_heading_paragraph text = true
  ↔ (0x3002 ∉ text)
    ∧ (length (filter (fun c => iscntrl c = false) text) ≤ 60)%nat.
Proof.
  unfold _is_heading_paragraph. rewrite re_sub_control.
  destruct (str_in [12290] (filter (fun c => iscntrl c = false) text)) eqn:E.
  - apply str_in_singleton in E. apply list_elem_of_filter in E as [_ E].
    split; [done|]. by intros [? _].
  - rewrite Nat.leb_le. split; [|by intros [_ ?]]. intros Hlen.
    split; [|done]. intros Hin.
    assert (str_in [12290] (filter (fun c => iscntrl c = false) text) = true)
      as E'; [|congruence].
    apply str_in_singleton. by apply list_elem_of_filter.
Qed.

End NameProofs.

Module StreamProofs.
Import PyStr Json ThesisReview LlmService ServiceSpec StreamSpec.
Import ExtractorProofs.
Local Open Scope N_scope.

Section Scan.
Context (lax_int : json -> option Z).

Ltac scan_cases :=
  repeat (match goal with
          | |- context [match ?o with Some _ => _ | None => _ end] =>
              destruct o eqn:?
          | |- context [if ?c then _ else _] => destruct c eqn:?
          end; try done).

(** The counter counts the records emitted. *)
Lemma scan_char_count b i st :
  emitted_count (scan_char lax_int b i st).1
  = (emitted_count st
     + length (comments_of (scan_char lax_int b i st).2))%nat.
Proof. unfold scan_char. scan_cases; cbn; lia. Qed.

Lemma scan_range_count b : ∀ n i st,
  emitted_count (scan_range lax_int n b i st).1
  = (emitted_count st
     + length (comments_of (scan_range lax_int n b i st).2))%nat.
Proof.
  induction n as [|n IH]; intros i st; cbn [scan_range]; [cbn; lia|].
  pose proof (scan_char_count b i st) as H1.
  destruct (scan_char lax_int b i st) as [st1 out1].
  pose proof (IH (S i) st1) as H2.
  destruct (scan_range lax_int n b (S i) st1) as [st2 out2].
  cbn [fst snd] in *. rewrite comments_of_app, length_app. lia.
Qed.

Lemma comments_of_Comment cs : comments_of (Comment <$> cs) = cs.
Proof. induction cs as [|c cs IH]; [done|]. cbn. by f_equal. Qed.

Lemma texts_of_Comment cs : texts_of (Comment <$> cs) = [].
Proof. by induction cs. Qed.

(** The run of a stream that fails nowhere, from the text it adds up to. *)
Lemma stream_deliver frags :
  ∃ out,
    texts_of out = filter (fun f => f ≠ []) frags
    ∧ comments_of out = scanned lax_int (concat frags)
    ∧ _stream_single_batch lax_int (deliver frags)
      = match scanned lax_int (concat frags) with
        | [] =>
            match extract_comments_from_json lax_int (concat frags) with
            | Return cs => mkRun (out ++ (Comment <$> cs)) None
            | Raise e => mkRun out (Some e)
            end
        | _ :: _ => mkRun out None
        end.
Proof.
  destruct (drain_fragments lax_int frags [] scan_init) as (out & Hd & Hc & Ht).
  cbn [app length] in Hd, Hc. exists out. split; [done|]. split; [done|].
  unfold _stream_single_batch, deliver. cbn [create_error chunks stream_error].
  rewrite Hd.
  pose proof (scan_range_count (concat frags) (length (concat frags)) 0
                scan_init) as Hn.
  cbn [scan_init emitted_count] in Hn. rewrite Hn. cbn [Nat.add].
  unfold scanned. clear Hn Hc Hd. by destruct (comments_of (scan_range _ _ _ _ _).2).
Qed.

(** Text events echo what was read, whatever the stream does. *)
Lemma drain_texts : ∀ cs buffer st,
  texts_of (drain lax_int cs buffer st).1.2
  = filter (fun f => f ≠ []) (delivered cs).
Proof.
  induction cs as [|choices cs IH]; intros buffer st; [done|].
  cbn [drain delivered]. destruct choices as [|content choices]; [done|].
  destruct content as [[|c w]|].
  - pose proof (IH buffer st) as H.
    destruct (drain lax_int cs buffer st) as [[[b2 st2] out2] exn].
    cbn [fst snd default] in *. by rewrite filter_cons_False by (by intros ?).
  - unfold feed. cbn [default].
    match goal with |- context [scan_range lax_int ?n ?b ?i ?s] =>
      pose proof (scan_range_texts lax_int b n i s) as H1;
      destruct (scan_range lax_int n b i s) as [st1 out1] end.
    pose proof (IH (buffer ++ c :: w) st1) as H.
    destruct (drain lax_int cs (buffer ++ c :: w) st1)
      as [[[b2 st2] out2] exn].
    cbn [fst snd] in *. rewrite filter_cons_True by done.
    change (texts_of ((Text (c :: w) :: out1) ++ out2))
      with ((c :: w) :: texts_of (out1 ++ out2)).
    by rewrite texts_of_app, H1, H.
  - pose proof (IH buffer st) as H.
    destruct (drain lax_int cs buffer st) as [[[b2 st2] out2] exn].
    cbn [fst snd default] in *. by rewrite filter_cons_False by (by intros ?).
Qed.

Lemma stream_texts resp :
  texts_of (yielded (_stream_single_batch lax_int resp))
  = match create_error resp with
    | Some _ => []
    | None => filter (fun f => f ≠ []) (delivered (chunks resp))
    end.
Proof.
  unfold _stream_single_batch. destruct (create_error resp); [done|].
  pose proof (drain_texts (chunks resp) [] scan_init) as H.
  destruct (drain lax_int (chunks resp) [] scan_init)
    as [[[b st] out] exn]. cbn [fst snd] in H.
  destruct exn, (stream_error resp); cbn [yielded]; try done.
  destruct (emitted_count st =? 0)%nat; [|done].
  destruct (extract_comments_from_json lax_int b); cbn [yielded]; [|done].
  by rewrite texts_of_app, texts_of_Comment, app_nil_r.
Qed.

End Scan.
End StreamProofs.

Module BraceProofs.
Import PyStr Json ThesisReview LlmService ServiceSpec StreamSpec.
Import ExtractorProofs StreamProofs StrFacts.
Local Open Scope N_scope.

Section Scan.
Context (lax_int : json -> option Z).

Lemma scan_char_inv b i st :
  scan_inv b i st →
  scan_inv b (S i) (scan_char lax_int b i st).1
  ∧ ∀ r, r ∈ comments_of (scan_char lax_int b i st).2 →
      from_braces lax_int b r.
Proof.
  intros [Harr Hstart].
  assert (in_comments_array st = true →
          str_in comments_key (take (S i) b) = true) as Harr'.
  { intros H. eapply (str_in_take _ _ i); [lia|auto]. }
  assert ((0 ≤ current_object_start st)%Z →
          ∃ a : nat, current_object_start st = Z.of_nat a ∧ (a < S i)%nat
                     ∧ b !! a = Some 0x7b
                     ∧ str_in comments_key (take a b) = true) as Hstart'.
  { intros H. destruct (Hstart H) as (a & ? & ? & ? & ?). exists a.
    split_and!; [done|lia|done..]. }
  assert (∀ r, r ∈ comments_of [] → from_braces lax_int b r) as Hnone
    by (by intros r ?%elem_of_nil).
  assert (scan_inv b (S i) st) as Hsame by done.
  unfold scan_char. destruct (b !! i) as [char|] eqn:Hchar; [|done].
  destruct (in_comments_array st) eqn:Hin; cbn [negb].
  2:{ destruct (char =? 91) eqn:Hbr; cbn [andb]; [|done].
      destruct (str_in comments_key (take i b)) eqn:Hkey; [|done].
      cbn [fst snd]. split; [|done]. split; [|done]. intros _.
      eapply (str_in_take _ _ i); [lia|done]. }
  specialize (Harr eq_refl). specialize (Harr' eq_refl).
  destruct (char =? 123) eqn:Hopen.
  { cbn [fst snd]. split; [|done]. split; [done|].
    cbn [current_object_start]. destruct (brace_depth st =? 0)%Z; [|done].
    intros _. exists i. apply N.eqb_eq in Hopen. subst char.
    split_and!; [done|lia|done..]. }
  destruct (char =? 125) eqn:Hclose.
  { destruct ((brace_depth st - 1 =? 0)%Z
              && (0 <=? current_object_start st)%Z) eqn:Hready;
      [|by cbn [fst snd]].
    apply andb_true_iff in Hready as [_ Hs%Z.leb_le].
    destruct (Hstart Hs) as (a & Ha & Hai & Hba & Hka).
    rewrite Ha, Nat2Z.id.
    destruct (try_extract_single_comment lax_int (slice b a (i + 1)))
      as [c|] eqn:Htry; cbn [fst snd].
    - split; [split; [done|cbn; lia]|].
      intros r Hr. cbn in Hr. apply list_elem_of_singleton in Hr as ->.
      exists a, i. apply N.eqb_eq in Hclose. subst char.
      split_and!; [lia|by eapply lookup_lt_Some|done|done|done|].
      by rewrite <-Nat.add_1_r.
    - split; [split; [done|cbn; lia]|done]. }
  destruct (char =? 93) eqn:Hend; cbn [fst snd].
  - split; [|done]. split; [done|]. done.
  - done.
Qed.

Lemma scan_range_inv b : ∀ n i st,
  scan_inv b i st →
  ∀ r, r ∈ comments_of (scan_range lax_int n b i st).2 →
    from_braces lax_int b r.
Proof.
  induction n as [|n IH]; intros i st Hinv r Hr; cbn [scan_range] in Hr.
  { by apply elem_of_nil in Hr. }
  destruct (scan_char_inv b i st Hinv) as [Hinv1 H1].
  destruct (scan_char lax_int b i st) as [st1 out1].
  specialize (IH (S i) st1 Hinv1 r).
  destruct (scan_range lax_int n b (S i) st1) as [st2 out2].
  cbn [fst snd] in *. rewrite comments_of_app, elem_of_app in Hr.
  destruct Hr; auto.
Qed.

Lemma scan_inv_init b : scan_inv b 0 scan_init.
Proof. split; [done|]. cbn. lia. Qed.

Lemma scanned_from_braces text r :
  r ∈ scanned lax_int text → from_braces lax_int text r.
Proof. apply scan_range_inv, scan_inv_init. Qed.

Lemma scanned_needs_key text :
  str_in comments_key text = false → scanned lax_int text = [].
Proof.
  intros Hkey. destruct (scanned lax_int text) as [|r rs] eqn:E; [done|].
  destruct (scanned_from_braces text r) as (a & e & _ & _ & _ & Hk & _).
  { rewrite E. by left. }
  apply str_in_of_take in Hk. congruence.
Qed.

End Scan.
End BraceProofs.

Module OutlineProofs.
Import PyStr ThesisReview LlmService StrFacts.

Lemma join_contains sep x : ∀ parts,
  x ∈ parts → str_in x (join sep parts) = true.
Proof.
  induction parts as [|p parts IH]; [by intros ?%elem_of_nil|].
  intros [<-|Hin]%elem_of_cons.
  - destruct parts as [|q parts].
    + cbn. rewrite <-(app_nil_r x) at 2. apply str_in_here.
    + change (join sep (x :: q :: parts))
        with (x ++ sep ++ join sep (q :: parts)). apply str_in_here.
  - destruct parts as [|q parts]; [by apply elem_of_nil in Hin|].
    change (join sep (p :: q :: parts))
      with (p ++ sep ++ join sep (q :: parts)).
    apply str_in_app_r, str_in_app_r. by apply IH.
Qed.

Lemma join_nil_iff sep : ∀ parts,
  Forall (fun p => p ≠ []) parts → join sep parts = [] → parts = [].
Proof.
  intros [|p [|q parts]] H; [done| |].
  - apply Forall_cons in H as [Hp _]. by cbn.
  - apply Forall_cons in H as [Hp _].
    change (join sep (p :: q :: parts))
      with (p ++ sep ++ join sep (q :: parts)).
    destruct p; done.
Qed.

End OutlineProofs.

Module TocProofs.
Import PyStr Re ThesisReview BoundarySpec RegexFacts StrFacts.
Local Open Scope N_scope.

(** A greedy run can stop after any stretch of characters of its set that
    is long enough, if what follows goes through from there. *)
Lemma rep_match_complete {A} cs (k : @cont A) l2 : ∀ l1 lo bos,
  Forall (fun c => cset_mem cs c = true) l1 → (lo ≤ length l1)%nat →
  (∀ b, is_Some (k b l2)) →
  is_Some (rep_match cs lo None bos (l1 ++ l2) k).
Proof.
  induction l1 as [|c l1 IH]; intros lo bos Hl1 Hlo Hk.
  - simpl in Hlo. replace lo with 0%nat by lia. cbn [app].
    destruct l2 as [|c s]; cbn [rep_match]; [done|].
    destruct (cset_mem cs c && true); [|done].
    match goal with
    | |- is_Some (match ?x with _ => _ end) => by destruct x
    end.
  - apply Forall_cons in Hl1 as [Hc Hl1]. cbn [app rep_match].
    rewrite Hc. cbn [andb fmap option_fmap option_map].
    destruct (IH (pred lo) false Hl1) as [a ->]; [simpl in Hlo; lia|done|].
    done.
Qed.

Lemma search_from_unfold r bos s :
  search_from r bos s
  = bool_decide (is_Some (match_at r bos s))
    || match s with
       | [] => false
       | _ :: s' => search_from r false s'
       end.
Proof. by destruct s. Qed.

Lemma search_from_app r s : ∀ pre bos,
  (∀ b, is_Some (match_at r b s)) → search_from r bos (pre ++ s) = true.
Proof.
  induction pre as [|c pre IH]; intros bos H.
  - rewrite search_from_unfold. cbn [app].
    by rewrite (bool_decide_eq_true_2 _ (H bos)).
  - cbn [app search_from]. rewrite IH by done. apply orb_true_r.
Qed.

(** A pattern that cannot start at any character of a text is found
    nowhere in it. *)
Lemma search_from_absent r (P : N → Prop) :
  (∀ b, match_at r b [] = None) →
  (∀ b c t, P c → match_at r b (c :: t) = None) →
  ∀ s bos, Forall P s → search_from r bos s = false.
Proof.
  intros Hnil Hcons. induction s as [|c s IH]; intros bos Hs.
  - cbn. rewrite Hnil. done.
  - apply Forall_cons in Hs as [Hc Hs]. cbn [search_from].
    rewrite (Hcons bos c s Hc), (IH false Hs). done.
Qed.

(** The page-number patterns at a text that ends with a page number. *)
Lemma page_number_tail_matches first ws1 digits ws2 b :
  digits ≠ [] →
  Forall (fun c => isspace c = true) ws1 →
  Forall (fun c => isdecimal c = true) digits →
  Forall (fun c => isspace c = true) ws2 →
  is_Some (match_at (rseq (chr first :: page_number_tail)) b
             (first :: ws1 ++ digits ++ ws2)).
Proof.
  intros Hd H1 H2 H3. unfold match_at, page_number_tail.
  cbn [rseq chr star plus run cset_mem]. rewrite N.eqb_refl.
  apply rep_match_complete; [done|lia|]. intros b1. cbn beta.
  apply rep_match_complete; [done|destruct digits; [done|simpl; lia]|].
  intros b2. cbn beta. rewrite <-(app_nil_r ws2).
  apply rep_match_complete; [done|lia|]. intros b3. done.
Qed.

Lemma startswith_head s k c :
  head s ≠ Some c → startswith s (c :: k) = false.
Proof.
  destruct s as [|y s]; [done|]. cbn. intros H.
  destruct (c =? y) eqn:E; [|done]. apply N.eqb_eq in E. congruence.
Qed.

End TocProofs.

Module WholeBufferProofs.
Import PyStr Json ThesisReview LlmService ServiceSpec StreamSpec.
Local Open Scope N_scope.

Lemma omap_comment_of_strings lax_int (l : list pystr) :
  omap (comment_of_item lax_int) (JStr <$> l) = [].
Proof. by induction l. Qed.

Lemma omap_shorter {A B} (f : A → option B) (l : list A) :
  (length (omap f l) ≤ length l)%nat.
Proof.
  induction l as [|x l IH]; [done|]. cbn. destruct (f x); simpl; lia.
Qed.

Lemma py_iter_None v : py_iter v = None ↔ not_iterable v.
Proof. by destruct v. Qed.

(** Only an array gives records. *)
Lemma py_iter_records lax_int v items :
  py_iter v = Some items →
  omap (comment_of_item lax_int) items ≠ [] →
  v = JArr items.
Proof.
  destruct v; cbn; intros [= <-] H; try done.
  - exfalso. apply H. clear H. by induction s.
  - exfalso. apply H. apply omap_comment_of_strings.
Qed.

End WholeBufferProofs.

Module OverallProofs.
Import PyStr Json ThesisReview LlmService ServiceSpec StreamSpec.

Lemma echo_delivered : ∀ cs,
  (echo cs).1 = text_sse <$> filter (fun f => f ≠ []) (delivered cs).
Proof.
  induction cs as [|choices cs IH]; [done|]. cbn [echo delivered].
  destruct choices as [|content choices]; [done|].
  destruct (echo cs) as [out exn]. cbn [fst] in *.
  destruct content as [[|c w]|]; cbn [default].
  - by rewrite filter_cons_False by (by intros ?).
  - rewrite filter_cons_True by done. cbn. by f_equal.
  - by rewrite filter_cons_False by (by intros ?).
Qed.

Lemma echo_failure : ∀ cs,
  (echo cs).2 = None ↔ Forall (fun choices => choices ≠ []) cs.
Proof.
  induction cs as [|choices cs IH]; [done|]. cbn [echo].
  destruct choices as [|content choices].
  - split; [done|]. by intros [? _]%Forall_cons.
  - destruct (echo cs) as [out exn]. cbn [snd] in *. rewrite IH.
    split; [by constructor|]. by intros [_ ?]%Forall_cons.
Qed.

Lemma text_events_not_done (l : list pystr) :
  filter is_done (text_sse <$> l) = [].
Proof.
  induction l as [|x l IH]; [done|].
  by rewrite fmap_cons, filter_cons_False by (by intros ?).
Qed.

End OverallProofs.

Module ProgressProofs.
Import PyStr Json ThesisReview LlmService SegmenterSpec ServiceSpec.
Import OrchestratorProofs.

Section Orchestrator.
Context (lax_int : json -> option Z).
Context {messages : Type}.
Context (build_section_review_messages :
           Section -> pystr -> nat -> nat -> messages).
Context (provider : nat -> messages -> response).
Context (dump_error : ReviewComment -> option pystr).

Lemma forwarded_no_progress out :
  Forall forwarded out → omap progress_index out = [].
Proof.
  induction 1 as [|e out He _ IH]; [done|]. by destruct e.
Qed.

Lemma section_events_progress outline total idx section :
  omap progress_index
    (section_events lax_int build_section_review_messages provider
       dump_error outline total idx section) = [idx].
Proof.
  unfold section_events. cbn [omap list_omap progress_index].
  rewrite omap_app, forwarded_no_progress
    by apply batch_events_forwarded.
  by destruct (batch_outcome _ _ _ _ _ _ _ _).2.
Qed.

Lemma sections_events_progress outline total : ∀ sections idx,
  omap progress_index
    (sections_events lax_int build_section_review_messages provider
       dump_error outline total idx sections)
  = seq idx (length sections).
Proof.
  induction sections as [|s sections IH]; intros idx; [done|].
  cbn [sections_events length seq].
  by rewrite omap_app, section_events_progress, IH.
Qed.

End Orchestrator.
End ProgressProofs.

Module PromptProofs.
Import PyStr ThesisReview LlmService Prompts StrFacts OutlineProofs.

Lemma paragraph_line_contains p :
  str_in (text p) (paragraph_line p) = true.
Proof.
  unfold paragraph_line. rewrite !(assoc_L (++)).
  rewrite <-(app_nil_r (text p)) at 2. apply str_in_middle.
Qed.

Lemma paragraph_line_nonempty p : paragraph_line p ≠ [].
Proof. done. Qed.

End PromptProofs.

Module ChunkProofs.
Import PyStr Re ThesisReview SegmenterSpec SegmenterProofs DedupProofs.

Lemma filter_all {A} (P : A → Prop) `{∀ x, Decision (P x)} (l : list A) :
  Forall P l → filter P l = l.
Proof.
  induction 1 as [|x l Hx _ IH]; [done|].
  by rewrite filter_cons_True, IH by done.
Qed.

Lemma length_range_from : ∀ n start step,
  length (range_from n start step) = n.
Proof. induction n as [|n IH]; intros; cbn; [done|by rewrite IH]. Qed.

Lemma fallback_chunking_count ps m chunks :
  _fallback_chunking ps m = Some chunks →
  length chunks = (length ps + (m - 1)) / m.
Proof.
  unfold _fallback_chunking, range. intros H. apply length_mapM in H.
  rewrite <-H, length_range_from, Nat.sub_0_r. done.
Qed.

Lemma fallback_chunking_nil m : 0 < m → _fallback_chunking [] m = Some [].
Proof.
  intros Hm. unfold _fallback_chunking, range. cbn [length].
  replace ((0 - 0 + (m - 1)) / m) with 0; [done|].
  symmetry. apply Nat.div_small. lia.
Qed.

Lemma detect_sections_nil_iff ps res :
  detect_sections ps = Some res → res = [] ↔ ps = [].
Proof.
  intros Hres. destruct (detect_sections_shape ps)
    as (res' & pre & Hres' & Hwf & Hcat & Hor).
  rewrite Hres in Hres'. injection Hres' as <-. split.
  - intros ->. destruct Hor as [<-|Hd]; [done|].
    destruct pre as [|s pre]; [done|]. exfalso.
    by apply (deduplicate_nonempty (s :: pre)).
  - intros ->. by vm_compute in Hres; injection Hres as <-.
Qed.

End ChunkProofs.

Module PatternProofs.
Import PyStr Re ThesisReview.

Lemma match_patterns_kind pats t k :
  match_patterns pats t = Some k → k ∈ pats.*2.
Proof.
  induction pats as [|[r k'] pats IH]; [done|]. cbn [match_patterns].
  destruct (re_match r t).
  - destruct (bool_decide (k' = chapter) && negb (_is_heading_paragraph t));
      [done|]. intros [= ->]. by left.
  - intros H. right. by apply IH.
Qed.

Lemma section_patterns_no_cover t k :
  match_patterns _SECTION_PATTERNS t = Some k → k ≠ cover.
Proof.
  intros H%match_patterns_kind ->. cbn in H.
  repeat (apply elem_of_cons in H as [H|H]; [discriminate|]).
  by apply elem_of_nil in H.
Qed.

End PatternProofs.

(** ** The names that reach the deduplication pass *)

Module SolidProofs.
Import PyStr Re ThesisReview SegmenterSpec BoundarySpec NameShape ReachSpec.
Import RegexFacts NameProofs SegmenterProofs BoundaryProofs HeadingProofs.
Local Open Scope N_scope.

































End SolidProofs.

(** ** Batches that fail *)

Module FailureProofs.
Import PyStr Json ThesisReview LlmService SegmenterSpec ServiceSpec.
Import OrchestratorProofs.

Section Stream.
Context (lax_int : json -> option Z).

(** A chunk without choices ends the loop over the chunks with an
    exception. *)
Lemma drain_no_choices : ∀ cs buffer st,
  [] ∈ cs → is_Some (drain lax_int cs buffer st).2.
Proof.
  induction cs as [|choices cs IH]; intros buffer st Hin.
  { by apply elem_of_nil in Hin. }
  cbn [drain]. destruct choices as [|content choices]; [by eexists|].
  apply elem_of_cons in Hin as [?|Hin]; [done|].
  destruct (match content with
            | Some (c :: w) => feed lax_int buffer st (c :: w)
            | _ => (buffer, st, [])
            end) as [[buffer1 st1] out1].
  specialize (IH buffer1 st1 Hin).
  by destruct (drain lax_int cs buffer1 st1) as [[[buffer2 st2] out2] exn].
Qed.

(** A request that fails yields nothing and ends with its exception. *)
Lemma stream_create_error resp e :
  create_error resp = Some e →
  _stream_single_batch lax_int resp = mkRun [] (Some e).
Proof. unfold _stream_single_batch. by intros ->. Qed.

(** A stream that fails, by a chunk without choices or by its own
    exception, ends with an exception. *)
Lemma stream_raises resp :
  create_error resp = None →
  [] ∈ chunks resp ∨ is_Some (stream_error resp) →
  is_Some (raised (_stream_single_batch lax_int resp)).
Proof.
  unfold _stream_single_batch. intros -> H.
  pose proof (drain_no_choices (chunks resp) [] scan_init) as Hd.
  destruct (drain lax_int (chunks resp) [] scan_init)
    as [[[buffer st] out] exn]. cbn [snd] in Hd.
  destruct exn as [e|]; [by eexists|].
  destruct H as [H|[e He]]; [by destruct (Hd H)|].
  rewrite He. by eexists.
Qed.

(** A stream whose chunks all have a choice ends the loop over them
    without an exception. *)
Lemma drain_choices : ∀ cs buffer st,
  [] ∉ cs → (drain lax_int cs buffer st).2 = None.
Proof.
  induction cs as [|choices cs IH]; intros buffer st Hin; [done|].
  cbn [drain]. destruct choices as [|content choices].
  { destruct Hin. left. }
  destruct (match content with
            | Some (c :: w) => feed lax_int buffer st (c :: w)
            | _ => (buffer, st, [])
            end) as [[buffer1 st1] out1].
  assert ([] ∉ cs) as Hcs by (intros ?; apply Hin; by right).
  specialize (IH buffer1 st1 Hcs).
  by destruct (drain lax_int cs buffer1 st1) as [[[buffer2 st2] out2] exn].
Qed.

(** The exception of a stream that delivers its chunks and then fails is
    the one the batch ends with. *)
Lemma stream_error_raised resp e :
  create_error resp = None → [] ∉ chunks resp →
  stream_error resp = Some e →
  raised (_stream_single_batch lax_int resp) = Some e.
Proof.
  unfold _stream_single_batch. intros -> Hcs He.
  pose proof (drain_choices (chunks resp) [] scan_init Hcs) as Hd.
  destruct (drain lax_int (chunks resp) [] scan_init)
    as [[[buffer st] out] exn]. cbn [snd] in Hd. subst exn.
  by rewrite He.
Qed.

End Stream.

Section Batch.
Context (dump_error : ReviewComment -> option pystr).

(** Where the serializer never raises, the loop over the events of a
    batch forwards them all. *)
Lemma forward_all_total evs :
  (∀ c, dump_error c = None) → (forward_all dump_error evs).2 = None.
Proof.
  intros Hd. induction evs as [|[data|data] evs IH]; cbn; [done| |].
  - by destruct (forward_all dump_error evs).
  - rewrite Hd. by destruct (forward_all dump_error evs).
Qed.

Lemma batch_events_total r :
  (∀ c, dump_error c = None) → (batch_events dump_error r).2 = raised r.
Proof.
  intros Hd. unfold batch_events.
  pose proof (forward_all_total (yielded r) Hd) as H.
  destruct (forward_all dump_error (yielded r)) as [out e].
  cbn in H. by subst e.
Qed.

End Batch.
End FailureProofs.

(** ** Chapter matches and the heading test *)

Module RejectProofs.
Import PyStr Re ThesisReview SegmenterSpec SegmenterProofs HeadingProofs.
Import NameProofs.
Local Open Scope N_scope.






End RejectProofs.

(** * The claims *)

Import PyStr Re Json ThesisReview LlmService.
Import SegmenterSpec SegmenterExamples ServiceSpec ReachSpec.
Import SegmenterProofs HeadingProofs ExtractorProofs OrchestratorProofs.
Local Open Scope N_scope.

(** ** Claims about the segmenter *)



(** C7: on a non-empty paragraph list in which no boundary is found,
    [detect_sections] returns chunks that, in order, hold every paragraph
    exactly once; the chunk at position k (from 0) is a chapter whose name
    is U+7B2C, the decimal digits of k + 1 and U+90E8 U+5206, it holds the
    30 paragraphs from position 30 k on (the last chunk: what is left, at
    least one), and its bounds are the indices of its first and last
    paragraph. *)
Theorem C7_fallback_chunks (ps : list paragraph) :
  ps ≠ [] → find_boundaries ps = [] →
  ∃ chunks,
    detect_sections ps = Some chunks
    ∧ concat (paragraphs <$> chunks) = ps
    ∧ ∀ (k : nat) s, chunks !! k = Some s →
        section_type s = chapter
        ∧ name s = [0x7b2c] ++ str_of_nat (k + 1) ++ [0x90e8; 0x5206]
        ∧ paragraphs s = take 30 (drop (30 * k) ps)
        ∧ (1 ≤ length (paragraphs s) ≤ 30)%nat
        ∧ ((S k < length chunks)%nat → length (paragraphs s) = 30%nat)
        ∧ wf_section s.
Proof.
  intros Hne Hb. unfold detect_sections.
  rewrite truthy_true by done. rewrite Hb. cbn [truthy negb].
  destruct (fallback_chunking_spec ps 30) as (chunks & -> & Hwf & Hcat & Hk);
    [lia|done|].
  exists chunks. split_and!; [done|done|].
  intros k s Hks. destruct (Hk k s Hks) as (Hname & Hkind & Hps & Hfull).
  assert (wf_section s) as Hs.
  { rewrite Forall_forall in Hwf. apply Hwf. by eapply list_elem_of_lookup_2. }
  split_and!; try done.
  - apply wf_section_nonempty in Hs. destruct (paragraphs s); [done|simpl; lia].
  - rewrite Hps, length_take. lia.
Qed.

(** C7 at thirty-one paragraphs of plain text: two chunks, the first
    named with the digit 1 and the second with the digit 2. *)
Lemma C7_fallback_chunks_witness :
  ∃ first second,
    detect_sections plain_paragraphs = Some [first; second]
    ∧ name first = [0x7b2c; 0x31; 0x90e8; 0x5206]
    ∧ name second = [0x7b2c; 0x32; 0x90e8; 0x5206]
    ∧ paragraphs first = take 30 plain_paragraphs
    ∧ paragraphs second = drop 30 plain_paragraphs.
Proof.
  destruct (C7_fallback_chunks plain_paragraphs)
    as (chunks & Hres & _ & Hk); [discriminate|vm_compute; reflexivity|].
  assert (∃ first second,
            detect_sections plain_paragraphs = Some [first; second])
    as (first & second & Hd).
  { eexists _, _. vm_compute. reflexivity. }
  rewrite Hd in Hres. injection Hres as <-.
  exists first, second.
  destruct (Hk 0%nat first eq_refl) as (_ & Hn0 & Hp0 & _).
  destruct (Hk 1%nat second eq_refl) as (_ & Hn1 & Hp1 & _).
  split_and!; [done|exact Hn0|exact Hn1|exact Hp0|exact Hp1].
Defined.



(** C9, as stated, fails: the bounds of a section are the indices the caller
    gave its first and last paragraph, and nothing orders those. *)
Lemma C9_counterexample :
  ∃ s, detect_sections descending = Some [s]
       ∧ (end_para_idx s < start_para_idx s)%Z.
Proof. eexists. split; [vm_compute; reflexivity|]. by vm_compute. Qed.

(** C9, amended: [detect_sections] returns on every paragraph list; the
    paragraphs of the returned sections, taken in order, are a subsequence
    of the input, so each section lists its paragraphs in their original
    order and no two sections share one; every returned section has at
    least one paragraph, its bounds are the indices of its first and last
    paragraph, and [start_para_idx <= end_para_idx] whenever the indices of
    the input do not decrease along the list. *)
Theorem C9_sections_wellformed (ps : list paragraph) :
  ∃ res,
    detect_sections ps = Some res
    ∧ sublist (concat (paragraphs <$> res)) ps
    ∧ Forall (fun s =>
                paragraphs s ≠ []
                ∧ sublist (paragraphs s) ps
                ∧ wf_section s
                ∧ (StronglySorted Z.le (index <$> ps) →
                   (start_para_idx s ≤ end_para_idx s)%Z)) res.
Proof.
  destruct (detect_sections_shape ps) as (res & pre & Hres & Hwf & Hcat & Hor).
  assert (sublist res pre) as Hsub.
  { destruct Hor as [->| ->]; [done|apply deduplicate_sublist]. }
  exists res. split; [done|]. split.
  { rewrite <-Hcat. by apply sublist_concat_fmap. }
  apply Forall_forall. intros s Hs.
  assert (s ∈ pre) as Hpre by (by eapply sublist_member).
  assert (wf_section s) as Hwfs by (rewrite Forall_forall in Hwf; auto).
  assert (sublist (paragraphs s) ps) as Hsubs.
  { rewrite <-Hcat. by apply sublist_of_member. }
  split_and!; [by apply wf_section_nonempty|done|done|].
  intros Hsorted. apply wf_section_bounds; [done|].
  eapply sublist_StronglySorted; [|exact Hsorted].
  by apply fmap_sublist.
Qed.

(** C9 at [two_abstracts], whose indices go up: the bounds of every
    returned section are in order. *)
Lemma C9_sections_wellformed_witness :
  ∃ res,
    detect_sections two_abstracts = Some res
    ∧ Forall (fun s => paragraphs s ≠ []
                ∧ (start_para_idx s ≤ end_para_idx s)%Z) res.
Proof.
  destruct (C9_sections_wellformed two_abstracts) as (res & Hres & _ & Hall).
  exists res. split; [done|].
  eapply Forall_impl; [exact Hall|]. intros s (Hne & _ & _ & Hle).
  split; [done|]. apply Hle. vm_compute.
  repeat (constructor; [|repeat constructor; discriminate]). constructor.
Defined.




(** ** Claims about the stream extractor *)

(** C3: however the example text is cut into fragments, the stream ends
    without an error and yields exactly one record, with target text a,
    comment b and severity error (and paragraph index 0, the default); the
    raw text events are the non-empty fragments themselves. *)
Theorem C3_fragmentation_invariant (lax_int : json → option Z)
    (frags : list pystr) :
  concat frags = example_text →
  ∃ out,
    _stream_single_batch lax_int (deliver frags) = mkRun out None
    ∧ comments_of out
      = [mkReviewComment 0 (lit "a") (lit "b") (lit "error")]
    ∧ texts_of out = filter (fun f => f ≠ []) frags.
Proof.
  intros Hcat.
  destruct (stream_refragmented lax_int frags example_text Hcat)
    as (out & Hrun & Hc & Ht); [by vm_compute|].
  exists out. split_and!; [done| |done].
  rewrite Hc. vm_compute. reflexivity.
Qed.

(** C3 at the three fragments of the example. *)
Lemma C3_fragmentation_invariant_witness :
  ∃ out,
    _stream_single_batch (fun _ => None) (deliver example_fragments)
    = mkRun out None
    ∧ comments_of out
      = [mkReviewComment 0 (lit "a") (lit "b") (lit "error")]
    ∧ texts_of out = filter (fun f => f ≠ []) example_fragments.
Proof.
  apply (C3_fragmentation_invariant (fun _ => None) example_fragments).
  reflexivity.
Defined.

(** C4, on the code: a closing square bracket met inside the array at brace
    depth 1 turns the flag off all the same, and the record it stands in
    is lost.  The stream of [bracket_text] yields its first record only,
    while the whole-buffer parse of the same text finds both. *)
Theorem C4_bracket_at_depth_one (lax_int : json → option Z) :
  in_comments_array
    (scan_char lax_int (lit "]") 0 (mkScan true 1 0 0)).1 = false
  ∧ (∃ out,
       _stream_single_batch lax_int (deliver [bracket_text]) = mkRun out None
       ∧ comments_of out
         = [mkReviewComment 0 (lit "a") (lit "b") (lit "suggestion")])
  ∧ extract_comments_from_json lax_int bracket_text
    = Return [ mkReviewComment 0 (lit "a") (lit "b") (lit "suggestion");
               mkReviewComment 0 (lit "see [1]") (lit "c")
                 (lit "suggestion") ].
Proof.
  split; [by vm_compute|]. split; [|by vm_compute].
  destruct (stream_refragmented lax_int [bracket_text] bracket_text)
    as (out & Hrun & Hc & _); [by vm_compute..|].
  exists out. split; [done|]. rewrite Hc. by vm_compute.
Qed.

(** C10, as stated, fails: an object with both keys whose target text is
    null is no record, whatever the integer conversion. *)
Lemma C10_counterexample :
  ∃ c,
    json_loads null_target = Some (JObj c)
    ∧ dict_has c (lit "target_text") = true
    ∧ dict_has c (lit "comment") = true
    ∧ ∀ lax_int, try_extract_single_comment lax_int null_target = None.
Proof.
  eexists. split; [vm_compute; reflexivity|].
  split; [by vm_compute|]. split; [by vm_compute|].
  intros lax_int. by vm_compute.
Qed.

(** C10, amended: [try_extract_single_comment] returns a record exactly
    when its input decodes to an object that has both keys with string
    values, whose severity, if present, is a string and whose paragraph
    index, if present, the model class accepts as an integer; the record
    holds these values, with 0 for a missing paragraph index and
    [suggestion] for a missing severity.  On every other input it returns
    [None]; it raises on none. *)
Theorem C10_single_comment (lax_int : json → option Z) (json_str : pystr)
    (r : ReviewComment) :
  try_extract_single_comment lax_int json_str = Some r
  ↔ ∃ c,
      json_loads json_str = Some (JObj c)
      ∧ dict_lookup c (lit "target_text") = Some (JStr (target_text r))
      ∧ dict_lookup c (lit "comment") = Some (JStr (comment r))
      ∧ match dict_lookup c (lit "severity") with
        | None => severity r = lit "suggestion"
        | Some v => v = JStr (severity r)
        end
      ∧ match dict_lookup c (lit "paragraph_index") with
        | None => paragraph_index r = 0%Z
        | Some v => validate_int lax_int v = Some (paragraph_index r)
        end.
Proof.
  unfold try_extract_single_comment, dict_has, dict_get.
  destruct (json_loads json_str) as [v|];
    [|split; [done|by intros (? & ? & _)]].
  destruct v as [| | | | |?|c];
    try (split; [done|by intros (? & ? & _)]).
  generalize (lit "target_text") (lit "comment") (lit "severity")
    (lit "paragraph_index") (lit "suggestion").
  intros ktt kcm ksv kpi dsv.
  destruct (dict_lookup c ktt) as [vtt|] eqn:Htt; cbn -[new_ReviewComment];
    [|split; [done|intros (? & [= <-] & ? & _); congruence]].
  destruct (dict_lookup c kcm) as [vcm|] eqn:Hcm; cbn -[new_ReviewComment];
    [|split; [done|intros (? & [= <-] & _ & ? & _); congruence]].
  rewrite new_ReviewComment_Some. split.
  - intros (Hpi & -> & -> & Hsv). exists c. rewrite Htt, Hcm.
    split_and!; [done..| |].
    + destruct (dict_lookup c ksv); cbn in Hsv; [done|congruence].
    + destruct (dict_lookup c kpi); cbn in Hpi; [done|congruence].
  - intros (c' & [= <-] & H1 & H2 & H3 & H4).
    rewrite Htt in H1. rewrite Hcm in H2.
    injection H1 as ->. injection H2 as ->. split_and!; [|done|done|].
    + destruct (dict_lookup c kpi); cbn; [done|by rewrite H4].
    + destruct (dict_lookup c ksv); cbn; [done|by rewrite H3].
Qed.

(** ** Claims about the orchestrator *)

(** C2: on every input and for every provider the run ends without an
    exception; its events are one progress event, then for each reviewed
    section, in order, its progress event, the events of its stream and,
    when the batch failed, one error event, and last one [done] event, the
    only one of the run; the progress events count from 0 to the number of
    reviewed sections, whatever failed.  The error event of a section is
    the only one among its events, its message is the section's name
    between the two fixed phrases, followed by the text of the exception,
    and every error event among the events of a section holds the name of
    that section.  A batch fails when the request raises (the section then
    has its progress event and the error event with the text of that
    exception, nothing else), when a chunk has no choice or when the stream
    raises; where every chunk has a choice and the serializer raises
    nowhere, the error event carries the text of the exception of the
    stream. *)
Theorem C2_section_errors_are_isolated (lax_int : json → option Z)
    {messages : Type}
    (build_section_review_messages : Section → pystr → nat → nat → messages)
    (provider : nat → messages → response)
    (dump_error : ReviewComment → option pystr)
    (paragraphs : list paragraph) :
  ∃ all_sections,
    detect_sections paragraphs = Some all_sections
    ∧ let sections :=
        filter (fun s => section_type s ∉ _SKIP_TYPES) all_sections in
      let total := length sections in
      let outline := generate_outline all_sections in
      let r := review_paragraphs_stream lax_int
                 build_section_review_messages provider dump_error
                 paragraphs in
      raised r = None
      ∧ events (yielded r)
        = progress 0 total (start_message (length all_sections) total)
          :: sections_events lax_int build_section_review_messages provider
               dump_error outline total 1 sections
          ++ [done]
      ∧ omap progress_index (events (yielded r)) = seq 0 (S total)
      ∧ last (events (yielded r)) = Some done
      ∧ filter is_done (events (yielded r)) = [done]
      ∧ ∀ idx section,
          let resp :=
            provider idx
              (build_section_review_messages section outline idx total) in
          let evs :=
            section_events lax_int build_section_review_messages provider
              dump_error outline total idx section in
          let failure :=
            (batch_outcome lax_int build_section_review_messages provider
               dump_error outline total idx section).2 in
          let error_of e :=
            error_sse ([0x8bc4; 0x5ba1; 0x20] ++ name section
                       ++ [0x20; 0x51fa; 0x9519; 0x3a; 0x20] ++ e) in
          filter is_error evs
          = match failure with
            | Some e => [error_of e]
            | None => []
            end
          ∧ (∀ m, error_sse m ∈ evs → str_in (name section) m = true)
          ∧ (is_Some (raised (batch_run lax_int build_section_review_messages
                                provider outline total idx section))
             → is_Some failure)
          ∧ (∀ e, create_error resp = Some e →
               evs = [ progress idx total
                         (section_message idx total section);
                       error_of e ])
          ∧ (create_error resp = None →
             [] ∈ chunks resp ∨ is_Some (stream_error resp) →
             ∃ e, filter is_error evs = [error_of e])
          ∧ (∀ e, create_error resp = None → [] ∉ chunks resp →
               stream_error resp = Some e →
               (∀ c, dump_error c = None) →
               filter is_error evs = [error_of e]).
Proof.
  destruct (detect_sections_shape paragraphs) as (res & pre & Hres & _).
  exists res. split; [done|]. intros sections total outline r.
  assert (events (yielded r)
          = progress 0 total (start_message (length res) total)
            :: sections_events lax_int build_section_review_messages provider
                 dump_error outline total 1 sections ++ [done]) as Hev.
  { subst r. unfold review_paragraphs_stream. rewrite Hres.
    cbn [yielded app].
    change (events (Yield ?e :: ?tr)) with (e :: events tr).
    rewrite events_app, events_review_sections. done. }
  split_and!.
  - subst r. unfold review_paragraphs_stream. by rewrite Hres.
  - done.
  - rewrite Hev. cbn [omap list_omap progress_index].
    rewrite omap_app, ProgressProofs.sections_events_progress.
    cbn [omap list_omap progress_index seq]. by rewrite app_nil_r.
  - rewrite Hev. rewrite app_comm_cons. apply last_snoc.
  - rewrite Hev. rewrite filter_cons_False by (intros []).
    rewrite filter_app, sections_events_no_done. done.
  - intros idx section resp evs failure error_of.
    assert (filter is_error evs
            = match failure with
              | Some e => [error_of e]
              | None => []
              end) as Herr by apply section_events_errors.
    split_and!.
    + exact Herr.
    + intros m Hm. subst evs. unfold section_events in Hm.
      apply elem_of_cons in Hm as [Hm|Hm]; [discriminate|].
      apply elem_of_app in Hm as [Hm|Hm].
      * pose proof (batch_events_forwarded dump_error
                      (batch_run lax_int build_section_review_messages
                         provider outline total idx section)) as Hf.
        rewrite Forall_forall in Hf. by destruct (Hf _ Hm).
      * destruct (batch_outcome _ _ _ _ _ _ _ _).2 as [e|];
          [|by apply elem_of_nil in Hm].
        apply list_elem_of_singleton in Hm. injection Hm as ->.
        unfold error_message. apply StrFacts.str_in_middle.
    + intros [e He]. subst failure. unfold batch_outcome.
      by eapply batch_events_raised.
    + intros e He. subst evs error_of.
      unfold section_events, batch_outcome, batch_run. fold resp.
      by rewrite (FailureProofs.stream_create_error lax_int resp e He).
    + intros Hc Hs. rewrite Herr.
      destruct (FailureProofs.stream_raises lax_int resp Hc Hs) as [e He].
      destruct (batch_events_raised dump_error _ e He) as [x Hx].
      exists x. subst failure. unfold batch_outcome, batch_run. fold resp.
      by rewrite Hx.
    + intros e Hc Hcs He Hd. rewrite Herr. subst failure.
      unfold batch_outcome, batch_run. fold resp.
      rewrite (FailureProofs.batch_events_total dump_error _ Hd).
      by rewrite (FailureProofs.stream_error_raised lax_int resp e Hc Hcs He).
Qed.

(** The provider fails on the second of three sections: every section has
    its progress event, the second one its error event, the first and the
    third their record, and the run ends with [done]. *)
Example second_of_three_fails :
  let r := review_paragraphs_stream (fun _ => None)
             (fun _ _ batch_idx _ => batch_idx) second_fails (fun _ => None)
             three_chapters in
  raised r = None
  ∧ omap progress_index (events (yielded r)) = [0; 1; 2; 3]%nat
  ∧ filter is_error (events (yielded r))
    = [error_sse ([0x8bc4; 0x5ba1; 0x20; 0x7b2c; 0x4e8c; 0x7ae0;
                   0x20; 0x51fa; 0x9519; 0x3a; 0x20] ++ lit "rate limit")]
  ∧ omap (fun e => match e with comment_sse c => Some c | _ => None end)
      (events (yielded r))
    = [ mkReviewComment 0 (lit "a") (lit "b") (lit "error");
        mkReviewComment 0 (lit "a") (lit "b") (lit "error") ]
  ∧ last (events (yielded r)) = Some done.
Proof. vm_compute. done. Qed.

(** C6: on every input, the sections handed to the prompt assembler are
    the returned sections that are neither cover nor table of contents, in
    order, and the provider is asked for nothing but the messages assembled
    for these sections. *)
Theorem C6_skipped_sections_never_sent (lax_int : json → option Z)
    {messages : Type}
    (build_section_review_messages : Section → pystr → nat → nat → messages)
    (provider : nat → messages → response)
    (dump_error : ReviewComment → option pystr)
    (paragraphs : list paragraph) :
  ∃ all_sections,
    detect_sections paragraphs = Some all_sections
    ∧ let tr := yielded (review_paragraphs_stream lax_int
                           build_section_review_messages provider dump_error
                           paragraphs) in
      let sections :=
        filter (fun s => section_type s ∉ _SKIP_TYPES) all_sections in
      assembled tr = sections
      ∧ Forall (fun s => section_type s ≠ cover ∧ section_type s ≠ toc)
          (assembled tr)
      ∧ requested tr
        = imap (fun i s =>
                  build_section_review_messages s
                    (generate_outline all_sections) (1 + i)%nat
                    (length sections))
            sections.
Proof.
  destruct (detect_sections_shape paragraphs) as (res & pre & Hres & _).
  exists res. split; [done|]. intros tr sections.
  assert (assembled tr = sections) as Ha.
  { subst tr. unfold review_paragraphs_stream. rewrite Hres. cbn [yielded].
    unfold assembled. rewrite !omap_app. cbn [omap list_omap app].
    rewrite app_nil_r. apply assembled_review_sections. }
  split_and!; [done| |].
  - rewrite Ha. subst sections. apply Forall_forall.
    intros s [Hs _]%list_elem_of_filter. unfold _SKIP_TYPES in Hs.
    split; intros E; apply Hs; rewrite E; [left|right; left].
  - subst tr. unfold review_paragraphs_stream. rewrite Hres. cbn [yielded].
    unfold requested. rewrite !omap_app. cbn [omap list_omap app].
    rewrite app_nil_r. apply requested_review_sections.
Qed.

(** * Further properties of the code *)

Import Prompts BoundarySpec MergeSpec StreamSpec FurtherExamples.
Import RegexFacts StrFacts BoundaryProofs MergeProofs DedupProofs NameProofs.
Import StreamProofs BraceProofs OutlineProofs TocProofs WholeBufferProofs.
Import OverallProofs ProgressProofs PromptProofs ChunkProofs PatternProofs.

(** ** The helpers of the segmenter *)

(** X1: a normalized section name holds no whitespace and no control
    character, and normalizing only deletes: the characters of the result
    are characters of the name, in the order they have there. *)
Theorem X1_normalized_name_is_clean (name : pystr) :
  Forall (fun c => isspace c = false ∧ iscntrl c = false)
    (_normalize_section_name name)
  ∧ _normalize_section_name name `sublist_of` name.
Proof. apply normalize_clean. Qed.

(** X2: a tab and what follows it on the line do not count in a normalized
    name: a heading and its table-of-contents line, which ends with a tab
    and a page number, normalize to the same name. *)
Theorem X2_tab_suffix_is_ignored (name rest : pystr) :
  0x09 ∉ name → 0x0a ∉ rest →
  _normalize_section_name (name ++ 0x09 :: rest)
  = _normalize_section_name name.
Proof. apply normalize_tab_tail. Qed.

(** X2 at the numbered heading and page 3. *)
Lemma X2_tab_suffix_is_ignored_witness :
  _normalize_section_name (numbered_heading ++ 0x09 :: lit "3")
  = _normalize_section_name numbered_heading.
Proof.
  apply (X2_tab_suffix_is_ignored numbered_heading (lit "3")).
  - apply (bool_decide_unpack _). vm_compute. exact I.
  - apply (bool_decide_unpack _). vm_compute. exact I.
Defined.

(** X3: a text looks like a heading exactly when it holds no ideographic
    full stop and at most 60 of its characters are not control
    characters. *)
Theorem X3_heading_paragraph (text : pystr) :
  _is_heading_paragraph text = true
  ↔ (0x3002 ∉ text)
    ∧ (length (filter (fun c => iscntrl c = false) text) ≤ 60)%nat.
Proof. apply is_heading_paragraph_spec. Qed.

(** X4: a text that ends with a tab or a bookmark mark, blanks, a page
    number in decimal digits and blanks is a table-of-contents entry,
    whatever comes before the mark. *)
Theorem X4_page_number_ends_toc_entry (pre ws1 digits ws2 : pystr)
    (mark : N) :
  mark = 0x09 ∨ mark = 0x05 →
  digits ≠ [] →
  Forall (fun c => isspace c = true) ws1 →
  Forall (fun c => isdecimal c = true) digits →
  Forall (fun c => isspace c = true) ws2 →
  _is_toc_entry (pre ++ [mark] ++ ws1 ++ digits ++ ws2) = true.
Proof.
  intros Hmark Hd H1 H2 H3. unfold _is_toc_entry, re_search.
  assert (search_from (rseq (chr mark :: page_number_tail)) true
            (pre ++ [mark] ++ ws1 ++ digits ++ ws2) = true) as Hfound.
  { apply search_from_app. intros b.
    by apply (page_number_tail_matches mark ws1 digits ws2 b). }
  destruct Hmark as [-> | ->].
  - by rewrite Hfound.
  - rewrite Hfound.
    repeat match goal with |- (if ?c then _ else _) = _ => destruct c end;
      done.
Qed.

(** X4 at the table-of-contents line of the numbered heading. *)
Lemma X4_page_number_ends_toc_entry_witness :
  _is_toc_entry (numbered_heading ++ [0x09] ++ [] ++ lit "3" ++ []) = true.
Proof.
  apply (X4_page_number_ends_toc_entry numbered_heading [] (lit "3") [] 0x09).
  - by left.
  - discriminate.
  - constructor.
  - repeat constructor.
  - constructor.
Defined.

(** X5: a table-of-contents entry holds a tab, a full stop, an ideographic
    full stop, a field mark or a bookmark mark, or one of the field-code
    words; a text without any of them is never taken for one. *)
Theorem X5_toc_entry_needs_a_mark (text : pystr) :
  _is_toc_entry text = true →
  (∃ c, c ∈ text ∧ c ∈ toc_marks)
  ∨ str_in (lit "PAGEREF") text = true
  ∨ str_in (lit "HYPERLINK") text = true.
Proof.
  intros H.
  destruct (decide (Exists (fun c => c ∈ toc_marks) text)) as [Hex|Hno].
  { left. by apply Exists_exists in Hex. }
  right. apply not_Exists_Forall in Hno; [|apply _].
  assert (∀ c, (not ∘ (fun c => c ∈ toc_marks)) c →
            c ≠ 0x09 ∧ c ≠ 0x2e ∧ c ≠ 0x3002 ∧ c ≠ 0x13 ∧ c ≠ 0x14
            ∧ c ≠ 0x15 ∧ c ≠ 0x05) as Hmarks.
  { intros c Hc. unfold toc_marks in Hc. cbn in Hc.
    split_and!; intros ->; apply Hc; set_solver. }
  unfold _is_toc_entry, re_search in H.
  rewrite (search_from_absent (rseq (chr 9 :: page_number_tail))
             (not ∘ (fun c => c ∈ toc_marks))) in H; [|done| |done].
  2:{ intros b c t Hc. apply Hmarks in Hc as (Hc & _).
      unfold match_at. cbn [rseq chr page_number_tail Re.run cset_mem].
      by apply N.eqb_neq in Hc as ->. }
  rewrite (search_from_absent
             (rseq (RRep (CUnion (CChar 0x2e) (CChar 0x3002)) 3 None
                    :: page_number_tail))
             (not ∘ (fun c => c ∈ toc_marks))) in H; [|done| |done].
  2:{ intros b c t Hc. apply Hmarks in Hc as (_ & Hc1 & Hc2 & _).
      unfold match_at. cbn [rseq page_number_tail Re.run rep_match cset_mem].
      apply N.eqb_neq in Hc1 as ->. by apply N.eqb_neq in Hc2 as ->. }
  rewrite (search_from_absent
             (RSet (CUnion (CChar 0x13) (CUnion (CChar 0x14) (CChar 0x15))))
             (not ∘ (fun c => c ∈ toc_marks))) in H; [|done| |done].
  2:{ intros b c t Hc. apply Hmarks in Hc as (_ & _ & _ & Hc1 & Hc2 & Hc3 & _).
      unfold match_at. cbn [Re.run cset_mem].
      apply N.eqb_neq in Hc1 as ->. apply N.eqb_neq in Hc2 as ->.
      by apply N.eqb_neq in Hc3 as ->. }
  rewrite (search_from_absent (rseq (chr 5 :: page_number_tail))
             (not ∘ (fun c => c ∈ toc_marks))) in H; [|done| |done].
  2:{ intros b c t Hc. apply Hmarks in Hc as (_ & _ & _ & _ & _ & _ & Hc).
      unfold match_at. cbn [rseq chr page_number_tail Re.run cset_mem].
      by apply N.eqb_neq in Hc as ->. }
  destruct (str_in (lit "PAGEREF") text); [by left|]. right.
  by destruct (str_in (lit "HYPERLINK") text).
Qed.

(** X5 at the table-of-contents line of the numbered heading: it holds a
    tab. *)
Lemma X5_toc_entry_needs_a_mark_witness :
  (∃ c, c ∈ toc_line ∧ c ∈ toc_marks)
  ∨ str_in (lit "PAGEREF") toc_line = true
  ∨ str_in (lit "HYPERLINK") toc_line = true.
Proof. apply (X5_toc_entry_needs_a_mark toc_line). vm_compute. reflexivity. Defined.

(** ** The passes of the segmenter *)

(** X6: the first pass decides paragraph by paragraph.  A boundary is found
    at position [pos] exactly when the paragraph there is a heading: its
    cleaned text, which is the name of the boundary, is not empty and is
    the table-of-contents heading, or else the paragraph is no
    table-of-contents entry and the rule loop accepts the cleaned text.
    Whether the scan is inside a table of contents makes no difference.
    The boundaries come at strictly increasing positions, and none is of
    kind cover. *)
Theorem X6_boundaries_are_headings (ps : list paragraph) :
  (∀ pos name k,
     (pos, name, k) ∈ find_boundaries ps
     ↔ ∃ p, ps !! pos = Some p ∧ heading p name k)
  ∧ StronglySorted lt ((fun b : boundary => b.1.1) <$> find_boundaries ps)
  ∧ Forall (fun b : boundary => b.2 ≠ cover) (find_boundaries ps).
Proof.
  split; [intros; apply find_boundaries_elem|]. split.
  - eapply increasing_sorted, find_boundaries_increasing.
  - apply Forall_forall. intros [[pos name] k] Hb. cbn.
    apply find_boundaries_elem in Hb as (p & _ & _ & _ & [[_ ->]|(_ & _ & H)]);
      [done|]. by eapply section_patterns_no_cover.
Qed.

(** X7: the merge pass cuts the list into runs of consecutive sections and
    returns one section for each run, in order: the first section of the
    run with the others merged into it.  The others are each shorter than
    the minimum and of the kind of the first; the merged section has the
    names joined by [ / ], the paragraphs of the whole run in order, the
    start of the first section and the end of the last.  (Sections are
    values here: no two of them share their list of paragraphs.) *)
Theorem X7_merge_joins_runs (sections : list Section) (min_paragraphs : nat) :
  ∃ groups,
    concat groups = sections
    ∧ Forall2 (merged_from min_paragraphs) groups
        (_merge_small_sections sections min_paragraphs).
Proof. apply merge_small_sections_groups. Qed.

(** X8: after the merge pass no section shorter than the minimum comes
    right after a section of its kind, so that a second pass changes
    nothing. *)
Theorem X8_merge_leaves_nothing_to_merge (sections : list Section)
    (min_paragraphs : nat) :
  (∀ (i : nat) a b,
     _merge_small_sections sections min_paragraphs !! i = Some a →
     _merge_small_sections sections min_paragraphs !! S i = Some b →
     section_type a = section_type b →
     (min_paragraphs ≤ length (paragraphs b))%nat)
  ∧ _merge_small_sections
      (_merge_small_sections sections min_paragraphs) min_paragraphs
    = _merge_small_sections sections min_paragraphs.
Proof.
  pose proof (merge_small_sections_settled sections min_paragraphs) as H.
  split; [exact H|]. by apply merge_small_sections_fixed.
Qed.

(** X9: after the deduplication pass no two sections share a normalized
    name that is not empty, and no name is lost: for every section of the
    input a section of the same normalized name is kept, with at least as
    many paragraphs. *)
Theorem X9_one_section_per_name (sections : list Section) :
  (∀ (a b : nat) sa sb,
     _deduplicate_sections sections !! a = Some sa →
     _deduplicate_sections sections !! b = Some sb →
     _normalize_section_name (name sa) = _normalize_section_name (name sb) →
     _normalize_section_name (name sa) ≠ [] →
     a = b)
  ∧ ∀ s, s ∈ sections →
      ∃ s', s' ∈ _deduplicate_sections sections
            ∧ _normalize_section_name (name s')
              = _normalize_section_name (name s)
            ∧ (length (paragraphs s) ≤ length (paragraphs s'))%nat.
Proof.
  split; [apply deduplicate_distinct|apply deduplicate_represents].
Qed.

(** X10: the deduplication pass is idempotent. *)
Theorem X10_deduplicate_twice (sections : list Section) :
  _deduplicate_sections (_deduplicate_sections sections)
  = _deduplicate_sections sections.
Proof. apply deduplicate_idempotent. Qed.

(** X11: for every batch size [m] above 0, [_fallback_chunking] returns
    the paragraphs cut into ceil(n / m) chunks that hold, in order, every
    paragraph once: the chunk at position k is a chapter whose name is
    U+7B2C, the decimal digits of k + 1 and U+90E8 U+5206, and it holds the
    [m] paragraphs from position [m k] on, the last chunk what is left, at
    least one. *)
Theorem X11_fallback_any_batch_size (ps : list paragraph) (m : nat) :
  (0 < m)%nat →
  ∃ chunks,
    _fallback_chunking ps m = Some chunks
    ∧ length chunks = ((length ps + (m - 1)) / m)%nat
    ∧ concat (paragraphs <$> chunks) = ps
    ∧ ∀ (k : nat) s, chunks !! k = Some s →
        name s = [0x7b2c] ++ str_of_nat (k + 1) ++ [0x90e8; 0x5206]
        ∧ section_type s = chapter
        ∧ paragraphs s = take m (drop (m * k) ps)
        ∧ (1 ≤ length (paragraphs s) ≤ m)%nat.
Proof.
  intros Hm. destruct ps as [|p ps].
  { exists []. split; [by apply fallback_chunking_nil|].
    split; [by rewrite Nat.div_small by (simpl; lia)|]. split; [done|].
    intros k s Hk. by rewrite lookup_nil in Hk. }
  destruct (fallback_chunking_spec (p :: ps) m Hm)
    as (chunks & Hc & Hwf & Hcat & Hk); [done|].
  exists chunks. split; [done|].
  split; [by apply fallback_chunking_count|]. split; [done|].
  intros k s Hks. destruct (Hk k s Hks) as (Hname & Hkind & Hps & _).
  split_and!; [exact Hname|done|done| |].
  - rewrite Forall_forall in Hwf.
    assert (wf_section s) as Hs by (by eapply Hwf, list_elem_of_lookup_2).
    apply wf_section_nonempty in Hs. destruct (paragraphs s); [done|simpl; lia].
  - rewrite Hps, length_take. lia.
Qed.

(** X11 at two paragraphs and batch size 1: two chunks of one paragraph,
    the first named with the digit 1 and the second with the digit 2. *)
Lemma X11_fallback_any_batch_size_witness :
  ∃ first second,
    _fallback_chunking descending 1 = Some [first; second]
    ∧ name first = [0x7b2c; 0x31; 0x90e8; 0x5206]
    ∧ name second = [0x7b2c; 0x32; 0x90e8; 0x5206]
    ∧ paragraphs first = [Paragraph 5 (lit "x")]
    ∧ paragraphs second = [Paragraph 3 (lit "y")].
Proof.
  destruct (X11_fallback_any_batch_size descending 1)
    as (chunks & Hres & Hlen & _ & Hk); [lia|].
  destruct chunks as [|first [|second [|]]]; try discriminate.
  exists first, second.
  destruct (Hk 0%nat first eq_refl) as (Hn0 & _ & Hp0 & _).
  destruct (Hk 1%nat second eq_refl) as (Hn1 & _ & Hp1 & _).
  split_and!; [done|exact Hn0|exact Hn1|exact Hp0|exact Hp1].
Defined.

(** X12: [detect_sections] returns no section only for an empty paragraph
    list. *)
Theorem X12_some_section_unless_empty (ps : list paragraph) :
  ∃ res, detect_sections ps = Some res ∧ (res = [] ↔ ps = []).
Proof.
  destruct (detect_sections_shape ps) as (res & pre & Hres & _).
  exists res. split; [done|]. by apply detect_sections_nil_iff.
Qed.

(** ** The outline and the paragraphs of a prompt *)

(** X13: the outline has a line for every section, numbered from 1, with
    its name and its number of paragraphs; so it names every section it was
    built from, the cover and the table of contents included. *)
Theorem X13_outline_names_every_section (sections : list Section) :
  ∀ (i : nat) s, sections !! i = Some s →
    str_in (str_of_nat (i + 1) ++ lit ". " ++ name s ++ lit " ("
            ++ str_of_nat (length (paragraphs s)) ++ [0x6bb5; 0x29])
      (generate_outline sections) = true
    ∧ str_in (name s) (generate_outline sections) = true.
Proof.
  intros i s Hs.
  assert (str_in (str_of_nat (i + 1) ++ lit ". " ++ name s ++ lit " ("
                  ++ str_of_nat (length (paragraphs s)) ++ [0x6bb5; 0x29])
            (generate_outline sections) = true) as Hline.
  { apply join_contains. eapply list_elem_of_lookup_2.
    rewrite list_lookup_imap, Hs. done. }
  split; [done|]. eapply str_in_trans; [|exact Hline].
  rewrite (assoc_L (++) (str_of_nat (i + 1))). apply str_in_middle.
Qed.

(** X13 at two sections: the line of the second one. *)
Lemma X13_outline_names_every_section_witness :
  str_in (str_of_nat (1 + 1) ++ lit ". " ++ name numbered_b ++ lit " ("
          ++ str_of_nat (length (paragraphs numbered_b)) ++ [0x6bb5; 0x29])
    (generate_outline [numbered_a; numbered_b]) = true
  ∧ str_in (name numbered_b) (generate_outline [numbered_a; numbered_b])
    = true.
Proof.
  apply (X13_outline_names_every_section [numbered_a; numbered_b] 1%nat
           numbered_b).
  reflexivity.
Defined.

(** X14: the paragraphs text of a prompt is empty exactly when every
    paragraph is blank; every paragraph that is not blank has its entry in
    it, the index in brackets and then the text as it was given. *)
Theorem X14_prompt_holds_every_paragraph (ps : list paragraph) :
  (format_paragraphs_for_prompt ps = []
   ↔ Forall (fun p => strip (text p) = []) ps)
  ∧ ∀ p, p ∈ ps → strip (text p) ≠ [] →
      str_in (paragraph_line p) (format_paragraphs_for_prompt ps) = true
      ∧ str_in (text p) (format_paragraphs_for_prompt ps) = true.
Proof.
  unfold format_paragraphs_for_prompt. split.
  - split.
    + intros H. apply join_nil_iff in H.
      * apply fmap_nil_inv in H. apply Forall_forall. intros p Hp.
        destruct (strip (text p)) eqn:E; [done|]. exfalso.
        assert (p ∈ filter (fun p => truthy (strip (text p)) = true) ps) as Hin
          by (apply list_elem_of_filter; by rewrite E).
        rewrite H in Hin. by apply elem_of_nil in Hin.
      * apply Forall_fmap, Forall_forall. intros p _.
        apply paragraph_line_nonempty.
    + intros H.
      assert (filter (fun p => truthy (strip (text p)) = true) ps = []) as ->;
        [|done].
      induction H as [|p ps Hp _ IH]; [done|].
      rewrite filter_cons_False; [done|]. by rewrite Hp.
  - intros p Hp Hne.
    assert (str_in (paragraph_line p)
              (join [0x0a; 0x0a]
                 (paragraph_line
                  <$> filter (fun p => truthy (strip (text p)) = true) ps))
            = true) as Hline.
    { apply join_contains, list_elem_of_fmap_2, list_elem_of_filter.
      split; [|done]. by destruct (strip (text p)). }
    split; [done|]. eapply str_in_trans; [|exact Hline].
    apply paragraph_line_contains.
Qed.

(** ** The whole-buffer parse *)

(** X15: [extract_comments_from_json] raises on every input that decodes
    to a value that is no object, or to an object whose [comments] value is
    null, a boolean or a number. *)
Theorem X15_whole_buffer_parse_raises (lax_int : json → option Z)
    (json_str : pystr) (v : json) :
  json_loads json_str = Some v →
  (not_object v
   ∨ ∃ data w, v = JObj data
       ∧ dict_lookup data (lit "comments") = Some w
       ∧ not_iterable w) →
  raises (extract_comments_from_json lax_int json_str).
Proof.
  unfold extract_comments_from_json, dict_get. intros -> H.
  destruct H as [H|(data & w & -> & E & H)].
  - by destruct v.
  - rewrite E. cbn. apply py_iter_None in H. by rewrite H.
Qed.

(** X15 at an array and at an object whose [comments] value is a number:
    both raise. *)
Lemma X15_whole_buffer_parse_raises_witness :
  raises (extract_comments_from_json (fun _ => None) (lit "[]"))
  ∧ raises (extract_comments_from_json (fun _ => None)
              (lit "{" ++ quoted "comments" ++ lit ": 1}")).
Proof.
  split.
  - apply (X15_whole_buffer_parse_raises _ (lit "[]") (JArr []));
      [vm_compute; reflexivity|by left].
  - apply (X15_whole_buffer_parse_raises _ _
             (JObj [(lit "comments", JInt 1)]));
      [vm_compute; reflexivity|].
    right. exists [(lit "comments", JInt 1)], (JInt 1).
    split_and!; [done|vm_compute; reflexivity|done].
Defined.

(** X16: records come from an array only.  When the whole-buffer parse
    returns a record, the input decodes to an object whose [comments] value
    is an array, and the records are those of the items of the array that
    pass, in order; a [comments] value that is a string or an object gives
    none. *)
Theorem X16_records_come_from_an_array (lax_int : json → option Z)
    (json_str : pystr) (records : list ReviewComment) :
  extract_comments_from_json lax_int json_str = Return records →
  records ≠ [] →
  ∃ data items,
    json_loads json_str = Some (JObj data)
    ∧ dict_lookup data (lit "comments") = Some (JArr items)
    ∧ records = omap (comment_of_item lax_int) items
    ∧ (length records ≤ length items)%nat.
Proof.
  unfold extract_comments_from_json, dict_get. intros H Hne.
  destruct (json_loads json_str) as [v|]; [|by injection H as <-].
  destruct v as [| | | | | |data]; try done.
  destruct (dict_lookup data (lit "comments")) as [w|] eqn:E; cbn in H;
    [|by injection H as <-].
  destruct (py_iter w) as [items|] eqn:Hw; [|done]. injection H as <-.
  apply (py_iter_records lax_int) in Hw as ->; [|done]. cbn in Hne |- *.
  exists data, items. split_and!; [done..|]. apply omap_shorter.
Qed.

(** X16 at the example text. *)
Lemma X16_records_come_from_an_array_witness :
  ∃ data items,
    json_loads example_text = Some (JObj data)
    ∧ dict_lookup data (lit "comments") = Some (JArr items)
    ∧ [mkReviewComment 0 (lit "a") (lit "b") (lit "error")]
      = omap (comment_of_item (fun _ => None)) items
    ∧ (length [mkReviewComment 0 (lit "a") (lit "b") (lit "error")]
       ≤ length items)%nat.
Proof.
  apply (X16_records_come_from_an_array (fun _ => None) example_text).
  - vm_compute. reflexivity.
  - discriminate.
Defined.

(** ** The stream extractor *)

(** X17: what a stream yields as records, and how it ends, depends on the
    text only: two streams that fail nowhere and deliver fragments adding up
    to the same text yield the same records and end the same way. *)
Theorem X17_records_depend_on_the_text_only (lax_int : json → option Z)
    (frags1 frags2 : list pystr) :
  concat frags1 = concat frags2 →
  comments_of (yielded (_stream_single_batch lax_int (deliver frags1)))
  = comments_of (yielded (_stream_single_batch lax_int (deliver frags2)))
  ∧ raised (_stream_single_batch lax_int (deliver frags1))
    = raised (_stream_single_batch lax_int (deliver frags2)).
Proof.
  intros Hcat.
  destruct (stream_deliver lax_int frags1) as (out1 & _ & Hc1 & ->).
  destruct (stream_deliver lax_int frags2) as (out2 & _ & Hc2 & ->).
  rewrite <-Hcat in *.
  destruct (scanned lax_int (concat frags1)) as [|r rs].
  - destruct (extract_comments_from_json lax_int (concat frags1));
      cbn [yielded raised]; [|by rewrite Hc1, Hc2].
    by rewrite !comments_of_app, Hc1, Hc2.
  - cbn [yielded raised]. by rewrite Hc1, Hc2.
Qed.

(** X17 at the example: three fragments, or the text in one piece. *)
Lemma X17_records_depend_on_the_text_only_witness :
  comments_of
    (yielded (_stream_single_batch (fun _ => None) (deliver example_fragments)))
  = comments_of
      (yielded (_stream_single_batch (fun _ => None) (deliver [example_text])))
  ∧ raised (_stream_single_batch (fun _ => None) (deliver example_fragments))
    = raised (_stream_single_batch (fun _ => None) (deliver [example_text])).
Proof.
  apply (X17_records_depend_on_the_text_only (fun _ => None)
           example_fragments [example_text]).
  vm_compute. reflexivity.
Defined.

(** X18: a stream that fails nowhere parses its whole text exactly when the
    incremental scan has emitted no record.  If the scan emitted records,
    they are the records of the stream and it ends normally; if not, the
    records are those of [extract_comments_from_json] on the whole text,
    and when that call raises, its exception ends the stream. *)
Theorem X18_whole_buffer_parse_is_the_last_resort
    (lax_int : json → option Z) (frags : list pystr) :
  let r := _stream_single_batch lax_int (deliver frags) in
  match scanned lax_int (concat frags),
        extract_comments_from_json lax_int (concat frags) with
  | [], Return records => comments_of (yielded r) = records ∧ raised r = None
  | [], Raise e => comments_of (yielded r) = [] ∧ raised r = Some e
  | found, _ => comments_of (yielded r) = found ∧ raised r = None
  end.
Proof.
  cbv zeta. destruct (stream_deliver lax_int frags) as (out & _ & Hc & ->).
  destruct (scanned lax_int (concat frags)) as [|c cs].
  - destruct (extract_comments_from_json lax_int (concat frags));
      cbn [yielded raised]; [|done].
    by rewrite comments_of_app, Hc, comments_of_Comment.
  - by destruct (extract_comments_from_json lax_int (concat frags)).
Qed.

(** X19: the text events of a stream are the contents it has read, those
    that are not empty, as they came and in order: of every chunk the
    content of the first choice, up to a chunk without choices; this holds
    also when the stream fails later.  A failing request yields nothing. *)
Theorem X19_raw_text_is_echoed (lax_int : json → option Z)
    (resp : response) :
  texts_of (yielded (_stream_single_batch lax_int resp))
  = match create_error resp with
    | Some _ => []
    | None => filter (fun f => f ≠ []) (delivered (chunks resp))
    end.
Proof. apply stream_texts. Qed.

(** X20: every record the incremental scan emits was read off a slice of
    the text that starts with an opening brace and ends with a closing one,
    after the quoted field name has appeared. *)
Theorem X20_records_lie_between_braces (lax_int : json → option Z)
    (text : pystr) (r : ReviewComment) :
  r ∈ scanned lax_int text →
  ∃ a e : nat,
    (a ≤ e < length text)%nat
    ∧ text !! a = Some 0x7b ∧ text !! e = Some 0x7d
    ∧ str_in comments_key (take a text) = true
    ∧ try_extract_single_comment lax_int (slice text a (S e)) = Some r.
Proof. apply scanned_from_braces. Qed.

(** X20 at the example text and its record. *)
Lemma X20_records_lie_between_braces_witness :
  ∃ a e : nat,
    (a ≤ e < length example_text)%nat
    ∧ example_text !! a = Some 0x7b ∧ example_text !! e = Some 0x7d
    ∧ str_in comments_key (take a example_text) = true
    ∧ try_extract_single_comment (fun _ => None)
        (slice example_text a (S e))
      = Some (mkReviewComment 0 (lit "a") (lit "b") (lit "error")).
Proof.
  apply (X20_records_lie_between_braces (fun _ => None) example_text).
  vm_compute. left.
Defined.

(** X21: a text that does not hold the quoted field name is left to the
    whole-buffer parse: the incremental scan emits nothing on it, and the
    records of the stream are those of [extract_comments_from_json]. *)
Theorem X21_no_field_name_no_incremental_record
    (lax_int : json → option Z) (frags : list pystr) :
  str_in comments_key (concat frags) = false →
  scanned lax_int (concat frags) = []
  ∧ let r := _stream_single_batch lax_int (deliver frags) in
    match extract_comments_from_json lax_int (concat frags) with
    | Return records => comments_of (yielded r) = records ∧ raised r = None
    | Raise e => comments_of (yielded r) = [] ∧ raised r = Some e
    end.
Proof.
  intros Hkey. pose proof (scanned_needs_key lax_int _ Hkey) as Hs.
  split; [done|]. cbv zeta.
  destruct (stream_deliver lax_int frags) as (out & _ & Hc & ->).
  rewrite Hs in *.
  destruct (extract_comments_from_json lax_int (concat frags));
    cbn [yielded raised]; [|done].
  by rewrite comments_of_app, Hc, comments_of_Comment.
Qed.

(** X21 at an answer that spells the field name with an escape: the record
    is found by the whole-buffer parse. *)
Lemma X21_no_field_name_no_incremental_record_witness :
  scanned (fun _ => None) (concat [escaped_key_text]) = []
  ∧ comments_of
      (yielded (_stream_single_batch (fun _ => None)
                  (deliver [escaped_key_text])))
    = [mkReviewComment 0 (lit "a") (lit "b") (lit "suggestion")].
Proof.
  destruct (X21_no_field_name_no_incremental_record (fun _ => None)
              [escaped_key_text]) as [Hs Hr]; [vm_compute; reflexivity|].
  split; [done|]. cbv zeta in Hr.
  replace (extract_comments_from_json (fun _ => None)
             (concat [escaped_key_text]))
    with (Return [mkReviewComment 0 (lit "a") (lit "b") (lit "suggestion")])
    in Hr by (vm_compute; reflexivity).
  by destruct Hr.
Defined.

(** ** The overall comment and the progress of a review *)

(** X22: whatever the provider does, the events of
    [generate_overall_comment_stream] are the text events of the contents
    it has read, those that are not empty, in order, then one error event
    exactly when the request, a chunk without choices or the stream has
    raised, and last one [done] event, the only one. *)
Theorem X22_overall_comment_events (resp : response) :
  ∃ failure,
    generate_overall_comment_stream resp
    = (text_sse
       <$> match create_error resp with
           | Some _ => []
           | None => filter (fun f => f ≠ []) (delivered (chunks resp))
           end)
      ++ match failure with
         | Some e => [error_sse (comment_error_message e)]
         | None => []
         end
      ++ [done]
    ∧ (failure = None
       ↔ create_error resp = None
         ∧ Forall (fun choices => choices ≠ []) (chunks resp)
         ∧ stream_error resp = None)
    ∧ last (generate_overall_comment_stream resp) = Some done
    ∧ filter is_done (generate_overall_comment_stream resp) = [done].
Proof.
  unfold generate_overall_comment_stream.
  destruct (create_error resp) as [e|] eqn:Hcreate.
  { exists (Some e). split_and!; try done. split; [done|]. by intros [? _]. }
  pose proof (echo_delivered (chunks resp)) as Hout.
  pose proof (echo_failure (chunks resp)) as Hexn.
  destruct (echo (chunks resp)) as [out exn]. cbn [fst snd] in *. subst out.
  exists (match exn with Some e => Some e | None => stream_error resp end).
  split_and!.
  - done.
  - destruct exn as [e|].
    + split; [done|]. intros (_ & H & _). apply Hexn in H. done.
    + split; [intros H; split_and!; [done|by apply Hexn|done]|].
      by intros (_ & _ & ?).
  - rewrite !(assoc_L (++)). apply last_snoc.
  - rewrite !filter_app, text_events_not_done.
    by destruct (match exn with Some e => Some e | None => stream_error resp end).
Qed.

(** X23: the progress events of a review count up from 0 to the number of
    sections to review, one for the start and one for each section, in
    order, whatever the provider does. *)
Theorem X23_progress_counts_up (lax_int : json → option Z)
    {messages : Type}
    (build_section_review_messages : Section → pystr → nat → nat → messages)
    (provider : nat → messages → response)
    (dump_error : ReviewComment → option pystr)
    (paragraphs : list paragraph) :
  ∃ all_sections,
    detect_sections paragraphs = Some all_sections
    ∧ omap progress_index
        (events (yielded (review_paragraphs_stream lax_int
                            build_section_review_messages provider
                            dump_error paragraphs)))
      = seq 0 (S (length (filter (fun s => section_type s ∉ _SKIP_TYPES)
                            all_sections))).
Proof.
  destruct (detect_sections_shape paragraphs) as (res & pre & Hres & _).
  exists res. split; [done|]. unfold review_paragraphs_stream.
  rewrite Hres. cbn [yielded app].
  change (events (Yield ?e :: ?tr)) with (e :: events tr).
  rewrite events_app, events_review_sections. cbn [omap list_omap progress_index].
  rewrite omap_app, sections_events_progress. cbn [events omap list_omap].
  rewrite app_nil_r. done.
Qed.

(** X24: a document in which no heading is found is reviewed in full: the
    sections handed to the prompt assembler hold, in order, every paragraph
    once, and the provider is asked once for every 30 paragraphs, rounded
    up. *)
Theorem X24_without_headings_all_is_reviewed (lax_int : json → option Z)
    {messages : Type}
    (build_section_review_messages : Section → pystr → nat → nat → messages)
    (provider : nat → messages → response)
    (dump_error : ReviewComment → option pystr)
    (ps : list paragraph) :
  ps ≠ [] → find_boundaries ps = [] →
  concat (paragraphs
          <$> assembled
                (yielded (review_paragraphs_stream lax_int
                            build_section_review_messages provider
                            dump_error ps)))
  = ps
  ∧ length (requested
              (yielded (review_paragraphs_stream lax_int
                          build_section_review_messages provider
                          dump_error ps)))
    = ((length ps + 29) / 30)%nat.
Proof.
  intros Hne Hb.
  destruct (fallback_chunking_spec ps 30) as (chunks & Hc & _ & Hcat & Hk);
    [lia|done|].
  assert (detect_sections ps = Some chunks) as Hres.
  { unfold detect_sections. rewrite truthy_true by done. rewrite Hb. done. }
  assert (filter (fun s => section_type s ∉ _SKIP_TYPES) chunks = chunks)
    as Hall.
  { apply filter_all. apply Forall_forall. intros s Hs.
    apply list_elem_of_lookup in Hs as [k Hs].
    destruct (Hk k s Hs) as (_ & -> & _). unfold _SKIP_TYPES.
    intros Hin. repeat (apply elem_of_cons in Hin as [Hin|Hin]; [done|]).
    by apply elem_of_nil in Hin. }
  unfold review_paragraphs_stream. rewrite Hres, Hall. cbn [yielded].
  unfold assembled, requested. rewrite !omap_app.
  cbn [omap list_omap app]. rewrite !app_nil_r.
  fold (assembled (messages:=messages)
          (review_sections lax_int build_section_review_messages provider
             dump_error (generate_outline chunks) (length chunks) 1 chunks)).
  fold (requested (messages:=messages)
          (review_sections lax_int build_section_review_messages provider
             dump_error (generate_outline chunks) (length chunks) 1 chunks)).
  rewrite assembled_review_sections, requested_review_sections.
  split; [done|]. rewrite length_imap.
  by apply fallback_chunking_count in Hc.
Qed.

(** X24 at thirty-one paragraphs of plain text: two requests. *)
Lemma X24_without_headings_all_is_reviewed_witness :
  concat (paragraphs
          <$> assembled
                (yielded (review_paragraphs_stream (fun _ => None)
                            (fun _ _ batch_idx _ => batch_idx) second_fails
                            (fun _ => None) plain_paragraphs)))
  = plain_paragraphs
  ∧ length (requested
              (yielded (review_paragraphs_stream (fun _ => None)
                          (fun _ _ batch_idx _ => batch_idx) second_fails
                          (fun _ => None) plain_paragraphs)))
    = 2%nat.
Proof.
  apply (X24_without_headings_all_is_reviewed (fun _ => None)
           (fun _ _ batch_idx _ => batch_idx) second_fails (fun _ => None)
           plain_paragraphs).
  - discriminate.
  - vm_compute. reflexivity.
Defined.
